(** * hippylib.scheduling: communicator splitting and collectives

    A shallow embedding of [hippylib/scheduling/comm_utils.py] and
    [hippylib/scheduling/collective.py].

    Every function of the two modules is the code one MPI process runs.
    A process is embedded as a program [prog A]: a tree whose leaves are
    the values it returns and whose nodes are the blocking collective
    calls it makes on its communicator ([Allreduce], [bcast], [Split]),
    each with the continuation that consumes what the call hands back.
    A group of processes is executed by [run], which answers a
    collective call once every process of the group has made the matching
    call, and gives no result to a process whose call its peers do not
    all make. What MPI leaves to the implementation, the order in which
    a sum of reals is added, is a parameter of the execution: a
    [Transport].

    Data is kept as the code has it: [np.float64] is the kernel's binary64
    [float], [np.int32] is a [Z] wrapped to 32 bits, numpy arrays and
    dolfin vectors are objects in a per-process heap addressed by
    location, and Python exceptions are values of [exn]. *)

From Stdlib Require Import ZArith Zpower List Sorted String Ascii Lia Floats Uint63.
From stdpp Require Import base option list gmap.
Set Warnings "-register-all,-inexact-float".
Import ListNotations.
Open Scope Z_scope.

(** ** Python exceptions *)

Inductive exn : Type :=
| AssertionError
| NotImplementedError (msg : string)
| NameError (name : string)
| TypeError (msg : string)
| AttributeError (msg : string)
| OverflowError (msg : string)
| RuntimeError (msg : string)
| ZeroDivisionError (msg : string)
| MPIException (msg : string).

(** The outcome of a call: an exception or a value. *)
Definition result (A : Type) : Type := (exn + A)%type.

(** ** Communicators *)

(** An [mpi4py] communicator handle as one process holds it: the world
    ranks of the group's processes, listed in the order of their ranks
    in the group, and the world rank of the process holding the handle. *)
Record Comm : Type := mkComm { members : list Z; me : Z }.

Fixpoint index_of (x : Z) (l : list Z) : Z :=
  match l with
  | [] => 0
  | y :: l' => if Z.eqb x y then 0 else 1 + index_of x l'
  end.

Definition Get_size (c : Comm) : Z := Z.of_nat (length (members c)).
Definition Get_rank (c : Comm) : Z := index_of (me c) (members c).

(** ** Transport payloads *)

(** What [comm.bcast] pickles: a Python scalar or the contents of a
    numpy array. *)
Inductive wire : Type :=
| WFloat (x : float)
| WInt (z : Z)
| WArray (xs : list float).

(** ** Programs of one process *)

(** The collective calls of [mpi4py] the two modules make, with their
    arguments: [comm.Allreduce([send, MPI.DOUBLE], [receive, MPI.DOUBLE],
    op=MPI.SUM)], the same over [MPI.INT], [comm.bcast(obj, root=root)]
    and [comm.Split(color=color, key=key)]. *)
Inductive event : Type :=
| EAllreduceDouble (send : list float)
| EAllreduceInt (send : list Z)
| EBcast (obj : wire) (root : Z)
| ESplit (c : Comm) (color key : Z).

(** What a completed call hands back to one process. *)
Inductive response : Type :=
| RDouble (receive : list float)
| RInt (receive : list Z)
| RWire (w : wire)
| RComm (c : Comm).

Inductive prog (A : Type) : Type :=
| Ret (a : A)
| Call (e : event) (k : response -> prog A).

Arguments Ret {A} a.
Arguments Call {A} e k.

Fixpoint bind {A B : Type} (p : prog A) (f : A -> prog B) : prog B :=
  match p with
  | Ret a => f a
  | Call e k => Call e (fun r => bind (k r) f)
  end.

(** The calls as the code writes them, each with the kind of answer it
    expects. A receive buffer starts as zeros ([np.zeros_like(send)]). *)
Definition AllreduceDouble {A : Type} (send : list float) (k : list float -> prog A)
  : prog A :=
  Call (EAllreduceDouble send)
       (fun r => k (match r with RDouble receive => receive
                                | _ => map (fun _ => 0%float) send end)).

Definition AllreduceInt {A : Type} (send : list Z) (k : list Z -> prog A) : prog A :=
  Call (EAllreduceInt send)
       (fun r => k (match r with RInt receive => receive
                                | _ => map (fun _ => 0) send end)).

Definition Bcast {A : Type} (obj : wire) (root : Z) (k : wire -> prog A) : prog A :=
  Call (EBcast obj root) (fun r => k (match r with RWire w => w | _ => obj end)).

Definition Split {A : Type} (c : Comm) (color key : Z) (k : Comm -> prog A) : prog A :=
  Call (ESplit c color key)
       (fun r => k (match r with RComm c' => c' | _ => mkComm [] (me c) end)).

(** [comm.bcast(obj, root=root)] as a process runs it: [mpi4py] passes
    the root to [MPI_Bcast], which refuses a root that is no rank of the
    group before anything is sent, and the error is raised as an
    [MPI.Exception]; with a rank of the group the process makes the
    collective call. *)
Definition comm_bcast {A : Type} (comm : Comm) (obj : wire) (root : Z)
  (raise : exn -> prog A) (k : wire -> prog A) : prog A :=
  if (Z.leb 0 root && Z.ltb root (Get_size comm))%bool then Bcast obj root k
  else raise (MPIException "Invalid root").

(** ** The transport: what a completed collective call hands back *)

(** [np.int32]: two's complement wrap-around to 32 bits. *)
Definition wrap32 (z : Z) : Z := (z + 2 ^ 31) mod 2 ^ 32 - 2 ^ 31.

Definition vadd (xs ys : list float) : list float := zip_with PrimFloat.add xs ys.

Definition same_length {A : Type} (x : list A) (rest : list (list A)) : bool :=
  forallb (fun y => Nat.eqb (length y) (length x)) rest.

(** *** The order of a sum

    [MPI.SUM] adds the buffers of the processes position by position. In
    which order the values of the ranks are added is left to the MPI
    implementation; for [MPI.DOUBLE], whose addition is not associative,
    the result depends on it. An order is a binary tree over the ranks: a
    leaf is the value of a rank, a node adds what its two branches
    give. *)
Inductive plan : Type :=
| Leaf (rank : nat)
| Node (l r : plan).

Fixpoint ranks_of (t : plan) : list nat :=
  match t with
  | Leaf i => [i]
  | Node l r => ranks_of l ++ ranks_of r
  end.

(** The binary64 sum of the values [xs] of the ranks, added along [t]. *)
Fixpoint plan_sum (t : plan) (xs : list float) : float :=
  match t with
  | Leaf i => nth i xs 0%float
  | Node l r => (plan_sum l xs + plan_sum r xs)%float
  end.

(** The same over [np.int32]: every addition wraps to 32 bits. *)
Fixpoint plan_sum32 (t : plan) (xs : list Z) : Z :=
  match t with
  | Leaf i => nth i xs 0
  | Node l r => wrap32 (plan_sum32 l xs + plan_sum32 r xs)
  end.

(** An MPI implementation, as far as the two modules can observe it: for
    a group of [n] processes and buffers of [count] elements, the order
    in which position [j] is added. Nothing is known of the order but
    that it adds the value of each rank once; an implementation keeps to
    its order from one call to the next. *)
Class Transport : Type := {
  sum_order : nat -> nat -> nat -> plan;
  sum_order_ranks : forall n count j : nat,
    (0 < n)%nat -> ranks_of (sum_order n count j) ≡ₚ seq 0 n
}.

(** Position [j] of every buffer, by rank. *)
Definition position {A : Type} (d : A) (j : nat) (buffers : list (list A)) : list A :=
  map (fun b => nth j b d) buffers.

(** The elementwise sum of the buffers of ranks 0, 1, ..., as the
    transport adds them. *)
Definition summed `{T : Transport} (buffers : list (list float)) : list float :=
  let n := length buffers in
  let count := length (hd [] buffers) in
  map (fun j => plan_sum (sum_order n count j) (position 0%float j buffers)) (seq 0 count).

Definition summed32 `{T : Transport} (buffers : list (list Z)) : list Z :=
  let n := length buffers in
  let count := length (hd [] buffers) in
  map (fun j => plan_sum32 (sum_order n count j) (position 0 j buffers)) (seq 0 count).

(** [MPI.SUM] over [MPI.DOUBLE] buffers. Buffers of different lengths do
    not make a valid call. *)
Definition Allreduce_SUM_DOUBLE `{T : Transport} (s0 : list float) (rest : list (list float))
  : option (list float) :=
  if same_length s0 rest then Some (summed (s0 :: rest)) else None.

(** [MPI.SUM] over [MPI.INT] buffers: 32-bit addition. *)
Definition Allreduce_SUM_INT `{T : Transport} (s0 : list Z) (rest : list (list Z))
  : option (list Z) :=
  if same_length s0 rest then Some (summed32 (s0 :: rest)) else None.

(** Two orders: the ranks one after the other, and the two halves of the
    group each summed first. *)
Fixpoint in_rank_order (n : nat) : plan :=
  match n with
  | O => Leaf 0
  | S n' =>
      match n' with
      | O => Leaf 0
      | S _ => Node (in_rank_order n') (Leaf n')
      end
  end.

Fixpoint by_halves (fuel first n : nat) : plan :=
  match fuel with
  | O => Leaf first
  | S fuel' =>
      if (n <=? 1)%nat then Leaf first
      else Node (by_halves fuel' first (n / 2))
                (by_halves fuel' (first + n / 2) (n - n / 2))
  end.

Definition rank_order : Transport.
Proof.
  refine {| sum_order := fun n _ _ => in_rank_order n |}.
  intros n _ _ Hn. induction n as [|[|n] IH]; [lia | reflexivity |].
  change (ranks_of (in_rank_order (S (S n))))
    with (ranks_of (in_rank_order (S n)) ++ [S n]).
  rewrite IH by lia. rewrite (seq_S (S n) 0). reflexivity.
Defined.

Definition pairwise : Transport.
Proof.
  refine {| sum_order := fun n _ _ => by_halves n 0 n |}.
  intros n _ _ Hn.
  enough (E : forall fuel first m, (0 < m <= fuel)%nat ->
            ranks_of (by_halves fuel first m) = seq first m)
    by (rewrite E by lia; reflexivity).
  clear. induction fuel as [|fuel IH]; intros first m Hm; [lia|].
  cbn [by_halves]. destruct (Nat.leb_spec m 1) as [H1|H1].
  - replace m with 1%nat by lia. reflexivity.
  - assert (m / 2 < m)%nat by (apply Nat.div_lt; lia).
    assert (0 < m / 2)%nat by (apply Nat.div_str_pos; lia).
    cbn [ranks_of]. rewrite !IH by lia. rewrite <- seq_app. f_equal. lia.
Defined.

(** [Comm.Split]: the new group of a process holds the processes that
    passed the same color, ranked by key, ties broken by the rank in the
    parent group. Each entry of [infos] is (world rank, color, key) of one
    process, in parent rank order. *)
Fixpoint insert_by_key (x : Z * Z * Z) (l : list (Z * Z * Z)) : list (Z * Z * Z) :=
  match l with
  | [] => [x]
  | y :: l' => if Z.leb (snd x) (snd y) then x :: y :: l'
               else y :: insert_by_key x l'
  end.

Definition sort_by_key (l : list (Z * Z * Z)) : list (Z * Z * Z) :=
  fold_right insert_by_key [] l.

Definition split_members (infos : list (Z * Z * Z)) (color : Z) : list Z :=
  map (fun i => fst (fst i))
      (sort_by_key (List.filter (fun i => Z.eqb (snd (fst i)) color) infos)).

Definition double_send (e : event) : option (list float) :=
  match e with EAllreduceDouble s => Some s | _ => None end.

Definition int_send (e : event) : option (list Z) :=
  match e with EAllreduceInt s => Some s | _ => None end.

Definition bcast_args (e : event) : option (wire * Z) :=
  match e with EBcast o r => Some (o, r) | _ => None end.

Definition split_args (e : event) : option (Z * Z * Z) :=
  match e with ESplit c color key => Some (me c, color, key) | _ => None end.

(** [respond e0 rest]: the answers, by rank, to the calls [e0 :: rest]
    that the processes of ranks 0, 1, ... have made; [None] when the
    calls do not make one valid collective call (different calls,
    buffers of different lengths, different roots, a negative color).
    A broadcast reaches the transport only with a root that is a rank of
    the group: [comm_bcast] below raises on any other. *)
Definition respond `{T : Transport} (e0 : event) (rest : list event)
  : option (list response) :=
  match e0 with
  | EAllreduceDouble s0 =>
      match mapM double_send rest with
      | Some ss =>
          match Allreduce_SUM_DOUBLE s0 ss with
          | Some r => Some (map (fun _ => RDouble r) (e0 :: rest))
          | None => None
          end
      | None => None
      end
  | EAllreduceInt s0 =>
      match mapM int_send rest with
      | Some ss =>
          match Allreduce_SUM_INT s0 ss with
          | Some r => Some (map (fun _ => RInt r) (e0 :: rest))
          | None => None
          end
      | None => None
      end
  | EBcast o0 root =>
      match mapM bcast_args rest with
      | Some ors =>
          if (forallb (fun o => Z.eqb (snd o) root) ors && Z.leb 0 root)%bool then
            match (o0 :: map fst ors) !! Z.to_nat root with
            | Some w => Some (map (fun _ => RWire w) (e0 :: rest))
            | None => None
            end
          else None
      | None => None
      end
  | ESplit c0 color0 key0 =>
      match mapM split_args rest with
      | Some cks =>
          let infos := (me c0, color0, key0) :: cks in
          if forallb (fun i => Z.leb 0 (snd (fst i))) infos then
            Some (map (fun i => RComm (mkComm (split_members infos (snd (fst i)))
                                              (fst (fst i)))) infos)
          else None
      | None => None
      end
  end.

(** ** Running a group of processes *)

Definition finish {A : Type} (p : prog A) : option A :=
  match p with Ret a => Some a | _ => None end.

Definition at_call {A : Type} (p : prog A) : option (event * (response -> prog A)) :=
  match p with Call e k => Some (e, k) | _ => None end.

(** [run p0 rest] executes the group whose rank 0 runs [p0] and whose
    ranks 1, 2, ... run the programs of [rest]; the answer lists, by rank,
    [Some a] for a process that returned [a] and [None] for a process
    that made a collective call which is erroneous under MPI: a peer
    returned without making it, or the calls made are not one valid call.
    MPI defines no outcome for such a call, and [run] gives none (a
    reduction, which needs the value of every process, cannot complete). *)
Fixpoint run `{T : Transport} {A : Type} (p0 : prog A) (rest : list (prog A)) {struct p0}
  : list (option A) :=
  match p0 with
  | Ret a => Some a :: map finish rest
  | Call e0 k0 =>
      match mapM at_call rest with
      | Some eks =>
          match respond e0 (map fst eks) with
          | Some (r0 :: rs) => run (k0 r0) (zip_with (fun ek r => snd ek r) eks rs)
          | _ => None :: map finish rest
          end
      | None => None :: map finish rest
      end
  end.

Definition run_group `{T : Transport} {A : Type} (ps : list (prog A)) : list (option A) :=
  match ps with
  | [] => []
  | p0 :: rest => run p0 rest
  end.

(** A group is launched on a communicator: the process of world rank
    [m] runs its body with its own handle on the group. *)
Definition launch `{T : Transport} {A : Type} (ms : list Z) (bodies : list (Comm -> prog A))
  : list (option A) :=
  run_group (zip_with (fun m body => body (mkComm ms m)) ms bodies).

(** ** comm_utils.py *)

(** [splitCommunicators(comm_world, n_subdomain, n_instances)].
    [np.floor(mpi_rank/n_instances)] and [np.remainder(mpi_rank,
    n_instances)] are the floor quotient and the remainder with the sign
    of the divisor, which is what [Z.div] and [Z.modulo] compute; the
    quotient of ranks is small enough for the binary64 division to give
    the same floor. [mpi_rank/n_instances] divides two Python integers
    and raises when the divisor is 0. Color and key reach [Split] as the
    integers they denote. *)
Definition splitCommunicators (comm_world : Comm) (n_subdomain n_instances : Z)
  : prog (result (Comm * Comm)) :=
  let mpi_rank := Get_rank comm_world in
  let world_size := Get_size comm_world in
  if negb (Z.eqb world_size (n_subdomain * n_instances)) then
    Ret (inl AssertionError)
  else if Z.eqb n_instances 0 then
    Ret (inl (ZeroDivisionError "division by zero"))
  else
    let color := mpi_rank / n_instances in
    let key := mpi_rank mod n_instances in
    Split comm_world color key (fun mesh_constructor_comm =>
    Split comm_world key color (fun collective_comm =>
    Ret (inr (mesh_constructor_comm, collective_comm)))).

(** The flat group of [n] processes, world ranks [0 .. n-1]. *)
Definition world (n : nat) : list Z := map Z.of_nat (seq 0 n).

Definition split_world `{T : Transport} (n : nat) (n_subdomain n_instances : Z)
  : list (option (result (Comm * Comm))) :=
  launch (world n)
         (map (fun _ c => splitCommunicators c n_subdomain n_instances) (world n)).

Definition color_of (n_instances rank : Z) : Z := rank / n_instances.
Definition key_of (n_instances rank : Z) : Z := rank mod n_instances.

(** ** collective.py *)

(** *** Strings *)

(** [str.lower] on the characters that matter to the operation names:
    the ASCII capitals are mapped to their small letters, every other
    byte is kept. No character outside ASCII has a small letter among
    those of "sum" and "avg", so whether a name is "sum", "avg" or
    neither is decided as Python decides it for every name; the
    lowercase form itself, which the error of an unknown operation
    echoes, is Python's for the names written in ASCII. *)
Definition lower_ascii (c : ascii) : ascii :=
  let n := nat_of_ascii c in
  if (Nat.leb 65 n && Nat.leb n 90)%bool then ascii_of_nat (n + 32) else c.

Fixpoint lower (s : string) : string :=
  match s with
  | EmptyString => EmptyString
  | String c s' => String (lower_ascii c) (lower s')
  end.

(** ["...{0}...".format(x)] for a template with one hole. *)
Definition format (before after x : string) : string :=
  (before ++ x ++ after)%string.

Definition str_in (s : string) (l : list string) : bool :=
  existsb (String.eqb s) l.

(** *** Name resolution *)

(** The names bound at module level in [collective.py]: its imports, its
    classes and its function. A name a method reads without assigning it
    (and that is no builtin) is looked up here; each of these objects is
    truthy. *)
Definition collective_globals : list string :=
  ["dl"; "np"; "MPI"; "NullCollective"; "MultipleSamePartitioningPDEsCollective";
   "MultipleSerialPDEsCollective"]%string.

Definition load_global (globals : list string) (name : string) : result bool :=
  if str_in name globals then inr true
  else inl (NameError (format "name '" "' is not defined" name)).

(** *** Python values and the heap of one process *)

(** A dolfin vector as the collective sees it: [get_local()], the size of
    [mpi_comm()], and the number of [apply] calls made on it. *)
Record Vector : Type := mkVector { local : list float; owner_size : Z; applied : nat }.

(** The mutable objects of one process: numpy arrays of doubles and
    vectors, each found at its location (its identity). *)
Record heap : Type := mkHeap {
  arrays : gmap positive (list float);
  vectors : gmap positive Vector
}.

(** The payloads, by the test of the dispatch that accepts them:
    [type(v) in [float, np.float64]]; [type(v) in [int, np.int,
    np.int32]]; [type(v) is np.ndarray]; [hasattr(v, "mpi_comm") and
    hasattr(v, "get_local")]; [hasattr(v, 'nvec')], with [v[i]] the
    entries; anything else, with the name of its type. *)
Inductive pyval : Type :=
| VFloat (x : float)
| VInt (z : Z)
| VArray (a : positive)
| VVector (a : positive)
| VMulti (entries : list pyval)
| VOther (type_name : string).

Definition get_array (h : heap) (a : positive) : list float :=
  default [] (arrays h !! a).

Definition set_array (h : heap) (a : positive) (xs : list float) : heap :=
  mkHeap (<[a := xs]> (arrays h)) (vectors h).

Definition get_vector (h : heap) (a : positive) : Vector :=
  default (mkVector [] 1 0) (vectors h !! a).

Definition put_vector (h : heap) (a : positive) (x : Vector) : heap :=
  mkHeap (arrays h) (<[a := x]> (vectors h)).

(** [v.set_local(values)]: dolfin refuses an array whose size is not the
    local size. *)
Definition set_local (x : Vector) (values : list float) : result Vector :=
  if Nat.eqb (length values) (length (local x))
  then inr (mkVector values (owner_size x) (applied x))
  else inl (RuntimeError "Size of values array is not equal to local vector size").

(** [v.apply("")] *)
Definition apply (x : Vector) : Vector :=
  mkVector (local x) (owner_size x) (S (applied x)).

(** [float(n)] for a group size. *)
Definition float_of_Z (n : Z) : float := PrimFloat.of_uint63 (Uint63.of_Z n).

(** [np.array([v], dtype=np.int32)] for a Python integer: numpy converts
    through a C long and keeps the low 32 bits. *)
Definition to_int32 (z : Z) : result Z :=
  if (Z.leb (- 2 ^ 63) z && Z.ltb z (2 ^ 63))%bool then inr (wrap32 z)
  else inl (OverflowError "Python int too large to convert to C long").

(** What a method call leaves behind: the heap and the outcome. *)
Definition outcome : Type := (heap * result pyval)%type.

Module NullCollective.

Definition size : Z := 1.
Definition rank : Z := 0.

Definition allReduce (v : pyval) (op : string) : result pyval :=
  if negb (str_in (lower op) ["sum"; "avg"]%string) then
    let err_msg := format "Unknown operation *" "* in NullCollective.allReduce" op in
    inl (NotImplementedError err_msg)
  else inr v.

Definition bcast (v : pyval) (root : Z) : pyval := v.

End NullCollective.

Module MultipleSamePartitioningPDEsCollective.

Record t : Type := mk { comm : Comm; is_serial_check : bool }.

Definition size (self : t) : Z := Get_size (comm self).
Definition rank (self : t) : Z := Get_rank (comm self).

(** [for i in range(v.nvec()): call(v[i])], the results dropped, an
    exception passed on; then [return v]. *)
Definition next_entry (k : heap -> prog outcome) (o : outcome) : prog outcome :=
  match snd o with
  | inl e => Ret (fst o, inl e)
  | inr _ => k (fst o)
  end.

Fixpoint allReduce (self : t) (v : pyval) (op : string) (h : heap) {struct v}
  : prog outcome :=
  let op := lower op in
  let err_msg :=
    format "Unknown operation *" "* in MultipleSerialPDEsCollective.allReduce" op in
  match v with
  | VFloat x =>
      let send := [x] in
      AllreduceDouble send (fun receive =>
        if String.eqb op "sum" then
          Ret (h, inr (VFloat (nth 0 receive 0%float)))
        else if String.eqb op "avg" then
          Ret (h, inr (VFloat (nth 0 receive 0%float / float_of_Z (size self))%float))
        else Ret (h, inl (NotImplementedError err_msg)))
  | VInt z =>
      match to_int32 z with
      | inl e => Ret (h, inl e)
      | inr z32 =>
          let send := [z32] in
          AllreduceInt send (fun receive =>
            if String.eqb op "sum" then
              Ret (h, inr (VInt (nth 0 receive 0)))
            else if String.eqb op "avg" then
              Ret (h, inr (VInt (nth 0 receive 0 / size self)))
            else Ret (h, inl (NotImplementedError err_msg)))
      end
  | VArray a =>
      AllreduceDouble (get_array h a) (fun receive =>
        if String.eqb op "sum" then
          (* v[:] = receive *)
          Ret (set_array h a receive, inr v)
        else if String.eqb op "avg" then
          (* v[:] == (1./float(self.size()))*receive : a comparison,
             whose value is dropped *)
          let _ := zip_with PrimFloat.eqb (get_array h a)
                     (map (PrimFloat.mul (1 / float_of_Z (size self))%float) receive) in
          Ret (h, inr v)
        else Ret (h, inl (NotImplementedError err_msg)))
  | VVector a =>
      let x := get_vector h a in
      if (is_serial_check self && negb (Z.eqb (owner_size x) 1))%bool then
        Ret (h, inl AssertionError)
      else
        let send := local x in
        AllreduceDouble send (fun receive =>
          let scaled :=
            if String.eqb op "sum" then inr receive
            else if String.eqb op "avg" then
              inr (map (fun r => (r * (1 / float_of_Z (size self)))%float) receive)
            else inl (NotImplementedError err_msg) in
          match scaled with
          | inl e => Ret (h, inl e)
          | inr receive =>
              match set_local x receive with
              | inl e => Ret (h, inl e)
              | inr x' => Ret (put_vector h a (apply x'), inr v)
              end
          end)
  | VMulti entries =>
      (fix loop (es : list pyval) (h : heap) {struct es} : prog outcome :=
         match es with
         | [] => Ret (h, inr v)
         | e :: es' => bind (allReduce self e op h) (next_entry (loop es'))
         end) entries h
  | VOther type_name =>
      match load_global collective_globals "is_serial_check" with
      | inl e => Ret (h, inl e)
      | inr true =>
          Ret (h, inl (NotImplementedError
            (format "MultipleSerialPDEsCollective.allReduce not implement for v of type "
                    "" (format "<class '" "'>" type_name))))
      | inr false =>
          Ret (h, inl (NotImplementedError
            (format "MultipleSamePartitioningPDEsCollective.allReduce not implement for v of type "
                    "" (format "<class '" "'>" type_name))))
      end
  end.

(** [pickle.load] of what [comm.bcast] received: a scalar is a value, an
    array is a newly built object. *)
Definition unpickle (h : heap) (w : wire) : outcome :=
  match w with
  | WFloat x => (h, inr (VFloat x))
  | WInt z => (h, inr (VInt z))
  | WArray xs =>
      let a := fresh (dom (arrays h)) in
      (set_array h a xs, inr (VArray a))
  end.

Fixpoint bcast (self : t) (v : pyval) (root : Z) (h : heap) {struct v}
  : prog outcome :=
  match v with
  | VFloat x =>
      comm_bcast (comm self) (WFloat x) root (fun e => Ret (h, inl e))
        (fun w => Ret (unpickle h w))
  | VInt z =>
      comm_bcast (comm self) (WInt z) root (fun e => Ret (h, inl e))
        (fun w => Ret (unpickle h w))
  | VArray a =>
      comm_bcast (comm self) (WArray (get_array h a)) root (fun e => Ret (h, inl e))
        (fun w => Ret (unpickle h w))
  | VVector a =>
      let x := get_vector h a in
      if (is_serial_check self && negb (Z.eqb (owner_size x) 1))%bool then
        Ret (h, inl AssertionError)
      else
        let v_local := local x in
        comm_bcast (comm self) (WArray v_local) root (fun e => Ret (h, inl e)) (fun w =>
          match w with
          | WArray v_local =>
              match set_local x v_local with
              | inl e => Ret (h, inl e)
              | inr x' => Ret (put_vector h a (apply x'), inr v)
              end
          | _ => Ret (h, inl (TypeError "set_local: expected an array"))
          end)
  | VMulti entries =>
      (fix loop (es : list pyval) (h : heap) {struct es} : prog outcome :=
         match es with
         | [] => Ret (h, inr v)
         | e :: es' => bind (bcast self e root h) (next_entry (loop es'))
         end) entries h
  | VOther type_name =>
      match load_global collective_globals "is_serial_check" with
      | inl e => Ret (h, inl e)
      | inr true =>
          Ret (h, inl (NotImplementedError
            (format "MultipleSerialPDEsCollective.bcast not implement for v of type "
                    "" (format "<class '" "'>" type_name))))
      | inr false =>
          Ret (h, inl (NotImplementedError
            (format "MultipleSamePartitioningPDEsCollective.bcast not implement for v of type "
                    "" (format "<class '" "'>" type_name))))
      end
  end.

End MultipleSamePartitioningPDEsCollective.

Definition MultipleSerialPDEsCollective (comm : Comm)
  : MultipleSamePartitioningPDEsCollective.t :=
  MultipleSamePartitioningPDEsCollective.mk comm true.

Module Grid := MultipleSamePartitioningPDEsCollective.

(** A collective group of [n] processes, ranks [0 .. n-1]: each process
    holds a heap and a payload and calls the method on its own handle. *)
Definition group_allReduce `{T : Transport} (is_serial_check : bool) (op : string)
  (ps : list (heap * pyval)) : list (option outcome) :=
  launch (world (length ps))
    (map (fun p c => Grid.allReduce (Grid.mk c is_serial_check) (snd p) op (fst p)) ps).

Definition group_bcast `{T : Transport} (is_serial_check : bool) (root : Z)
  (ps : list (heap * pyval)) : list (option outcome) :=
  launch (world (length ps))
    (map (fun p c => Grid.bcast (Grid.mk c is_serial_check) (snd p) root (fst p)) ps).

Definition empty_heap : heap := mkHeap ∅ ∅.

(** ** comm_utils.py: the consistency checker *)

(** The values a program can return, over every answer its collective
    calls may be given. *)
Inductive may_return {A : Type} : prog A -> A -> Prop :=
| may_ret (a : A) : may_return (Ret a) a
| may_call e k r a : may_return (k r) a -> may_return (Call e k) a.

(** The names bound at module level in [comm_utils.py]. *)
Definition comm_utils_globals : list string :=
  ["dl"; "np"; "assert_allclose"; "MPI"; "splitCommunicators";
   "checkFunctionSpaceConsistentPartitioning"; "checkMeshConsistentPartitioning"]%string.

(** The objects a caller has at hand to pass as [collective]: one of the
    two collectives of [collective.py], or a bare communicator. *)
Inductive collective_obj : Type :=
| ONull
| OGrid (self : Grid.t)
| OComm (c : Comm).

(** What reading an attribute gives: a bound method or an integer. *)
Inductive attribute : Type :=
| BoundMethod (name : string)
| IntAttr (z : Z).

(** [collective.rank]: [rank] is a method of both collectives and an
    integer property of a communicator. *)
Definition getattr_rank (collective : collective_obj) : attribute :=
  match collective with
  | ONull | OGrid _ => BoundMethod "rank"
  | OComm c => IntAttr (Get_rank c)
  end.

(** [float(x)] *)
Definition py_float (x : attribute) : result float :=
  match x with
  | IntAttr z => inr (float_of_Z z)
  | BoundMethod _ =>
      inl (TypeError "float() argument must be a string or a number, not 'method'")
  end.

(** [x == 0] *)
Definition eq_zero (x : attribute) : bool :=
  match x with
  | IntAttr z => Z.eqb z 0
  | BoundMethod _ => false
  end.

(** The reduction and broadcast methods of an [mpi4py] communicator. *)
Definition mpi4py_comm_attrs : list string :=
  ["Allreduce"; "allreduce"; "Reduce"; "reduce"; "Bcast"; "bcast"; "Allgather";
   "allgather"; "Gather"; "gather"; "Scatter"; "scatter"; "Barrier"; "barrier";
   "Split"; "Get_rank"; "Get_size"; "rank"; "size"]%string.

Section ConsistencyChecker.

(** dolfin, as far as the checker uses it: function spaces and
    functions, [dl.interpolate(dl.Constant(c), Vh)], the broadcast of
    [root_v.vector()] through [collective.bcast], and the norm of
    [v - root_v]. The attributes of [dl.MPI.comm_world], and what a call
    of its [allReduce] does when there is one, are left open too. *)
Variables Mesh FunctionSpace Function : Type.
Variable FunctionSpace_ : Mesh -> string -> Z -> FunctionSpace.
Variable interpolate_Constant : float -> FunctionSpace -> Function.
Variable collective_bcast : collective_obj -> Function -> Z -> prog (result Function).
Variable diff_norm_l2 : Function -> Function -> result float.
Variable comm_world_attrs : list string.
Variable comm_world_allReduce : bool -> bool -> prog (result unit).

Definition checkFunctionSpaceConsistentPartitioning
  (Vh : FunctionSpace) (collective : collective_obj) : prog (result bool) :=
  match py_float (getattr_rank collective) with
  | inl e => Ret (inl e)
  | inr r =>
  let v := interpolate_Constant r Vh in
  let root_v :=
    if eq_zero (getattr_rank collective) then
      match load_global comm_utils_globals "mesh" with
      | inl e => inl e
      | inr _ => inl (AttributeError "comm")
      end
    else inr (interpolate_Constant 0%float Vh) in
  match root_v with
  | inl e => Ret (inl e)
  | inr root_v =>
  bind (collective_bcast collective root_v 0) (fun sent =>
  match sent with
  | inl e => Ret (inl e)
  | inr root_v =>
  match diff_norm_l2 v root_v with
  | inl e => Ret (inl e)
  | inr norm =>
  let tests_passed_here := PrimFloat.ltb norm 1e-10%float in
  let tests_passed_everywhere := false in
  if negb (str_in "allReduce" comm_world_attrs) then
    Ret (inl (AttributeError "allReduce"))
  else
    bind (comm_world_allReduce tests_passed_here tests_passed_everywhere) (fun called =>
    match called with
    | inl e => Ret (inl e)
    | inr _ => Ret (inr tests_passed_everywhere)
    end)
  end end) end end.

Definition checkMeshConsistentPartitioning
  (mesh : Mesh) (collective : collective_obj) : prog (result bool) :=
  bind (checkFunctionSpaceConsistentPartitioning (FunctionSpace_ mesh "DG" 0) collective)
    (fun t1 =>
  match t1 with
  | inl e => Ret (inl e)
  | inr t1 =>
  bind (checkFunctionSpaceConsistentPartitioning (FunctionSpace_ mesh "CG" 1) collective)
    (fun t2 =>
  match t2 with
  | inl e => Ret (inl e)
  | inr t2 => Ret (inr (t1 && t2)%bool)
  end) end).

End ConsistencyChecker.

(** ** Reference values *)

(** The exact sum of integers. *)
Definition Zsum (zs : list Z) : Z := fold_right Z.add 0 zs.

(** The binary64 sum of the values [xs] of ranks 0, 1, ..., as the
    transport adds one-element buffers. *)
Definition real_sum `{T : Transport} (xs : list float) : float :=
  plan_sum (sum_order (length xs) 1 0) xs.

(** The elementwise binary64 sum of the buffers of ranks 0, 1, ..., added
    one after the other. *)
Definition vsum (b0 : list float) (bs : list (list float)) : list float :=
  fold_left vadd bs b0.

Definition int_payloads (ps : list (heap * Z)) : list (heap * pyval) :=
  map (fun p => (fst p, VInt (snd p))) ps.

Definition float_payloads (ps : list (heap * float)) : list (heap * pyval) :=
  map (fun p => (fst p, VFloat (snd p))) ps.

Definition in_int32 (z : Z) : Prop := - 2 ^ 31 <= z < 2 ^ 31.
Definition in_c_long (z : Z) : Prop := - 2 ^ 63 <= z < 2 ^ 63.

Definition array_payloads (ps : list (heap * positive)) : list (heap * pyval) :=
  map (fun p => (fst p, VArray (snd p))) ps.

Definition vector_payloads (ps : list (heap * positive)) : list (heap * pyval) :=
  map (fun p => (fst p, VVector (snd p))) ps.

(** The buffer a process passes for an array payload, and the local
    segment it passes for a vector payload. *)
Definition buffer_of (p : heap * positive) : list float := get_array (fst p) (snd p).
Definition segment_of (p : heap * positive) : list float :=
  local (get_vector (fst p) (snd p)).

(** The serial check lets the vector of [p] through. *)
Definition passes_serial_check (is_serial_check : bool) (p : heap * positive) : Prop :=
  is_serial_check = false \/ owner_size (get_vector (fst p) (snd p)) = 1.

(** The reduced segment: the elementwise sum the transport gives,
    multiplied by [1/N] under "avg". *)
Definition reduced_segment `{T : Transport} (op : string) (N : Z)
  (b0 : list float) (bs : list (list float)) : list float :=
  if String.eqb (lower op) "sum" then summed (b0 :: bs)
  else map (fun r => (r * (1 / float_of_Z N))%float) (summed (b0 :: bs)).

(** The vector of [p] after the reduction wrote [values] into it and
    synchronised it. *)
Definition written_back (p : heap * positive) (values : list float) : heap :=
  let x := get_vector (fst p) (snd p) in
  put_vector (fst p) (snd p) (mkVector values (owner_size x) (S (applied x))).

(** The loop of the multi-vector branch of [allReduce], on its own: the
    entries [es] still to do of the container [v]. *)
Definition allReduce_entries (self : Grid.t) (op : string) (v : pyval)
  : list pyval -> heap -> prog outcome :=
  fix loop (es : list pyval) (h : heap) {struct es} : prog outcome :=
    match es with
    | [] => Ret (h, inr v)
    | e :: es' => bind (Grid.allReduce self e op h) (Grid.next_entry (loop es'))
    end.



(** The scalar and dense buffer payloads, and what [comm.bcast] pickles
    for each. *)
Definition scalar_or_buffer (v : pyval) : Prop :=
  match v with
  | VFloat _ | VInt _ | VArray _ => True
  | _ => False
  end.

Definition pickle (p : heap * pyval) : wire :=
  match snd p with
  | VFloat x => WFloat x
  | VInt z => WInt z
  | VArray a => WArray (get_array (fst p) a)
  | _ => WArray []
  end.

(** The heap [h'] holds every array and vector of [h], unchanged. *)
Definition extends (h h' : heap) : Prop :=
  vectors h' = vectors h
  /\ forall a xs, arrays h !! a = Some xs -> arrays h' !! a = Some xs.

(** The value [r] in the heap [h'] is the pickled value [w], and when it
    is an array it is an object that [h] did not have. *)
Definition holds_value (h h' : heap) (r : result pyval) (w : wire) : Prop :=
  match w with
  | WFloat x => r = inr (VFloat x)
  | WInt z => r = inr (VInt z)
  | WArray xs =>
      exists a, r = inr (VArray a) /\ arrays h !! a = None /\ get_array h' a = xs
  end.

(** Multi-vectors of vectors: a process holds a heap and, in order, the
    locations of the entries of its multi-vector. *)
Definition multi_payloads (ps : list (heap * list positive)) : list (heap * pyval) :=
  map (fun p => (fst p, VMulti (map VVector (snd p)))) ps.

(** Entry [j] of every process of the group. *)
Definition column (j : nat) (ps : list (heap * list positive)) : list (heap * positive) :=
  map (fun p => (fst p, nth j (snd p) 1%positive)) ps.

(** The segments of the group have one length. *)
Definition aligned (qs : list (heap * positive)) : Prop :=
  match qs with
  | [] => True
  | q0 :: qs' => Forall (fun q => length (segment_of q) = length (segment_of q0)) qs'
  end.

(** What the reduction of the vectors [qs] alone writes into each. *)
Definition reduced_values `{T : Transport} (op : string) (qs : list (heap * positive)) : list float :=
  match qs with
  | [] => []
  | q0 :: qs' =>
      reduced_segment op (Z.of_nat (length qs)) (segment_of q0) (map segment_of qs')
  end.

(** What the reduction of entry [j] alone writes, from the heaps the
    processes hold before the call. *)
Definition entry_values `{T : Transport} (op : string) (ps : list (heap * list positive)) (j : nat)
  : list float :=
  reduced_values op (column j ps).

(** The heap after the entries at [locs] have been written, in order. *)
Definition write_entries (h : heap) (locs : list positive) (vals : list (list float))
  : heap :=
  fold_left (fun h av => written_back (h, fst av) (snd av)) (zip locs vals) h.

(** The entries of the group can be reduced one after the other: every
    process has [m] entries, all different objects, every one passes the
    serial check, and entry [j] has one length over the group. *)
Definition reducible (is_serial_check : bool) (m : nat)
  (ps : list (heap * list positive)) : Prop :=
  Forall (fun p => length (snd p) = m /\ NoDup (snd p)) ps
  /\ forall j, (j < m)%nat ->
       Forall (passes_serial_check is_serial_check) (column j ps)
       /\ aligned (column j ps).

(** The vector a process of the group passes. *)
Definition vec_of (q : heap * positive) : Vector := get_vector (fst q) (snd q).

(** The loop of the multi-vector branch as a process of the group runs
    it: [x] is the container and, after it, the heap and the locations of
    the entries still to do. *)
Definition entries_body (is_serial_check : bool) (op : string)
  (x : pyval * (heap * list positive)) (c : Comm) : prog outcome :=
  allReduce_entries (Grid.mk c is_serial_check) (lower op) (fst x)
    (map VVector (snd (snd x))) (fst (snd x)).

(** The state of a process once entry 0 has been reduced to [values]. *)
Definition after_entry (values : list float) (x : pyval * (heap * list positive))
  : pyval * (heap * list positive) :=
  (fst x, (written_back (fst (snd x), nth 0 (snd (snd x)) 1%positive) values,
           tl (snd (snd x)))).



(** ** The objects of a payload *)

(** The arrays and the vectors a payload is, or holds as entries. *)
Fixpoint array_locs (v : pyval) {struct v} : list positive :=
  match v with
  | VArray a => [a]
  | VMulti entries =>
      (fix go (es : list pyval) : list positive :=
         match es with
         | [] => []
         | e :: es' => array_locs e ++ go es'
         end) entries
  | _ => []
  end.

Fixpoint vector_locs (v : pyval) {struct v} : list positive :=
  match v with
  | VVector a => [a]
  | VMulti entries =>
      (fix go (es : list pyval) : list positive :=
         match es with
         | [] => []
         | e :: es' => vector_locs e ++ go es'
         end) entries
  | _ => []
  end.

(** A payload that is an object: everything but a Python scalar. *)
Definition is_object (v : pyval) : Prop :=
  match v with
  | VFloat _ | VInt _ => False
  | _ => True
  end.

(** The loop of the multi-vector branch of [bcast], on its own: the
    entries [es] still to do of the container [v]. *)
Definition bcast_entries (self : Grid.t) (root : Z) (v : pyval)
  : list pyval -> heap -> prog outcome :=
  fix loop (es : list pyval) (h : heap) {struct es} : prog outcome :=
    match es with
    | [] => Ret (h, inr v)
    | e :: es' => bind (Grid.bcast self e root h) (Grid.next_entry (loop es'))
    end.

(** The heap [h'] differs from [h] at most in the arrays [la] and the
    vectors [lv]. *)
Definition same_but (la lv : list positive) (h h' : heap) : Prop :=
  (forall a, ~ In a la -> arrays h' !! a = arrays h !! a)
  /\ (forall a, ~ In a lv -> vectors h' !! a = vectors h !! a).

(** The payloads [bcast] fills in place: a vector, and a multi-vector. *)
Definition filled_in_place (v : pyval) : Prop :=
  match v with
  | VVector _ | VMulti _ => True
  | _ => False
  end.

(** The heap [h'] holds every array of [h], unchanged, and differs from
    [h] in no vector but those of [lv]. *)
Definition keeps_but (lv : list positive) (h h' : heap) : Prop :=
  (forall a xs, arrays h !! a = Some xs -> arrays h' !! a = Some xs)
  /\ (forall a, ~ In a lv -> vectors h' !! a = vectors h !! a).

(** What the serial check leaves of a group of vectors when it fails
    somewhere: the processes whose vector is not serial stop at the
    assertion, the others make a collective call that their peers never
    join and get no result. *)
Definition stopped_by_serial_check (ps : list (heap * positive))
  : list (option outcome) :=
  map (fun p =>
         if Z.eqb (owner_size (vec_of p)) 1 then None
         else Some (fst p, inl AssertionError)) ps.

(** The segment the process of rank [root] passes, in a group of
    vectors. *)
Definition root_segment (root : Z) (qs : list (heap * positive)) : list float :=
  match qs !! Z.to_nat root with
  | Some q => segment_of q
  | None => []
  end.

(** What the broadcast of entry [j] alone writes, from the heaps the
    processes hold before the call. *)
Definition root_entry (root : Z) (ps : list (heap * list positive)) (j : nat)
  : list float :=
  root_segment root (column j ps).

(** The entries of the group can be filled one after the other: every
    process has [m] entries, all different objects, every one passes the
    serial check, and entry [j] has everywhere the length it has at the
    root. *)
Definition fillable (is_serial_check : bool) (root : Z) (m : nat)
  (ps : list (heap * list positive)) : Prop :=
  Forall (fun p => length (snd p) = m /\ NoDup (snd p)) ps
  /\ forall j, (j < m)%nat ->
       Forall (passes_serial_check is_serial_check) (column j ps)
       /\ Forall (fun q => length (segment_of q) = length (root_entry root ps j))
                 (column j ps).

(** The loop of the multi-vector branch of [bcast] as a process of the
    group runs it: [x] is the container and, after it, the heap and the
    locations of the entries still to do. *)
Definition bcast_entries_body (is_serial_check : bool) (root : Z)
  (x : pyval * (heap * list positive)) (c : Comm) : prog outcome :=
  bcast_entries (Grid.mk c is_serial_check) root (fst x)
    (map VVector (snd (snd x))) (fst (snd x)).

(** Every vector of [h'] has the local size and the communicator it has
    in [h], and has been synchronised at least as often. *)
Definition same_shape (h h' : heap) : Prop :=
  forall a,
    length (local (get_vector h' a)) = length (local (get_vector h a))
    /\ owner_size (get_vector h' a) = owner_size (get_vector h a)
    /\ (applied (get_vector h a) <= applied (get_vector h' a))%nat.

(** A payload that is not a container. *)
Definition is_leaf (v : pyval) : Prop :=
  match v with
  | VMulti _ => False
  | _ => True
  end.

(** ** Binary64 numbers *)

(** The binary64 number of value [m * 2^e], for a positive [m] of at
    most 53 bits: the mantissa is shifted up to 53 bits. *)
Definition canon (m e : Z) : spec_float :=
  let d := Zdigits2 m in
  S754_finite false (Z.to_pos (m * 2 ^ (53 - d))) (e - (53 - d)).

(** * Properties *)

(** ** Running groups whose processes sit at the same call *)

Lemma forallb_map' {X Y : Type} (f : Y -> bool) (g : X -> Y) (l : list X) :
  forallb f (map g l) = forallb (fun x => f (g x)) l.
Proof. induction l as [|x l IH]; simpl; [reflexivity | rewrite IH; reflexivity]. Qed.

Lemma zip_with_const_r {X Y R W : Type} (f : X -> R -> Y) (c : R) (l : list X) :
  forall l2 : list W, length l2 = length l ->
  zip_with f l (map (fun _ => c) l2) = map (fun x => f x c) l.
Proof.
  induction l as [|x l IH]; intros [|y l2] Hlen; simpl in *; try discriminate; auto.
  f_equal. apply IH. lia.
Qed.

Lemma respond_length `{T : Transport} (e0 : event) (es : list event) (rs : list response) :
  respond e0 es = Some rs -> length rs = S (length es).
Proof.
  unfold respond. intros H.
  destruct e0.
  - destruct (mapM double_send es); [|discriminate].
    destruct (Allreduce_SUM_DOUBLE _ _); [|discriminate].
    injection H as <-. simpl. rewrite List.length_map. reflexivity.
  - destruct (mapM int_send es); [|discriminate].
    destruct (Allreduce_SUM_INT _ _); [|discriminate].
    injection H as <-. simpl. rewrite List.length_map. reflexivity.
  - destruct (mapM bcast_args es); [|discriminate].
    destruct (_ && _)%bool; [|discriminate].
    destruct (_ !! _); [|discriminate].
    injection H as <-. simpl. rewrite List.length_map. reflexivity.
  - destruct (mapM split_args es) as [cks|] eqn:E; [|discriminate].
    cbv zeta in H. destruct (forallb _ _); [|discriminate].
    injection H as <-. simpl. rewrite List.length_map.
    apply length_mapM in E. congruence.
Qed.

Section RunGroup.
Context `{T : Transport}.
Context {X A : Type}.
Implicit Types l : list X.

Lemma mapM_at_call (e : X -> event) (k : X -> response -> prog A) l :
  mapM at_call (map (fun x => Call (e x) (k x)) l)
  = Some (map (fun x => (e x, k x)) l).
Proof.
  induction l as [|x l IH]; [reflexivity|].
  simpl in IH |- *. rewrite IH. reflexivity.
Qed.

Lemma run_group_ret (f : X -> A) l :
  run_group (map (fun x => Ret (f x)) l) = map (fun x => Some (f x)) l.
Proof.
  destruct l as [|x l]; [reflexivity|].
  cbn [map run_group run]. f_equal. rewrite map_map. reflexivity.
Qed.

Lemma run_group_call (e : X -> event) (k : X -> response -> prog A) l :
  run_group (map (fun x => Call (e x) (k x)) l)
  = match l with
    | [] => []
    | x0 :: l' =>
        match respond (e x0) (map e l') with
        | Some rs => run_group (zip_with (fun x r => k x r) l rs)
        | None => map (fun _ => None) l
        end
    end.
Proof.
  destruct l as [|x0 l]; [reflexivity|].
  cbn [map run_group run]. rewrite mapM_at_call, !map_map. cbn [fst].
  destruct (respond (e x0) (map e l)) as [rs|] eqn:E.
  - pose proof (respond_length _ _ _ E) as Hlen.
    destruct rs as [|r0 rs]; [discriminate|].
    cbn [zip_with]. f_equal.
    rewrite zip_with_fmap_l. reflexivity.
  - reflexivity.
Qed.

Lemma mapM_double_send (s : X -> list float) l :
  mapM double_send (map (fun x => EAllreduceDouble (s x)) l) = Some (map s l).
Proof.
  induction l as [|x l IH]; [reflexivity|].
  simpl in IH |- *. rewrite IH. reflexivity.
Qed.

Lemma mapM_int_send (s : X -> list Z) l :
  mapM int_send (map (fun x => EAllreduceInt (s x)) l) = Some (map s l).
Proof.
  induction l as [|x l IH]; [reflexivity|].
  simpl in IH |- *. rewrite IH. reflexivity.
Qed.

Lemma mapM_bcast_args (o : X -> wire) (root : X -> Z) l :
  mapM bcast_args (map (fun x => EBcast (o x) (root x)) l)
  = Some (map (fun x => (o x, root x)) l).
Proof.
  induction l as [|x l IH]; [reflexivity|].
  simpl in IH |- *. rewrite IH. reflexivity.
Qed.

Lemma mapM_split_args (c : X -> Comm) (co ke : X -> Z) l :
  mapM split_args (map (fun x => ESplit (c x) (co x) (ke x)) l)
  = Some (map (fun x => (me (c x), co x, ke x)) l).
Proof.
  induction l as [|x l IH]; [reflexivity|].
  simpl in IH |- *. rewrite IH. reflexivity.
Qed.

(** Every process sits at an [Allreduce] over doubles. *)
Lemma run_group_allreduce_double (s : X -> list float)
  (k : X -> list float -> prog A) x0 l :
  run_group (map (fun x => AllreduceDouble (s x) (k x)) (x0 :: l))
  = match Allreduce_SUM_DOUBLE (s x0) (map s l) with
    | Some r => run_group (map (fun x => k x r) (x0 :: l))
    | None => map (fun _ => None) (x0 :: l)
    end.
Proof.
  unfold AllreduceDouble. rewrite run_group_call.
  cbn [respond]. rewrite mapM_double_send.
  destruct (Allreduce_SUM_DOUBLE _ _) as [r|]; [|reflexivity].
  f_equal. erewrite zip_with_const_r; [reflexivity|].
  simpl. rewrite !List.length_map. reflexivity.
Qed.

(** Every process sits at an [Allreduce] over 32-bit integers. *)
Lemma run_group_allreduce_int (s : X -> list Z)
  (k : X -> list Z -> prog A) x0 l :
  run_group (map (fun x => AllreduceInt (s x) (k x)) (x0 :: l))
  = match Allreduce_SUM_INT (s x0) (map s l) with
    | Some r => run_group (map (fun x => k x r) (x0 :: l))
    | None => map (fun _ => None) (x0 :: l)
    end.
Proof.
  unfold AllreduceInt. rewrite run_group_call.
  cbn [respond]. rewrite mapM_int_send.
  destruct (Allreduce_SUM_INT _ _) as [r|]; [|reflexivity].
  f_equal. erewrite zip_with_const_r; [reflexivity|].
  simpl. rewrite !List.length_map. reflexivity.
Qed.

(** Every process sits at a [bcast] with the same root, a rank of the
    group. *)
Lemma run_group_bcast (o : X -> wire) (root : Z) (k : X -> wire -> prog A) x0 l w :
  0 <= root ->
  map o (x0 :: l) !! Z.to_nat root = Some w ->
  run_group (map (fun x => Bcast (o x) root (k x)) (x0 :: l))
  = run_group (map (fun x => k x w) (x0 :: l)).
Proof.
  intros Hroot Hw. unfold Bcast. rewrite run_group_call.
  cbn [respond]. rewrite mapM_bcast_args.
  rewrite forallb_map'. cbn [snd].
  replace (forallb (fun _ : X => Z.eqb root root) l) with true
    by (symmetry; apply forallb_forall; intros; apply Z.eqb_refl).
  replace (Z.leb 0 root) with true by (symmetry; apply Z.leb_le; exact Hroot).
  cbn [andb]. rewrite map_map. cbn [fst].
  assert (Hw' : (o x0 :: map (fun x => o x) l) !! Z.to_nat root = Some w) by exact Hw.
  rewrite Hw'.
  f_equal. erewrite zip_with_const_r; [reflexivity|].
  simpl. rewrite !List.length_map. reflexivity.
Qed.

(** Every process sits at a [Split] of the same communicator, with a
    color that is not negative. *)
Lemma run_group_split (c : X -> Comm) (co ke : X -> Z) (k : X -> Comm -> prog A) l :
  forallb (fun x => Z.leb 0 (co x)) l = true ->
  run_group (map (fun x => Split (c x) (co x) (ke x) (k x)) l)
  = run_group
      (map (fun x => k x (mkComm
                            (split_members (map (fun y => (me (c y), co y, ke y)) l) (co x))
                            (me (c x)))) l).
Proof.
  destruct l as [|x0 l]; [reflexivity|].
  intros Hco. unfold Split. rewrite run_group_call.
  cbn [respond]. rewrite mapM_split_args.
  change ((me (c x0), co x0, ke x0) :: map (fun x => (me (c x), co x, ke x)) l)
    with (map (fun x => (me (c x), co x, ke x)) (x0 :: l)).
  rewrite forallb_map'. cbn [fst snd]. rewrite Hco.
  f_equal. rewrite zip_with_fmap_r.
  generalize (split_members (map (fun x => (me (c x), co x, ke x)) (x0 :: l))).
  intros g. generalize (x0 :: l). intros l0.
  induction l0 as [|y l0 IH]; [reflexivity|]. simpl. f_equal. exact IH.
Qed.
End RunGroup.

Lemma launch_map `{T : Transport} {X A : Type} (ms : list Z) (g : X -> Comm -> prog A) (xs : list X) :
  launch ms (map g xs)
  = run_group (map (fun mx => g (snd mx) (mkComm ms (fst mx))) (zip ms xs)).
Proof.
  unfold launch. f_equal.
  generalize (mkComm ms). intros mk0. revert xs.
  induction ms as [|m ms' IH]; intros [|x xs]; simpl; try reflexivity.
  f_equal. apply IH.
Qed.

(** ** splitCommunicators *)

Lemma length_world (n : nat) : length (world n) = n.
Proof. unfold world. rewrite List.length_map, length_seq. reflexivity. Qed.

Lemma in_world (n : nat) (r : Z) : In r (world n) <-> 0 <= r < Z.of_nat n.
Proof.
  unfold world. rewrite in_map_iff. split.
  - intros [i [<- Hi]]. apply in_seq in Hi. lia.
  - intros Hr. exists (Z.to_nat r). split; [lia|]. apply in_seq. lia.
Qed.

Lemma NoDup_world (n : nat) : NoDup (world n).
Proof.
  unfold world. apply NoDup_fmap_2; [intros x y; lia|]. apply NoDup_seq.
Qed.

Lemma world_lookup (n : nat) (r : Z) :
  0 <= r < Z.of_nat n -> world n !! Z.to_nat r = Some r.
Proof.
  intros Hr. unfold world.
  change (map Z.of_nat (seq 0 n)) with (Z.of_nat <$> seq 0 n).
  rewrite list_lookup_fmap, lookup_seq_lt by lia. simpl. f_equal. lia.
Qed.

Lemma index_of_seq (a n i : nat) :
  (i < n)%nat -> index_of (Z.of_nat (a + i)) (map Z.of_nat (seq a n)) = Z.of_nat i.
Proof.
  revert a i. induction n as [|n IH]; intros a i Hi; [lia|].
  simpl. destruct i as [|i].
  - rewrite Nat.add_0_r, Z.eqb_refl. reflexivity.
  - destruct (Z.eqb_spec (Z.of_nat (a + S i)) (Z.of_nat a)) as [E|_]; [lia|].
    replace (a + S i)%nat with (S a + i)%nat by lia.
    rewrite IH by lia. lia.
Qed.

Lemma Get_rank_world (n : nat) (r : Z) :
  0 <= r < Z.of_nat n -> Get_rank (mkComm (world n) r) = r.
Proof.
  intros Hr. unfold Get_rank, world. simpl.
  replace r with (Z.of_nat (0 + Z.to_nat r)) at 1 by lia.
  rewrite index_of_seq by lia. lia.
Qed.

Lemma Get_size_world (n : nat) (r : Z) : Get_size (mkComm (world n) r) = Z.of_nat n.
Proof. unfold Get_size. simpl. rewrite length_world. reflexivity. Qed.

Lemma zip_diag {X : Type} (l : list X) : zip l l = map (fun x => (x, x)) l.
Proof. induction l as [|x l IH]; simpl; [reflexivity | f_equal; exact IH]. Qed.

Lemma split_world_unfold `{T : Transport} (n : nat) (n_subdomain n_instances : Z) :
  split_world n n_subdomain n_instances
  = run_group (map (fun m => splitCommunicators (mkComm (world n) m)
                                n_subdomain n_instances) (world n)).
Proof.
  unfold split_world. rewrite launch_map, zip_diag, map_map. reflexivity.
Qed.

(** C6: when the size of the flat group is not [n_subdomain *
    n_instances], [splitCommunicators] fails on its assertion (the
    dimension mismatch): the program of the process is the raised
    [AssertionError] and nothing else, so no [Split] call is made and no
    communicator is built; and so does every process of a flat group of
    [n] processes. *)
Theorem splitCommunicators_size_mismatch `{T : Transport}
  (comm_world : Comm) (n : nat) (n_subdomain n_instances : Z) :
  Get_size comm_world <> n_subdomain * n_instances ->
  Z.of_nat n <> n_subdomain * n_instances ->
  splitCommunicators comm_world n_subdomain n_instances = Ret (inl AssertionError)
  /\ (forall e k, splitCommunicators comm_world n_subdomain n_instances <> Call e k)
  /\ split_world n n_subdomain n_instances
     = map (fun _ => Some (inl AssertionError)) (world n).
Proof.
  intros Hsize Hn.
  assert (E : forall c, Get_size c <> n_subdomain * n_instances ->
            splitCommunicators c n_subdomain n_instances = Ret (inl AssertionError)).
  { intros c Hc. unfold splitCommunicators.
    destruct (Z.eqb_spec (Get_size c) (n_subdomain * n_instances)); [contradiction|].
    reflexivity. }
  split; [apply E; exact Hsize|]. split.
  - intros e k. rewrite (E _ Hsize). discriminate.
  - rewrite split_world_unfold.
    rewrite (map_ext _ (fun _ => Ret (inl AssertionError))).
    + apply run_group_ret.
    + intros m. apply E. rewrite Get_size_world. exact Hn.
Qed.

Lemma splitCommunicators_size_mismatch_witness :
  let T := rank_order in
  splitCommunicators (mkComm (world 6) 0) 2 2 = Ret (inl AssertionError)
  /\ (forall e k, splitCommunicators (mkComm (world 6) 0) 2 2 <> Call e k)
  /\ split_world 6 2 2 = map (fun _ => Some (inl AssertionError)) (world 6).
Proof.
  intros T.
  apply (splitCommunicators_size_mismatch (mkComm (world 6) 0) 6 2 2).
  - vm_compute. discriminate.
  - lia.
Defined.

Lemma insert_by_key_perm (x : Z * Z * Z) (l : list (Z * Z * Z)) :
  insert_by_key x l ≡ₚ x :: l.
Proof.
  induction l as [|y l IH]; simpl; [reflexivity|].
  destruct (Z.leb (snd x) (snd y)); [reflexivity|].
  rewrite IH. apply perm_swap.
Qed.

Lemma sort_by_key_perm (l : list (Z * Z * Z)) : sort_by_key l ≡ₚ l.
Proof.
  induction l as [|x l IH]; simpl; [reflexivity|].
  rewrite insert_by_key_perm, IH. reflexivity.
Qed.

(** The group [Split] builds for a color: the processes that passed this
    color, in some order. *)
Lemma split_members_perm (color key : Z -> Z) (l : list Z) (c : Z) :
  split_members (map (fun y => (y, color y, key y)) l) c
  ≡ₚ List.filter (fun y => Z.eqb (color y) c) l.
Proof.
  unfold split_members.
  change (map (fun i : Z * Z * Z => fst (fst i))) with (fmap (M:=list) (fun i : Z * Z * Z => fst (fst i))).
  rewrite sort_by_key_perm.
  induction l as [|y l IH]; simpl; [reflexivity|].
  destruct (Z.eqb (color y) c); simpl; rewrite IH; reflexivity.
Qed.

Lemma in_split_members (color key : Z -> Z) (l : list Z) (c r : Z) :
  In r (split_members (map (fun y => (y, color y, key y)) l) c)
  <-> In r l /\ color r = c.
Proof.
  split.
  - intros H. apply list_elem_of_In in H. rewrite split_members_perm in H.
    apply list_elem_of_In, filter_In in H. rewrite Z.eqb_eq in H. exact H.
  - intros H. apply list_elem_of_In. rewrite split_members_perm.
    apply list_elem_of_In, filter_In. rewrite Z.eqb_eq. exact H.
Qed.

Lemma NoDup_filter_bool {X : Type} (f : X -> bool) (l : list X) :
  NoDup l -> NoDup (List.filter f l).
Proof.
  induction 1 as [|x l Hx Hl IH]; simpl; [constructor|].
  destruct (f x); [|exact IH].
  constructor; [|exact IH].
  rewrite list_elem_of_In, filter_In. rewrite <- list_elem_of_In. tauto.
Qed.

Lemma NoDup_split_members (color key : Z -> Z) (l : list Z) (c : Z) :
  NoDup l -> NoDup (split_members (map (fun y => (y, color y, key y)) l) c).
Proof.
  intros Hl. rewrite split_members_perm. apply NoDup_filter_bool, Hl.
Qed.

(** What every process of a flat group of [n = n_subdomain *
    n_instances] processes gets back. *)
Lemma split_world_ok `{T : Transport} (n : nat) (n_subdomain n_instances : Z) :
  Z.of_nat n = n_subdomain * n_instances -> 0 < n_instances ->
  split_world n n_subdomain n_instances
  = map (fun m => Some (inr
      (mkComm (split_members
                 (map (fun y => (y, color_of n_instances y, key_of n_instances y)) (world n))
                 (color_of n_instances m)) m,
       mkComm (split_members
                 (map (fun y => (y, key_of n_instances y, color_of n_instances y)) (world n))
                 (key_of n_instances m)) m)))
        (world n).
Proof.
  intros Hn Hpos. rewrite split_world_unfold.
  assert (E : map (fun m => splitCommunicators (mkComm (world n) m)
                              n_subdomain n_instances) (world n)
            = map (fun m =>
                Split (mkComm (world n) m) (color_of n_instances m) (key_of n_instances m)
                  (fun mesh_constructor_comm =>
                Split (mkComm (world n) m) (key_of n_instances m) (color_of n_instances m)
                  (fun collective_comm =>
                Ret (inr (mesh_constructor_comm, collective_comm))))) (world n)).
  { apply map_ext_in. intros m Hm. apply in_world in Hm. unfold splitCommunicators.
    rewrite Get_size_world, Get_rank_world by exact Hm.
    destruct (Z.eqb_spec (Z.of_nat n) (n_subdomain * n_instances)); [|contradiction].
    destruct (Z.eqb_spec n_instances 0); [lia|].
    reflexivity. }
  rewrite E. clear E.
  rewrite run_group_split.
  2:{ apply forallb_forall. intros m Hm. apply in_world in Hm.
      apply Z.leb_le. unfold color_of. apply Z.div_pos; lia. }
  cbn [me].
  etrans.
  { apply (run_group_split (fun m => mkComm (world n) m)
             (key_of n_instances) (color_of n_instances)).
    apply forallb_forall. intros m Hm. apply in_world in Hm.
    apply Z.leb_le. unfold key_of. apply Z.mod_pos_bound. lia. }
  cbn [me]. apply run_group_ret.
Qed.

(** The members of the two communicators a process gets back. *)
Lemma split_world_members `{T : Transport} (n : nat) (n_subdomain n_instances : Z)
  (i : nat) (mesh coll : Comm) :
  Z.of_nat n = n_subdomain * n_instances -> 0 < n_instances ->
  split_world n n_subdomain n_instances !! i = Some (Some (inr (mesh, coll))) ->
  me mesh = Z.of_nat i /\ me coll = Z.of_nat i
  /\ (forall r', In r' (members mesh)
                 <-> 0 <= r' < Z.of_nat n
                     /\ color_of n_instances r' = color_of n_instances (Z.of_nat i))
  /\ (forall r', In r' (members coll)
                 <-> 0 <= r' < Z.of_nat n
                     /\ key_of n_instances r' = key_of n_instances (Z.of_nat i)).
Proof.
  intros Hn Hpos H. rewrite split_world_ok in H by assumption.
  change (map ?f ?l) with (f <$> l) in H at 1. rewrite list_lookup_fmap in H.
  destruct (Nat.lt_ge_cases i n) as [Hi|Hi].
  - rewrite <- (Nat2Z.id i) in H at 1. rewrite world_lookup in H by lia.
    cbn [fmap option_fmap option_map] in H. injection H as <- <-. cbn [me members].
    split; [reflexivity|]. split; [reflexivity|].
    split; intros r'; rewrite in_split_members, in_world; reflexivity.
  - rewrite (proj2 (lookup_ge_None (world n) i)) in H by (rewrite length_world; exact Hi).
    discriminate.
Qed.

(** *** The sizes of the groups

    What dividing the rank by [n_instances] gives: the ranks of one color
    are [n_instances] consecutive ranks, and the ranks of one key are
    [n_subdomain] ranks, [n_instances] apart. *)

Lemma filter_none {X : Type} (f : X -> bool) (l : list X) :
  (forall x, In x l -> f x = false) -> List.filter f l = [].
Proof.
  induction l as [|x l IH]; intros H; simpl; [reflexivity|].
  rewrite (H x) by (left; reflexivity). apply IH. intros y Hy. apply H. right. exact Hy.
Qed.

Lemma filter_all {X : Type} (f : X -> bool) (l : list X) :
  (forall x, In x l -> f x = true) -> List.filter f l = l.
Proof.
  induction l as [|x l IH]; intros H; simpl; [reflexivity|].
  rewrite (H x) by (left; reflexivity). f_equal. apply IH. intros y Hy. apply H. right. exact Hy.
Qed.

Lemma div_eq_iff (y c d : Z) : 0 < d -> (y / d = c <-> c * d <= y < (c + 1) * d).
Proof.
  intros Hd. split.
  - intros <-. pose proof (Z.mul_div_le y d Hd). pose proof (Z.mul_succ_div_gt y d Hd). lia.
  - intros H. symmetry. apply (Z.div_unique y d c (y - c * d)); lia.
Qed.

(** A predicate that holds exactly on the block [a .. a + d) of the
    ranks [0 .. a + d + b) selects that block. *)
Lemma filter_block (f : Z -> bool) (a d b : nat) :
  (forall i, (i < a)%nat -> f (Z.of_nat i) = false) ->
  (forall i, (a <= i < a + d)%nat -> f (Z.of_nat i) = true) ->
  (forall i, (a + d <= i < a + d + b)%nat -> f (Z.of_nat i) = false) ->
  List.filter f (world (a + d + b)) = map Z.of_nat (seq a d).
Proof.
  intros Hlow Hmid Hhigh. unfold world.
  rewrite !seq_app, !map_app, !List.filter_app. simpl.
  rewrite filter_none, filter_all, filter_none.
  - rewrite app_nil_r. reflexivity.
  - intros y Hy. apply in_map_iff in Hy. destruct Hy as (i & <- & Hi).
    apply in_seq in Hi. apply Hhigh. lia.
  - intros y Hy. apply in_map_iff in Hy. destruct Hy as (i & <- & Hi).
    apply in_seq in Hi. apply Hmid. lia.
  - intros y Hy. apply in_map_iff in Hy. destruct Hy as (i & <- & Hi).
    apply in_seq in Hi. apply Hlow. lia.
Qed.

Lemma color_class_size (n : nat) (n_subdomain n_instances c : Z) :
  Z.of_nat n = n_subdomain * n_instances -> 0 < n_instances ->
  0 <= c < n_subdomain ->
  length (List.filter (fun y => Z.eqb (color_of n_instances y) c) (world n))
  = Z.to_nat n_instances.
Proof.
  intros Hn Hpos Hc.
  replace n with (Z.to_nat (c * n_instances) + Z.to_nat n_instances
                  + Z.to_nat ((n_subdomain - c - 1) * n_instances))%nat by nia.
  rewrite filter_block.
  - rewrite List.length_map, length_seq. reflexivity.
  - intros i Hi. apply Z.eqb_neq. unfold color_of. rewrite div_eq_iff by exact Hpos. nia.
  - intros i Hi. apply Z.eqb_eq. unfold color_of. rewrite div_eq_iff by exact Hpos. nia.
  - intros i Hi. apply Z.eqb_neq. unfold color_of. rewrite div_eq_iff by exact Hpos. nia.
Qed.

Lemma key_class_block (d k : nat) (a : nat) :
  (k < d)%nat ->
  length (List.filter (fun y => Z.eqb (key_of (Z.of_nat d) y) (Z.of_nat k))
            (map Z.of_nat (seq (a * d) d))) = 1%nat.
Proof.
  intros Hk.
  assert (E : seq (a * d) d
              = seq (a * d) k ++ [(a * d + k)%nat] ++ seq (a * d + k + 1) (d - k - 1)).
  { replace d with (k + 1 + (d - k - 1))%nat at 2 by lia.
    rewrite !seq_app. rewrite <- app_assoc. rewrite Nat.add_assoc. reflexivity. }
  rewrite E. clear E.
  rewrite !map_app, !List.filter_app, !length_app. simpl map.
  assert (Hmod : forall i, (i < d)%nat ->
            key_of (Z.of_nat d) (Z.of_nat (a * d + i)) = Z.of_nat i).
  { intros i Hi. unfold key_of.
    replace (Z.of_nat (a * d + i)) with (Z.of_nat i + Z.of_nat a * Z.of_nat d) by lia.
    rewrite Z_mod_plus_full. apply Z.mod_small. lia. }
  rewrite (filter_none _ (map Z.of_nat (seq (a * d) k))),
    (filter_none _ (map Z.of_nat (seq (a * d + k + 1) (d - k - 1)))).
  - cbn [List.filter]. rewrite Hmod by lia. rewrite Z.eqb_refl. reflexivity.
  - intros y Hy. apply in_map_iff in Hy. destruct Hy as (i & <- & Hi).
    apply in_seq in Hi. apply Z.eqb_neq.
    replace i with (a * d + (i - a * d))%nat by lia. rewrite Hmod by lia. lia.
  - intros y Hy. apply in_map_iff in Hy. destruct Hy as (i & <- & Hi).
    apply in_seq in Hi. apply Z.eqb_neq.
    replace i with (a * d + (i - a * d))%nat by lia. rewrite Hmod by lia. lia.
Qed.

Lemma key_class_size_nat (s d k : nat) :
  (k < d)%nat ->
  length (List.filter (fun y => Z.eqb (key_of (Z.of_nat d) y) (Z.of_nat k)) (world (s * d)))
  = s.
Proof.
  intros Hk. induction s as [|s IH]; [reflexivity|].
  replace (S s * d)%nat with (s * d + d)%nat by lia.
  unfold world in *. rewrite seq_app, map_app, List.filter_app, length_app, IH.
  simpl. rewrite key_class_block by exact Hk. lia.
Qed.

Lemma key_class_size (n : nat) (n_subdomain n_instances k : Z) :
  Z.of_nat n = n_subdomain * n_instances -> 0 < n_instances ->
  0 <= k < n_instances ->
  length (List.filter (fun y => Z.eqb (key_of n_instances y) k) (world n))
  = Z.to_nat n_subdomain.
Proof.
  intros Hn Hpos Hk.
  assert (Hs : 0 <= n_subdomain) by nia.
  replace n with (Z.to_nat n_subdomain * Z.to_nat n_instances)%nat by nia.
  pose proof (key_class_size_nat (Z.to_nat n_subdomain) (Z.to_nat n_instances)
                (Z.to_nat k) ltac:(lia)) as H.
  rewrite !Z2Nat.id in H by lia. exact H.
Qed.

(** The first group [splitCommunicators] returns has [n_instances]
    members and the second has [n_subdomain]. *)
Lemma split_group_sizes `{T : Transport} (n : nat) (n_subdomain n_instances r : Z) :
  Z.of_nat n = n_subdomain * n_instances -> 0 < n_instances ->
  0 <= r < Z.of_nat n ->
  exists mesh_constructor_comm collective_comm,
    split_world n n_subdomain n_instances !! Z.to_nat r
    = Some (Some (inr (mesh_constructor_comm, collective_comm)))
    /\ length (members mesh_constructor_comm) = Z.to_nat n_instances
    /\ length (members collective_comm) = Z.to_nat n_subdomain.
Proof.
  intros Hn Hpos Hr. rewrite split_world_ok by assumption.
  eexists _, _. split.
  { change (map ?f ?l) with (f <$> l) at 1.
    rewrite list_lookup_fmap, world_lookup by exact Hr. reflexivity. }
  cbn [members]. rewrite !split_members_perm. split.
  - apply (color_class_size n n_subdomain); try assumption.
    unfold color_of. split; [apply Z.div_pos; lia|].
    apply Z.div_lt_upper_bound; lia.
  - apply (key_class_size n n_subdomain); try assumption.
    unfold key_of. apply Z.mod_pos_bound. exact Hpos.
Qed.

(** C1 (what the code does): for every [n_subdomain] and positive
    [n_instances] with [n_subdomain * n_instances] the size of the flat
    group, every flat rank gets the pair [color = floor(rank /
    n_instances)], [key = rank mod n_instances], a pair no other rank
    has. The first communicator returned to a process, the mesh
    communicator, holds the processes that share its color: it has
    [n_instances] members, not [n_subdomain], and as soon as
    [n_instances > 1] it holds a process whose key differs. The second,
    the collective communicator, holds the processes that share its key
    and has [n_subdomain] members, not [n_instances]. *)
Theorem splitCommunicators_mesh_group_size `{T : Transport}
  (n : nat) (n_subdomain n_instances : Z) :
  Z.of_nat n = n_subdomain * n_instances -> 0 < n_instances ->
  (forall r r', color_of n_instances r = color_of n_instances r' ->
                key_of n_instances r = key_of n_instances r' -> r = r')
  /\ (forall r, 0 <= r < Z.of_nat n ->
      exists mesh_constructor_comm collective_comm,
        split_world n n_subdomain n_instances !! Z.to_nat r
        = Some (Some (inr (mesh_constructor_comm, collective_comm)))
        /\ me mesh_constructor_comm = r /\ me collective_comm = r
        /\ (forall r', In r' (members mesh_constructor_comm)
                       <-> 0 <= r' < Z.of_nat n
                           /\ color_of n_instances r' = color_of n_instances r)
        /\ (forall r', In r' (members collective_comm)
                       <-> 0 <= r' < Z.of_nat n
                           /\ key_of n_instances r' = key_of n_instances r)
        /\ Get_size mesh_constructor_comm = n_instances
        /\ Get_size collective_comm = n_subdomain
        /\ (1 < n_instances ->
            exists r', In r' (members mesh_constructor_comm)
                       /\ key_of n_instances r' <> key_of n_instances r)).
Proof.
  intros Hn Hpos. split.
  - unfold color_of, key_of. intros r r' Hc Hk.
    rewrite (Z.div_mod r n_instances), (Z.div_mod r' n_instances) by lia.
    rewrite Hc, Hk. reflexivity.
  - intros r Hr.
    destruct (split_group_sizes n n_subdomain n_instances r Hn Hpos Hr)
      as (mesh & coll & Hlook & Hmesh & Hcoll).
    exists mesh, coll. split; [exact Hlook|].
    destruct (split_world_members _ _ _ _ _ _ Hn Hpos Hlook) as (E1 & E2 & M1 & M2).
    rewrite Z2Nat.id in E1, E2, M1, M2 by lia.
    split; [exact E1|]. split; [exact E2|]. split; [exact M1|]. split; [exact M2|].
    assert (Hns : 0 <= n_subdomain) by nia.
    unfold Get_size. rewrite Hmesh, Hcoll.
    split; [lia|]. split; [lia|].
    intros Hni.
    pose proof (Z.mod_pos_bound r n_instances Hpos) as Hk.
    assert (Hc : 0 <= r / n_instances < n_subdomain).
    { split; [apply Z.div_pos; lia|]. apply Z.div_lt_upper_bound; lia. }
    set (k' := if Z.eqb (r mod n_instances) 0 then 1 else 0).
    assert (Hk' : 0 <= k' < n_instances /\ k' <> r mod n_instances).
    { unfold k'. destruct (Z.eqb_spec (r mod n_instances) 0); lia. }
    exists (r / n_instances * n_instances + k').
    assert (Hq : (r / n_instances * n_instances + k') / n_instances = r / n_instances).
    { rewrite Z.add_comm, Z.div_add by lia. rewrite Z.div_small by lia. lia. }
    assert (Hm : (r / n_instances * n_instances + k') mod n_instances = k').
    { rewrite Z.add_comm, Z.mod_add by lia. apply Z.mod_small. lia. }
    split.
    + apply M1. unfold color_of. rewrite Hq. split; [nia | reflexivity].
    + unfold key_of. rewrite Hm. lia.
Qed.

(** A flat group of 6 processes split with [n_subdomain = 2] and
    [n_instances = 3]: rank 0 gets the mesh communicator [0; 1; 2], of 3
    members with the keys 0, 1 and 2, and the collective communicator
    [0; 3], of 2 members. *)
Lemma splitCommunicators_mesh_group_size_witness :
  let T := rank_order in
  split_world 6 2 3 !! 0%nat = Some (Some (inr (mkComm [0; 1; 2] 0, mkComm [0; 3] 0)))
  /\ exists mesh_constructor_comm collective_comm,
       split_world 6 2 3 !! Z.to_nat 0
       = Some (Some (inr (mesh_constructor_comm, collective_comm)))
       /\ Get_size mesh_constructor_comm = 3
       /\ Get_size collective_comm = 2.
Proof.
  intros T. split; [vm_compute; reflexivity|].
  destruct (splitCommunicators_mesh_group_size 6 2 3) as [_ H]; [lia | lia |].
  destruct (H 0) as (mesh & coll & Hlook & _ & _ & _ & _ & Hm & Hc & _); [lia|].
  exists mesh, coll. split; [exact Hlook|]. split; [exact Hm | exact Hc].
Defined.

(** ** Groups whose processes make one call and return *)

Lemma map_snd_zip {X Y : Type} (g : X -> Y) (ms : list Z) (xs : list X) :
  length ms = length xs ->
  map (fun mx => g (snd mx)) (zip ms xs) = map g xs.
Proof.
  revert xs. induction ms as [|m ms IH]; intros [|x xs] Hlen; simpl in *;
    try discriminate; [reflexivity|].
  f_equal. apply IH. lia.
Qed.

Lemma in_zip_snd {X : Type} (ms : list Z) (xs : list X) (m : Z) (x : X) :
  In (m, x) (zip ms xs) -> In x xs.
Proof.
  revert xs. induction ms as [|m' ms IH]; intros [|x' xs]; simpl; try tauto.
  intros [E|H]; [left; congruence | right; apply IH, H].
Qed.

Lemma comm_bcast_valid {A : Type} (c : Comm) (obj : wire) (root : Z)
  (raise : exn -> prog A) (k : wire -> prog A) :
  0 <= root < Get_size c -> comm_bcast c obj root raise k = Bcast obj root k.
Proof.
  intros H. unfold comm_bcast.
  destruct (Z.leb_spec 0 root); [|lia]. destruct (Z.ltb_spec root (Get_size c)); [|lia].
  reflexivity.
Qed.

(** Whatever its root, [comm.bcast] either raises or makes the call. *)
Lemma may_return_comm_bcast {A : Type} (c : Comm) (obj : wire) (root : Z)
  (raise : exn -> prog A) (k : wire -> prog A) (b : A) :
  may_return (comm_bcast c obj root raise k) b ->
  (exists e, may_return (raise e) b) \/ (exists w, may_return (k w) b).
Proof.
  unfold comm_bcast. destruct (_ && _)%bool; intros H.
  - right. inversion H; subst. eauto.
  - left. eauto.
Qed.

Section OneCall.
Context `{T : Transport}.
Context {X : Type}.
Variable body : X -> Comm -> prog outcome.
Variables (x0 : X) (l : list X).

Local Abbreviation n := (length (x0 :: l)).

Lemma launch_allreduce_double (s : X -> list float)
  (K : Z -> X -> list float -> prog outcome) (k : Z -> X -> list float -> outcome) :
  (forall x, In x (x0 :: l) ->
     forall c, body x c = AllreduceDouble (s x) (K (Get_size c) x)) ->
  (forall N x r, K N x r = Ret (k N x r)) ->
  launch (world n) (map body (x0 :: l))
  = match Allreduce_SUM_DOUBLE (s x0) (map s l) with
    | Some r => map (fun x => Some (k (Z.of_nat n) x r)) (x0 :: l)
    | None => map (fun _ => None) (x0 :: l)
    end.
Proof.
  intros Hbody HK. rewrite launch_map.
  rewrite (map_ext_in _ (fun mx => AllreduceDouble (s (snd mx))
                                     (K (Z.of_nat n) (snd mx)))).
  2:{ intros [m x] Hin. apply in_zip_snd in Hin.
      rewrite (Hbody _ Hin), Get_size_world. reflexivity. }
  assert (Hlen : length (world n) = length (x0 :: l)) by apply length_world.
  destruct (world n) as [|m ms]; [discriminate|].
  cbn [zip zip_with].
  rewrite (run_group_allreduce_double (fun mx => s (snd mx))
             (fun mx => K (Z.of_nat n) (snd mx))).
  cbn [snd]. simpl in Hlen. rewrite (map_snd_zip s) by lia.
  destruct (Allreduce_SUM_DOUBLE _ _) as [r|].
  - rewrite (map_ext _ (fun mx => Ret (k (Z.of_nat n) (snd mx) r)))
      by (intros; apply HK).
    rewrite (run_group_ret (fun mx => k (Z.of_nat n) (snd mx) r)).
    cbn [map snd]. f_equal.
    apply (map_snd_zip (fun x => Some (k (Z.of_nat n) x r))). lia.
  - cbn [map]. f_equal. apply (map_snd_zip (fun _ => None)). lia.
Qed.

Lemma launch_allreduce_int (s : X -> list Z)
  (K : Z -> X -> list Z -> prog outcome) (k : Z -> X -> list Z -> outcome) :
  (forall x, In x (x0 :: l) ->
     forall c, body x c = AllreduceInt (s x) (K (Get_size c) x)) ->
  (forall N x r, K N x r = Ret (k N x r)) ->
  launch (world n) (map body (x0 :: l))
  = match Allreduce_SUM_INT (s x0) (map s l) with
    | Some r => map (fun x => Some (k (Z.of_nat n) x r)) (x0 :: l)
    | None => map (fun _ => None) (x0 :: l)
    end.
Proof.
  intros Hbody HK. rewrite launch_map.
  rewrite (map_ext_in _ (fun mx => AllreduceInt (s (snd mx))
                                     (K (Z.of_nat n) (snd mx)))).
  2:{ intros [m x] Hin. apply in_zip_snd in Hin.
      rewrite (Hbody _ Hin), Get_size_world. reflexivity. }
  assert (Hlen : length (world n) = length (x0 :: l)) by apply length_world.
  destruct (world n) as [|m ms]; [discriminate|].
  cbn [zip zip_with].
  rewrite (run_group_allreduce_int (fun mx => s (snd mx))
             (fun mx => K (Z.of_nat n) (snd mx))).
  cbn [snd]. simpl in Hlen. rewrite (map_snd_zip s) by lia.
  destruct (Allreduce_SUM_INT _ _) as [r|].
  - rewrite (map_ext _ (fun mx => Ret (k (Z.of_nat n) (snd mx) r)))
      by (intros; apply HK).
    rewrite (run_group_ret (fun mx => k (Z.of_nat n) (snd mx) r)).
    cbn [map snd]. f_equal.
    apply (map_snd_zip (fun x => Some (k (Z.of_nat n) x r))). lia.
  - cbn [map]. f_equal. apply (map_snd_zip (fun _ => None)). lia.
Qed.

Lemma launch_bcast (o : X -> wire) (root : Z) (R : X -> exn -> prog outcome)
  (K : X -> wire -> prog outcome) (k : X -> wire -> outcome) (w : wire) :
  (forall x, In x (x0 :: l) -> forall c, body x c = comm_bcast c (o x) root (R x) (K x)) ->
  (forall x w, K x w = Ret (k x w)) ->
  0 <= root ->
  map o (x0 :: l) !! Z.to_nat root = Some w ->
  launch (world n) (map body (x0 :: l)) = map (fun x => Some (k x w)) (x0 :: l).
Proof.
  intros Hbody HK Hroot Hw. rewrite launch_map.
  assert (Hlt : root < Z.of_nat n).
  { apply lookup_lt_Some in Hw. rewrite List.length_map in Hw. lia. }
  rewrite (map_ext_in _ (fun mx => Bcast (o (snd mx)) root (K (snd mx)))).
  2:{ intros [m x] Hin. apply in_zip_snd in Hin. rewrite (Hbody _ Hin).
      apply comm_bcast_valid. rewrite Get_size_world. lia. }
  assert (Hlen : length (world n) = length (x0 :: l)) by apply length_world.
  destruct (world n) as [|m ms]; [discriminate|].
  cbn [zip zip_with]. simpl in Hlen.
  rewrite (run_group_bcast (fun mx => o (snd mx)) root
             (fun mx => K (snd mx)) _ _ w Hroot).
  2:{ cbn [map snd]. rewrite (map_snd_zip o) by lia. exact Hw. }
  rewrite (map_ext _ (fun mx => Ret (k (snd mx) w))) by (intros; apply HK).
  rewrite (run_group_ret (fun mx => k (snd mx) w)).
  cbn [map snd]. f_equal. apply (map_snd_zip (fun x => Some (k x w))). lia.
Qed.
End OneCall.

(** ** Sequencing in a group *)

Section RunBind.
Context `{T : Transport}.
Context {A B : Type}.

Lemma mapM_at_call_bind (ps : list (prog A)) (fs : list (A -> prog B))
  (eks : list (event * (response -> prog A))) :
  mapM at_call ps = Some eks -> length fs = length ps ->
  mapM at_call (zip_with bind ps fs)
  = Some (zip_with (fun ek f => (fst ek, fun r => bind (snd ek r) f)) eks fs).
Proof.
  intros H. apply mapM_Some in H. revert fs.
  induction H as [|p ek ps eks Hp _ IH]; intros fs Hlen.
  - destruct fs; reflexivity.
  - destruct fs as [|f fs]; [discriminate|]. simpl in Hlen.
    destruct p as [a|e k]; [discriminate|]. injection Hp as <-.
    cbn [zip_with bind]. simpl. rewrite IH by lia. reflexivity.
Qed.

Lemma map_fst_zip_with {E K K' F : Type} (g : E * K -> F -> K')
  (eks : list (E * K)) (fs : list F) :
  length fs = length eks ->
  map fst (zip_with (fun ek f => (fst ek, g ek f)) eks fs) = map fst eks.
Proof.
  revert fs. induction eks as [|ek eks IH]; intros [|f fs] Hlen;
    simpl in *; try discriminate; [reflexivity|].
  f_equal. apply IH. lia.
Qed.

Lemma zip_with_bind_step (eks : list (event * (response -> prog A)))
  (fs : list (A -> prog B)) (rs : list response) :
  length fs = length eks -> length rs = length eks ->
  zip_with (fun ek r => snd ek r)
    (zip_with (fun ek f => (fst ek, fun r => bind (snd ek r) f)) eks fs) rs
  = zip_with bind (zip_with (fun ek r => snd ek r) eks rs) fs.
Proof.
  revert fs rs. induction eks as [|ek eks IH]; intros [|f fs] [|r rs] Hf Hr;
    simpl in *; try discriminate; [reflexivity|].
  f_equal. apply IH; lia.
Qed.

Lemma finish_Some (ps : list (prog A)) (rs : list A) :
  map finish ps = map Some rs -> ps = map Ret rs.
Proof.
  revert rs. induction ps as [|p ps IH]; intros [|r rs] H; simpl in *;
    try discriminate; [reflexivity|].
  injection H as Hp Hps. destruct p as [a|e k]; [|discriminate].
  injection Hp as ->. f_equal. apply IH, Hps.
Qed.

Lemma zip_with_bind_Ret (rs : list A) (fs : list (A -> prog B)) :
  zip_with bind (map Ret rs) fs = zip_with (fun f a => f a) fs rs.
Proof.
  revert fs. induction rs as [|r rs IH]; intros [|f fs]; simpl; try reflexivity.
  f_equal. apply IH.
Qed.

(** When a group has run its programs to the values [a0 :: rs], the
    group of the programs each followed by a continuation runs as the
    group of the continuations on these values. *)
Lemma run_bind (p0 : prog A) :
  forall (ps : list (prog A)) (f0 : A -> prog B) (fs : list (A -> prog B))
         (a0 : A) (rs : list A),
  length fs = length ps ->
  run p0 ps = map Some (a0 :: rs) ->
  run (bind p0 f0) (zip_with bind ps fs)
  = run (f0 a0) (zip_with (fun f a => f a) fs rs).
Proof.
  induction p0 as [a|e0 k0 IH]; intros ps f0 fs a0 rs Hlen Hrun.
  - cbn [run map] in Hrun. injection Hrun as -> Hps.
    apply finish_Some in Hps. subst ps. cbn [bind].
    rewrite zip_with_bind_Ret. reflexivity.
  - cbn [run] in Hrun. cbn [bind run].
    destruct (mapM at_call ps) as [eks|] eqn:Eeks; [|discriminate].
    destruct (respond e0 (map fst eks)) as [[|r0 rs0]|] eqn:Eresp; try discriminate.
    pose proof (length_mapM _ _ _ Eeks) as Hlen_eks.
    pose proof (respond_length _ _ _ Eresp) as Hlen_rs.
    simpl in Hlen_rs. rewrite List.length_map in Hlen_rs.
    rewrite (mapM_at_call_bind _ _ _ Eeks Hlen).
    rewrite map_fst_zip_with by lia. rewrite Eresp.
    rewrite zip_with_bind_step by lia.
    apply IH; [|exact Hrun].
    rewrite length_zip_with. lia.
Qed.
End RunBind.

Lemma run_group_bind `{T : Transport} {X A B : Type} (p : X -> prog A) (f : X -> A -> prog B)
  (a : X -> A) (l : list X) :
  run_group (map p l) = map (fun x => Some (a x)) l ->
  run_group (map (fun x => bind (p x) (f x)) l) = run_group (map (fun x => f x (a x)) l).
Proof.
  destruct l as [|x0 l]; [reflexivity|]. cbn [map run_group]. intros H.
  rewrite <- (map_map a Some) in H.
  change (Some (a x0) :: map Some (map a l)) with (map Some (a x0 :: map a l)) in H.
  assert (E1 : map (fun x => bind (p x) (f x)) l = zip_with bind (map p l) (map f l)).
  { clear. induction l as [|x l IH]; simpl; [reflexivity | f_equal; exact IH]. }
  assert (E2 : map (fun x => f x (a x)) l
               = zip_with (fun g b => g b) (map f l) (map a l)).
  { clear. induction l as [|x l IH]; simpl; [reflexivity | f_equal; exact IH]. }
  rewrite E1, E2. apply run_bind; [|exact H].
  rewrite !List.length_map. reflexivity.
Qed.

Lemma launch_ext `{T : Transport} {X A : Type} (ms : list Z) (body body' : X -> Comm -> prog A)
  (xs : list X) :
  (forall x, In x xs -> forall c, body x c = body' x c) ->
  launch ms (map body xs) = launch ms (map body' xs).
Proof.
  intros H. rewrite !launch_map. f_equal. apply map_ext_in.
  intros [m x] Hin. apply in_zip_snd in Hin. apply (H _ Hin).
Qed.

Lemma launch_ret `{T : Transport} {X A : Type} (ms : list Z) (r : X -> A) (xs : list X) :
  length ms = length xs ->
  launch ms (map (fun x (_ : Comm) => Ret (r x)) xs) = map (fun x => Some (r x)) xs.
Proof.
  intros Hlen. rewrite launch_map.
  rewrite (run_group_ret (fun mx => r (snd mx))).
  apply (map_snd_zip (fun x => Some (r x))). exact Hlen.
Qed.

Lemma launch_bind `{T : Transport} {X A B : Type} (ms : list Z) (g : X -> Comm -> prog A)
  (f : X -> Comm -> A -> prog B) (a : X -> A) (xs : list X) :
  length ms = length xs ->
  launch ms (map g xs) = map (fun x => Some (a x)) xs ->
  launch ms (map (fun x c => bind (g x c) (f x c)) xs)
  = launch ms (map (fun x c => f x c (a x)) xs).
Proof.
  intros Hlen H. rewrite launch_map in H. rewrite !launch_map.
  apply (run_group_bind (fun mx => g (snd mx) (mkComm ms (fst mx)))
           (fun mx => f (snd mx) (mkComm ms (fst mx))) (fun mx => a (snd mx))).
  rewrite H. symmetry. apply (map_snd_zip (fun x => Some (a x))). exact Hlen.
Qed.

(** ** Sums along an order *)

Lemma wrap32_range (z : Z) : in_int32 (wrap32 z).
Proof. unfold in_int32, wrap32. pose proof (Z.mod_pos_bound (z + 2 ^ 31) (2 ^ 32)). lia. Qed.

Lemma wrap32_small (z : Z) : in_int32 z -> wrap32 z = z.
Proof. unfold in_int32, wrap32. intros H. rewrite Z.mod_small; lia. Qed.

Lemma wrap32_add (a b : Z) : wrap32 (wrap32 a + wrap32 b) = wrap32 (a + b).
Proof.
  unfold wrap32. f_equal.
  replace ((a + 2 ^ 31) mod 2 ^ 32 - 2 ^ 31 + ((b + 2 ^ 31) mod 2 ^ 32 - 2 ^ 31) + 2 ^ 31)
    with ((a + 2 ^ 31) mod 2 ^ 32 + ((b + 2 ^ 31) mod 2 ^ 32 - 2 ^ 31)) by lia.
  rewrite Zplus_mod_idemp_l.
  replace (a + 2 ^ 31 + ((b + 2 ^ 31) mod 2 ^ 32 - 2 ^ 31))
    with ((b + 2 ^ 31) mod 2 ^ 32 + a) by lia.
  rewrite Zplus_mod_idemp_l. f_equal. lia.
Qed.

Lemma wrap32_idem (a : Z) : wrap32 (wrap32 a) = wrap32 a.
Proof. apply wrap32_small, wrap32_range. Qed.

Lemma wrap32_add_l (a b : Z) : wrap32 (wrap32 a + b) = wrap32 (a + b).
Proof.
  rewrite <- (wrap32_add (wrap32 a) b), wrap32_idem. apply wrap32_add.
Qed.

Lemma Zsum_app (xs ys : list Z) : Zsum (xs ++ ys) = Zsum xs + Zsum ys.
Proof. induction xs as [|x xs IH]; simpl; [reflexivity | rewrite IH; lia]. Qed.

Lemma Zsum_perm (xs ys : list Z) : xs ≡ₚ ys -> Zsum xs = Zsum ys.
Proof.
  induction 1 as [|x xs ys _ IH|x y xs|xs ys zs _ IH1 _ IH2]; simpl in *; lia.
Qed.

Lemma Zsum_wrapped (zs : list Z) : wrap32 (Zsum (map wrap32 zs)) = wrap32 (Zsum zs).
Proof.
  induction zs as [|z zs IH]; [reflexivity|]. simpl.
  rewrite wrap32_add_l, <- (wrap32_add z (Zsum (map wrap32 zs))), IH.
  apply wrap32_add.
Qed.

Lemma nth_seq {A : Type} (d : A) (xs : list A) :
  map (fun i => nth i xs d) (seq 0 (length xs)) = xs.
Proof.
  induction xs as [|x xs IH]; [reflexivity|].
  cbn [length seq map nth]. f_equal.
  rewrite <- seq_shift, map_map. exact IH.
Qed.

(** The values of the ranks an order adds are the values of the group,
    each once. *)
Lemma values_of_order `{T : Transport} {A : Type} (d : A) (count j : nat) (xs : list A) :
  (0 < length xs)%nat ->
  map (fun i => nth i xs d) (ranks_of (sum_order (length xs) count j)) ≡ₚ xs.
Proof.
  intros Hn. transitivity (map (fun i => nth i xs d) (seq 0 (length xs))).
  - apply Permutation_map, sum_order_ranks, Hn.
  - rewrite nth_seq. reflexivity.
Qed.

(** Over 32-bit integers the order does not matter: a sum along any
    order is the exact sum of the values, wrapped once. *)
Lemma plan_sum32_ranks (t : plan) (xs : list Z) :
  Forall in_int32 xs ->
  plan_sum32 t xs = wrap32 (Zsum (map (fun i => nth i xs 0) (ranks_of t))).
Proof.
  intros Hxs. induction t as [i|l IHl r IHr]; cbn [plan_sum32 ranks_of].
  - cbn [map Zsum fold_right]. rewrite Z.add_0_r. symmetry. apply wrap32_small.
    destruct (nth_in_or_default i xs 0) as [Hin | ->].
    + rewrite List.Forall_forall in Hxs. apply Hxs, Hin.
    + unfold in_int32. lia.
  - rewrite IHl, IHr, wrap32_add. rewrite map_app, Zsum_app. reflexivity.
Qed.

Lemma plan_sum32_any_order `{T : Transport} (count j : nat) (xs : list Z) :
  (0 < length xs)%nat -> Forall in_int32 xs ->
  plan_sum32 (sum_order (length xs) count j) xs = wrap32 (Zsum xs).
Proof.
  intros Hn Hxs. rewrite plan_sum32_ranks by exact Hxs. f_equal.
  apply Zsum_perm, values_of_order, Hn.
Qed.

Lemma position_single {A B : Type} (d : A) (f : B -> A) (l : list B) :
  position d 0 (map (fun b => [f b]) l) = map f l.
Proof. unfold position. rewrite map_map. reflexivity. Qed.

Lemma same_length_single {A B : Type} (f : B -> A) (x : A) (l : list B) :
  same_length [x] (map (fun b => [f b]) l) = true.
Proof. unfold same_length. rewrite forallb_map'. apply forallb_forall. reflexivity. Qed.

(** A group of one process adds nothing. *)
Lemma sum_order_single `{T : Transport} (count j : nat) : sum_order 1 count j = Leaf 0.
Proof.
  pose proof (sum_order_ranks 1 count j ltac:(lia)) as H.
  destruct (sum_order 1 count j) as [i|l r].
  - apply Permutation_singleton_r in H. injection H as ->. reflexivity.
  - apply Permutation_length in H. cbn [ranks_of] in H. rewrite length_app in H.
    assert (G : forall t, (0 < length (ranks_of t))%nat).
    { induction t; cbn [ranks_of]; [simpl; lia | rewrite length_app; lia]. }
    pose proof (G l). pose proof (G r). simpl in H. lia.
Qed.

(** The sum the transport gives for one-element buffers. *)
Lemma position_singles {A : Type} (d : A) (f : A -> A) (x0 : A) (xs : list A) :
  position d 0 ([f x0] :: map (fun x => [f x]) xs) = map f (x0 :: xs).
Proof. unfold position. cbn [map nth]. rewrite map_map. reflexivity. Qed.

Lemma summed32_single `{T : Transport} (zs : list Z) (z0 : Z) :
  summed32 ([wrap32 z0] :: map (fun z => [wrap32 z]) zs) = [wrap32 (Zsum (z0 :: zs))].
Proof.
  unfold summed32. cbn [hd length]. rewrite List.length_map.
  change (seq 0 1) with [0%nat]. cbn [map].
  rewrite (position_singles 0 wrap32).
  replace (S (length zs)) with (length (map wrap32 (z0 :: zs)))
    by (rewrite List.length_map; reflexivity).
  rewrite plan_sum32_any_order.
  - rewrite Zsum_wrapped. reflexivity.
  - simpl. lia.
  - apply List.Forall_map, List.Forall_forall. intros p _. apply wrap32_range.
Qed.

Lemma summed_single `{T : Transport} (xs : list float) (x0 : float) :
  summed ([x0] :: map (fun x => [x]) xs) = [real_sum (x0 :: xs)].
Proof.
  unfold summed, real_sum. cbn [hd length]. rewrite List.length_map.
  change (seq 0 1) with [0%nat]. cbn [map].
  rewrite (position_singles 0%float (fun x => x)), map_id. reflexivity.
Qed.

Lemma summed_one `{T : Transport} (xs : list float) : summed [xs] = xs.
Proof.
  unfold summed. cbn [length hd].
  etrans; [|apply (nth_seq 0%float xs)]. apply map_ext. intros j.
  rewrite sum_order_single. reflexivity.
Qed.

(** ** Binary64 arithmetic on integers

    Python's [float] is IEEE binary64. A sum or a quotient whose exact
    value is an integer, or half an integer, below [2^53] is that value:
    no rounding takes place. *)

Lemma digits2_pos_bounds (m : positive) :
  2 ^ (Zpos (digits2_pos m) - 1) <= Zpos m < 2 ^ Zpos (digits2_pos m).
Proof.
  induction m as [m IH|m IH|]; cbn [digits2_pos].
  - rewrite Pos2Z.inj_succ. change (Zpos m~1) with (2 * Zpos m + 1).
    set (d := Zpos (digits2_pos m)) in *.
    assert (Hd : 0 < d) by (unfold d; lia).
    replace (Z.succ d - 1) with d by lia.
    assert (E1 : 2 ^ d = 2 * 2 ^ (d - 1)).
    { rewrite <- Z.pow_succ_r by lia. f_equal. lia. }
    rewrite (Z.pow_succ_r 2 d) by lia. lia.
  - rewrite Pos2Z.inj_succ. change (Zpos m~0) with (2 * Zpos m).
    set (d := Zpos (digits2_pos m)) in *.
    assert (Hd : 0 < d) by (unfold d; lia).
    replace (Z.succ d - 1) with d by lia.
    assert (E1 : 2 ^ d = 2 * 2 ^ (d - 1)).
    { rewrite <- Z.pow_succ_r by lia. f_equal. lia. }
    rewrite (Z.pow_succ_r 2 d) by lia. lia.
  - change (1 <= 1 < 2). lia.
Qed.

Lemma Zdigits2_unique (m d : Z) :
  0 < m -> 2 ^ (d - 1) <= m < 2 ^ d -> Zdigits2 m = d.
Proof.
  intros Hm H. destruct m as [|p|p]; try lia. cbn [Zdigits2].
  pose proof (digits2_pos_bounds p) as B.
  set (d' := Zpos (digits2_pos p)) in *.
  assert (0 < d).
  { destruct (Z.lt_ge_cases 0 d) as [|Hle]; [assumption|]. exfalso.
    destruct (Z.eq_dec d 0) as [->|]; [change (2 ^ 0) with 1 in H; lia|].
    rewrite (Z.pow_neg_r 2 d) in H by lia. lia. }
  destruct (Z.lt_trichotomy d' d) as [L|[E|G]]; [|exact E|].
  - assert (2 ^ d' <= 2 ^ (d - 1)) by (apply Z.pow_le_mono_r; lia). lia.
  - assert (2 ^ d <= 2 ^ (d' - 1)) by (apply Z.pow_le_mono_r; lia). lia.
Qed.

Lemma Zdigits2_bounds (m : Z) :
  0 < m -> 0 < Zdigits2 m /\ 2 ^ (Zdigits2 m - 1) <= m < 2 ^ Zdigits2 m.
Proof.
  intros Hm. destruct m as [|p|p]; try lia. cbn [Zdigits2].
  split; [lia | apply digits2_pos_bounds].
Qed.

Lemma Zdigits2_shift (m k : Z) :
  0 < m -> 0 <= k -> Zdigits2 (m * 2 ^ k) = Zdigits2 m + k.
Proof.
  intros Hm Hk. destruct (Zdigits2_bounds m Hm) as [Hd B].
  apply Zdigits2_unique.
  - apply Z.mul_pos_pos; [lia | apply Z.pow_pos_nonneg; lia].
  - replace (Zdigits2 m + k - 1) with (Zdigits2 m - 1 + k) by lia.
    rewrite !Z.pow_add_r by lia.
    assert (0 < 2 ^ k) by (apply Z.pow_pos_nonneg; lia). nia.
Qed.

Lemma Zdigits2_le (m : Z) : 0 < m -> m < 2 ^ 53 -> Zdigits2 m <= 53.
Proof.
  intros Hm H. destruct (Zdigits2_bounds m Hm) as [Hd B].
  destruct (Z.le_gt_cases (Zdigits2 m) 53) as [|G]; [assumption|].
  assert (2 ^ 53 <= 2 ^ (Zdigits2 m - 1)) by (apply Z.pow_le_mono_r; lia). lia.
Qed.

Lemma iter_pos_nat {A : Type} (f : A -> A) (p : positive) :
  forall x, SpecFloat.iter_pos f p x = Nat.iter (Pos.to_nat p) f x.
Proof.
  assert (S : forall n x, Nat.iter n f (f x) = f (Nat.iter n f x)).
  { induction n as [|n IH]; intros x; simpl; [reflexivity | rewrite IH; reflexivity]. }
  assert (D : forall n x, Nat.iter n f (Nat.iter n f x) = Nat.iter (n + n) f x).
  { intros n x. rewrite Nat.iter_add. reflexivity. }
  induction p as [p IH|p IH|]; intros x; cbn [SpecFloat.iter_pos].
  - rewrite !IH, Pos2Nat.inj_xI, !S, D.
    replace (Datatypes.S (2 * Pos.to_nat p)) with (Datatypes.S (Pos.to_nat p + Pos.to_nat p)) by lia.
    reflexivity.
  - rewrite !IH, Pos2Nat.inj_xO, D. f_equal. lia.
  - reflexivity.
Qed.

Lemma shr_1_even (M : Z) :
  0 < M ->
  shr_1 {| shr_m := 2 * M; shr_r := false; shr_s := false |}
  = {| shr_m := M; shr_r := false; shr_s := false |}.
Proof. intros H. destruct M as [|p|p]; try lia. reflexivity. Qed.

Lemma shr_exact (n : nat) : forall M : Z,
  0 < M ->
  Nat.iter n shr_1 {| shr_m := M * 2 ^ Z.of_nat n; shr_r := false; shr_s := false |}
  = {| shr_m := M; shr_r := false; shr_s := false |}.
Proof.
  induction n as [|n IH]; intros M HM.
  - simpl. rewrite Z.mul_1_r. reflexivity.
  - rewrite Nat2Z.inj_succ, Z.pow_succ_r by lia. rewrite Nat.iter_succ.
    replace (M * (2 * 2 ^ Z.of_nat n)) with ((2 * M) * 2 ^ Z.of_nat n) by lia.
    rewrite IH by lia. apply shr_1_even, HM.
Qed.

Lemma shr_shift (M ex n : Z) :
  0 < M -> 0 <= n ->
  shr {| shr_m := M * 2 ^ n; shr_r := false; shr_s := false |} ex n
  = ({| shr_m := M; shr_r := false; shr_s := false |}, ex + n).
Proof.
  intros HM Hn. destruct n as [|p|p]; try lia.
  - simpl. rewrite Z.mul_1_r, Z.add_0_r. reflexivity.
  - cbn [shr]. rewrite iter_pos_nat.
    rewrite <- (positive_nat_Z p) at 1. rewrite shr_exact by exact HM. reflexivity.
Qed.

(** Rounding a number that has at most 53 significant bits changes
    nothing. *)
Lemma round_exact (m k e : Z) :
  0 < m -> Zdigits2 m <= 53 -> 0 <= k -> 53 - Zdigits2 m <= k ->
  -1000 <= e <= 900 ->
  binary_round_aux prec emax false (m * 2 ^ k) (e - k) loc_Exact = canon m e.
Proof.
  intros Hm Hd Hk Hdk He.
  destruct (Zdigits2_bounds m Hm) as [Hd0 _].
  set (d := Zdigits2 m) in *.
  set (M := m * 2 ^ (53 - d)).
  assert (HM : 0 < M) by (apply Z.mul_pos_pos; [lia | apply Z.pow_pos_nonneg; lia]).
  assert (HdM : Zdigits2 M = 53) by (unfold M; rewrite Zdigits2_shift by lia; fold d; lia).
  assert (Efexp : forall x, -1021 <= x -> fexp prec emax x = x - 53).
  { intros x Hx. unfold fexp, SpecFloat.emin, prec, emax.
    change IntDef.Z.max with Z.max. lia. }
  unfold binary_round_aux, shr_fexp.
  rewrite Zdigits2_shift by lia. fold d.
  rewrite Efexp by lia.
  replace (d + k + (e - k) - 53 - (e - k)) with (k - (53 - d)) by lia.
  cbn [shr_record_of_loc].
  replace (m * 2 ^ k) with (M * 2 ^ (k - (53 - d))).
  2:{ unfold M. rewrite <- Z.mul_assoc, <- Z.pow_add_r by lia. f_equal. f_equal. lia. }
  rewrite shr_shift by lia.
  cbn [shr_m loc_of_shr_record round_nearest_even].
  rewrite HdM, Efexp by lia.
  replace (53 + (e - k + (k - (53 - d))) - 53 - (e - k + (k - (53 - d)))) with 0 by lia.
  cbn [shr shr_m].
  destruct M as [|pM|pM] eqn:EM; try lia.
  replace (e - k + (k - (53 - d)) <=? emax - prec) with true
    by (symmetry; apply Z.leb_le; unfold emax, prec; lia).
  unfold canon. fold d. fold M. rewrite EM. f_equal. lia.
Qed.

Lemma fexp_small (x : Z) : -1021 <= x -> fexp prec emax x = x - 53.
Proof.
  intros Hx. unfold fexp, SpecFloat.emin, prec, emax.
  change IntDef.Z.max with Z.max. lia.
Qed.

Lemma iter_xO (p q : positive) : Zpos (Pos.iter xO p q) = Zpos p * 2 ^ Zpos q.
Proof.
  change (Pos.iter xO p q) with (shift_pos q p).
  rewrite shift_pos_correct, Zpower_pos_nat, Zpower_nat_Z, positive_nat_Z. lia.
Qed.

Lemma shl_align_value (m : positive) (e e' : Z) :
  e' <= e ->
  Zpos (fst (shl_align m e e')) = Zpos m * 2 ^ (e - e')
  /\ snd (shl_align m e e') = e'.
Proof.
  intros H. unfold shl_align.
  destruct (e' - e) as [|p|p] eqn:E; try lia; cbn [fst snd].
  - replace (e - e') with 0 by lia. split; lia.
  - rewrite iter_xO. replace (e - e') with (Zpos p) by lia. split; [reflexivity | lia].
Qed.

Lemma binary_round_exact (m : positive) (e : Z) :
  Zdigits2 (Zpos m) <= 53 -> -1000 <= e <= 900 ->
  binary_round prec emax false m e = canon (Zpos m) e.
Proof.
  intros Hd He. unfold binary_round.
  change (Zpos (digits2_pos m)) with (Zdigits2 (Zpos m)).
  destruct (Zdigits2_bounds (Zpos m) ltac:(lia)) as [Hd0 _].
  set (d := Zdigits2 (Zpos m)) in *.
  rewrite fexp_small by lia.
  destruct (shl_align_value m e (d + e - 53) ltac:(lia)) as [Hv He'].
  destruct (shl_align m e (d + e - 53)) as [mz ez]. cbn [fst snd] in Hv, He'. subst ez.
  rewrite Hv. replace (e - (d + e - 53)) with (53 - d) by lia.
  replace (d + e - 53) with (e - (53 - d)) by lia.
  apply round_exact; fold d; lia.
Qed.

Lemma to_Z_of_Z (a : Z) : 0 <= a < 2 ^ 53 -> Uint63.to_Z (Uint63.of_Z a) = a.
Proof.
  intros H. rewrite Uint63.of_Z_spec. apply Z.mod_small.
  change wB with (2 ^ 10 * 2 ^ 53).
  assert (0 < 2 ^ 53) by lia. lia.
Qed.

(** A positive integer below [2^53] is a binary64 number. *)
Lemma float_of_Z_spec (a : Z) :
  0 < a < 2 ^ 53 -> Prim2SF (float_of_Z a) = canon a 0.
Proof.
  intros H. unfold float_of_Z. rewrite of_uint63_spec, to_Z_of_Z by lia.
  destruct a as [|p|p]; try lia. cbn [binary_normalize].
  apply binary_round_exact; [apply Zdigits2_le; lia | lia].
Qed.

Lemma float_of_Z_0 : float_of_Z 0 = 0%float.
Proof. reflexivity. Qed.

(** Binary64 addition is exact on non-negative integers whose sum is
    below [2^53]. *)
Lemma add_exact (a b : Z) :
  0 <= a -> 0 <= b -> a + b < 2 ^ 53 ->
  (float_of_Z a + float_of_Z b)%float = float_of_Z (a + b).
Proof.
  intros Ha Hb Hab. apply Prim2SF_inj. rewrite FloatAxioms.add_spec.
  destruct (Z.eq_dec a 0) as [->|Ha0]; [|destruct (Z.eq_dec b 0) as [->|Hb0]].
  - rewrite Z.add_0_l. change (Prim2SF (float_of_Z 0)) with (S754_zero false).
    destruct (Z.eq_dec b 0) as [->|Hb0]; [reflexivity|].
    rewrite float_of_Z_spec by lia. reflexivity.
  - rewrite Z.add_0_r. change (Prim2SF (float_of_Z 0)) with (S754_zero false).
    rewrite float_of_Z_spec by lia. reflexivity.
  - rewrite !float_of_Z_spec by lia.
    destruct (Zdigits2_bounds a ltac:(lia)) as [Hda Ba].
    destruct (Zdigits2_bounds b ltac:(lia)) as [Hdb Bb].
    destruct (Zdigits2_bounds (a + b) ltac:(lia)) as [Hdc Bc].
    pose proof (Zdigits2_le a ltac:(lia) ltac:(lia)) as La.
    pose proof (Zdigits2_le b ltac:(lia) ltac:(lia)) as Lb.
    pose proof (Zdigits2_le (a + b) ltac:(lia) ltac:(lia)) as Lc.
    unfold canon at 1 2.
    set (da := Zdigits2 a) in *. set (db := Zdigits2 b) in *.
    set (dc := Zdigits2 (a + b)) in *.
    assert (Hac : da <= dc).
    { destruct (Z.le_gt_cases da dc) as [|G]; [assumption|].
      assert (2 ^ dc <= 2 ^ (da - 1)) by (apply Z.pow_le_mono_r; lia). lia. }
    assert (Hbc : db <= dc).
    { destruct (Z.le_gt_cases db dc) as [|G]; [assumption|].
      assert (2 ^ dc <= 2 ^ (db - 1)) by (apply Z.pow_le_mono_r; lia). lia. }
    assert (Pa : 0 < a * 2 ^ (53 - da))
      by (apply Z.mul_pos_pos; [lia | apply Z.pow_pos_nonneg; lia]).
    assert (Pb : 0 < b * 2 ^ (53 - db))
      by (apply Z.mul_pos_pos; [lia | apply Z.pow_pos_nonneg; lia]).
    unfold SF64add, SFadd. cbn [cond_Zopp].
    set (ea := 0 - (53 - da)). set (eb := 0 - (53 - db)).
    set (ez := Z.min ea eb).
    destruct (shl_align_value (Z.to_pos (a * 2 ^ (53 - da))) ea ez ltac:(unfold ez; lia))
      as [Hva _].
    destruct (shl_align_value (Z.to_pos (b * 2 ^ (53 - db))) eb ez ltac:(unfold ez; lia))
      as [Hvb _].
    rewrite Hva, Hvb, !Z2Pos.id by lia.
    replace (a * 2 ^ (53 - da) * 2 ^ (ea - ez) + b * 2 ^ (53 - db) * 2 ^ (eb - ez))
      with ((a + b) * 2 ^ (- ez)).
    2:{ rewrite Z.mul_add_distr_r, <- !Z.mul_assoc, <- !Z.pow_add_r by (unfold ea, eb, ez; lia).
        f_equal; f_equal; f_equal; unfold ea, eb; lia. }
    assert (Pc : 0 < (a + b) * 2 ^ (- ez))
      by (apply Z.mul_pos_pos; [lia | apply Z.pow_pos_nonneg; unfold ez, ea, eb; lia]).
    set (S := (a + b) * 2 ^ (- ez)) in *.
    rewrite <- (Z2Pos.id S Pc). cbn [binary_normalize]. unfold binary_round.
    change (Zpos (digits2_pos (Z.to_pos S))) with (Zdigits2 (Zpos (Z.to_pos S))).
    rewrite (Z2Pos.id S Pc).
    replace (Zdigits2 S) with (dc + - ez)
      by (unfold S; rewrite Zdigits2_shift by (unfold ez, ea, eb; lia); reflexivity).
    rewrite fexp_small by (unfold ez, ea, eb; lia).
    assert (E : shl_align (Z.to_pos S) ez (dc + - ez + ez - 53) = (Z.to_pos S, ez)).
    { unfold shl_align.
      destruct (dc + - ez + ez - 53 - ez) as [|q|q] eqn:Eq; try reflexivity.
      exfalso. unfold ez, ea, eb in Eq. lia. }
    rewrite E, (Z2Pos.id S Pc). unfold S.
    replace ez with (0 - (- ez)) at 2 by lia.
    apply round_exact; fold dc; unfold ez, ea, eb; lia.
Qed.

(** Binary64 division is exact when the quotient is half an integer
    below [2^53]. *)
Lemma div_exact_half (a b m : Z) :
  0 < a < 2 ^ 53 -> 0 < b < 2 ^ 53 -> 0 < m < 2 ^ 53 -> 2 * a = m * b ->
  Prim2SF (float_of_Z a / float_of_Z b)%float = canon m (-1).
Proof.
  intros Ha Hb Hm Hab. rewrite FloatAxioms.div_spec, !float_of_Z_spec by lia.
  destruct (Zdigits2_bounds a ltac:(lia)) as [Hda Ba].
  destruct (Zdigits2_bounds b ltac:(lia)) as [Hdb Bb].
  destruct (Zdigits2_bounds m ltac:(lia)) as [Hdm Bm].
  pose proof (Zdigits2_le a ltac:(lia) ltac:(lia)) as La.
  pose proof (Zdigits2_le b ltac:(lia) ltac:(lia)) as Lb.
  pose proof (Zdigits2_le m ltac:(lia) ltac:(lia)) as Lm.
  unfold canon at 1 2.
  set (da := Zdigits2 a) in *. set (db := Zdigits2 b) in *. set (dm := Zdigits2 m) in *.
  assert (Hdig : da <= dm + db - 1).
  { destruct (Z.le_gt_cases da (dm + db - 1)) as [|G]; [assumption|]. exfalso.
    assert (2 ^ (dm + db - 1) <= 2 ^ (da - 1)) by (apply Z.pow_le_mono_r; lia).
    assert (E : 2 ^ (dm + db - 1) * 2 = 2 ^ dm * 2 ^ db).
    { rewrite <- Z.pow_add_r by lia.
      replace (dm + db) with (Z.succ (dm + db - 1)) by lia.
      rewrite (Z.pow_succ_r 2 (dm + db - 1)) by lia.
      replace (Z.succ (dm + db - 1) - 1) with (dm + db - 1) by lia. lia. }
    assert (m * b < 2 ^ dm * 2 ^ db) by nia. lia. }
  set (mx := a * 2 ^ (53 - da)). set (my := b * 2 ^ (53 - db)).
  assert (Px : 0 < mx) by (apply Z.mul_pos_pos; [lia | apply Z.pow_pos_nonneg; lia]).
  assert (Py : 0 < my) by (apply Z.mul_pos_pos; [lia | apply Z.pow_pos_nonneg; lia]).
  assert (Dx : Zdigits2 mx = 53) by (unfold mx; rewrite Zdigits2_shift by lia; fold da; lia).
  assert (Dy : Zdigits2 my = 53) by (unfold my; rewrite Zdigits2_shift by lia; fold db; lia).
  set (Q := m * 2 ^ (52 - da + db)).
  assert (EQ : mx * 2 ^ 53 = Q * my).
  { unfold mx, my, Q.
    replace (m * 2 ^ (52 - da + db) * (b * 2 ^ (53 - db)))
      with ((m * b) * (2 ^ (52 - da + db) * 2 ^ (53 - db))) by lia.
    rewrite <- Hab, <- Z.pow_add_r by lia.
    replace (a * 2 ^ (53 - da) * 2 ^ 53) with (a * (2 ^ (53 - da) * 2 ^ 53)) by lia.
    rewrite <- Z.pow_add_r by lia.
    replace (52 - da + db + (53 - db)) with (105 - da) by lia.
    replace (53 - da + 53) with (Z.succ (105 - da)) by lia.
    rewrite Z.pow_succ_r by lia. lia. }
  unfold SF64div, SFdiv, SFdiv_core_binary.
  rewrite !Z2Pos.id by assumption. rewrite Dx, Dy.
  replace (53 + (0 - (53 - da)) - (53 + (0 - (53 - db)))) with (da - db) by lia.
  replace (0 - (53 - da) - (0 - (53 - db))) with (da - db) by lia.
  rewrite fexp_small by lia.
  change IntDef.Z.min with Z.min.
  replace (Z.min (da - db - 53) (da - db)) with (da - db - 53) by lia.
  replace (da - db - (da - db - 53)) with 53 by lia.
  change (IntDef.Z.shiftl mx 53) with (Z.shiftl mx 53).
  rewrite Z.shiftl_mul_pow2, EQ by lia.
  change IntDef.Z.div_eucl with Z.div_eucl.
  assert (Ediv : Z.div_eucl (Q * my) my = (Q, 0)).
  { pose proof (Z.div_mul Q my ltac:(lia)) as Eq.
    pose proof (Z.mod_mul Q my ltac:(lia)) as Er.
    unfold Z.div, Z.modulo in Eq, Er.
    destruct (Z.div_eucl (Q * my) my) as [q r]. cbn in Eq, Er. congruence. }
  rewrite Ediv.
  assert (Eloc : new_location my 0 = loc_Exact).
  { unfold new_location. destruct (IntDef.Z.even my); reflexivity. }
  rewrite Eloc. unfold Q.
  replace (da - db - 53) with (-1 - (52 - da + db)) by lia.
  apply round_exact; fold dm; lia.
Qed.

(** The average of the ranks: [float(N*(N-1)/2) / float(N)] is
    [float(N-1) / 2]. *)
Lemma avg_exact (N : Z) :
  0 < N -> N * (N - 1) / 2 < 2 ^ 53 ->
  (float_of_Z (N * (N - 1) / 2) / float_of_Z N)%float = (float_of_Z (N - 1) / 2)%float.
Proof.
  intros HN Hb.
  destruct (Z.eq_dec N 1) as [->|H1]; [reflexivity|].
  assert (E2 : 2 * (N * (N - 1) / 2) = N * (N - 1)).
  { destruct (Z.even (N * (N - 1))) eqn:Ev.
    - apply Z.even_spec in Ev. destruct Ev as [k Hk]. rewrite Hk.
      rewrite (Z.mul_comm 2 k), Z.div_mul by lia. lia.
    - rewrite Z.even_mul in Ev. apply Bool.orb_false_iff in Ev. destruct Ev as [E1 E3].
      rewrite Z.even_sub in E3. rewrite E1 in E3. discriminate E3. }
  assert (HN53 : N < 2 ^ 53) by nia.
  apply Prim2SF_inj.
  rewrite (div_exact_half (N * (N - 1) / 2) N (N - 1)) by nia.
  change 2%float with (float_of_Z 2).
  rewrite (div_exact_half (N - 1) 2 (N - 1)) by lia.
  reflexivity.
Qed.

Lemma Zsum_nonneg (zs : list Z) : List.Forall (fun z => 0 <= z) zs -> 0 <= Zsum zs.
Proof.
  induction 1 as [|z zs Hz _ IH]; simpl; [lia|]. simpl in IH. lia.
Qed.

(** A sum of non-negative integers whose exact value is below [2^53] is
    exact in binary64 along every order. *)
Lemma plan_sum_integers (t : plan) (zs : list Z) :
  List.Forall (fun z => 0 <= z) zs ->
  Zsum (map (fun i => nth i zs 0) (ranks_of t)) < 2 ^ 53 ->
  plan_sum t (map float_of_Z zs)
  = float_of_Z (Zsum (map (fun i => nth i zs 0) (ranks_of t))).
Proof.
  intros Hzs.
  assert (Hnth : forall i, 0 <= nth i zs 0).
  { intros i. destruct (nth_in_or_default i zs 0) as [Hin | ->]; [|lia].
    rewrite List.Forall_forall in Hzs. apply Hzs, Hin. }
  assert (Hpos : forall t', 0 <= Zsum (map (fun i => nth i zs 0) (ranks_of t'))).
  { intros t'. apply Zsum_nonneg, List.Forall_forall. intros z Hz.
    apply in_map_iff in Hz. destruct Hz as (i & <- & _). apply Hnth. }
  induction t as [i|l IHl r IHr]; cbn [plan_sum ranks_of]; intros Hb.
  - cbn [map Zsum fold_right]. rewrite Z.add_0_r.
    change 0%float with (float_of_Z 0). apply map_nth.
  - rewrite map_app, Zsum_app in Hb |- *.
    pose proof (Hpos l). pose proof (Hpos r).
    rewrite IHl, IHr by lia. apply add_exact; lia.
Qed.

Lemma real_sum_integers `{T : Transport} (zs : list Z) :
  (0 < length zs)%nat -> List.Forall (fun z => 0 <= z) zs -> Zsum zs < 2 ^ 53 ->
  real_sum (map float_of_Z zs) = float_of_Z (Zsum zs).
Proof.
  intros Hn Hzs Hb. unfold real_sum. rewrite List.length_map.
  assert (E : Zsum (map (fun i => nth i zs 0) (ranks_of (sum_order (length zs) 1 0)))
              = Zsum zs) by (apply Zsum_perm, values_of_order, Hn).
  rewrite plan_sum_integers by (rewrite ?E; assumption).
  rewrite E. reflexivity.
Qed.

(** ** allReduce on scalars *)

Lemma to_int32_ok (z : Z) : in_c_long z -> to_int32 z = inr (wrap32 z).
Proof.
  unfold in_c_long, to_int32. intros H.
  destruct (Z.leb_spec (- 2 ^ 63) z); [|lia].
  destruct (Z.ltb_spec z (2 ^ 63)); [|lia]. reflexivity.
Qed.

Lemma group_allReduce_int `{T : Transport} (ck : bool) (op : string) (p0 : heap * Z) (ps : list (heap * Z)) :
  Forall (fun p => in_c_long (snd p)) (p0 :: ps) ->
  group_allReduce ck op (int_payloads (p0 :: ps))
  = map (fun p => Some (fst p,
          if String.eqb (lower op) "sum"
          then inr (VInt (wrap32 (Zsum (map snd (p0 :: ps)))))
          else if String.eqb (lower op) "avg"
          then inr (VInt (wrap32 (Zsum (map snd (p0 :: ps)))
                          / Z.of_nat (length (p0 :: ps))))
          else inl (NotImplementedError
                 (format "Unknown operation *"
                    "* in MultipleSerialPDEsCollective.allReduce" (lower op)))))
        (p0 :: ps).
Proof.
  intros Hrange. unfold group_allReduce, int_payloads.
  rewrite List.length_map, map_map. cbn [fst snd].
  rewrite (launch_allreduce_int _ p0 ps (fun p => [wrap32 (snd p)])
             (fun N p receive =>
                if String.eqb (lower op) "sum"
                then Ret (fst p, inr (VInt (nth 0 receive 0)))
                else if String.eqb (lower op) "avg"
                then Ret (fst p, inr (VInt (nth 0 receive 0 / N)))
                else Ret (fst p, inl (NotImplementedError
                       (format "Unknown operation *"
                          "* in MultipleSerialPDEsCollective.allReduce" (lower op)))))
             (fun N p receive =>
                (fst p,
                 if String.eqb (lower op) "sum" then inr (VInt (nth 0 receive 0))
                 else if String.eqb (lower op) "avg"
                 then inr (VInt (nth 0 receive 0 / N))
                 else inl (NotImplementedError
                        (format "Unknown operation *"
                           "* in MultipleSerialPDEsCollective.allReduce" (lower op)))))).
  2:{ intros p Hp c. rewrite Forall_forall in Hrange.
      cbn [Grid.allReduce]. rewrite to_int32_ok.
      2:{ apply Hrange. apply list_elem_of_In. exact Hp. }
      reflexivity. }
  2:{ intros N p receive.
      destruct (String.eqb (lower op) "sum"); [reflexivity|].
      destruct (String.eqb (lower op) "avg"); reflexivity. }
  unfold Allreduce_SUM_INT.
  rewrite <- (map_map snd (fun z => [wrap32 z])), same_length_single.
  rewrite summed32_single. reflexivity.
Qed.

Lemma group_allReduce_float `{T : Transport} (ck : bool) (op : string)
  (p0 : heap * float) (ps : list (heap * float)) :
  group_allReduce ck op (float_payloads (p0 :: ps))
  = map (fun p => Some (fst p,
          if String.eqb (lower op) "sum"
          then inr (VFloat (real_sum (map snd (p0 :: ps))))
          else if String.eqb (lower op) "avg"
          then inr (VFloat (real_sum (map snd (p0 :: ps))
                            / float_of_Z (Z.of_nat (length (p0 :: ps))))%float)
          else inl (NotImplementedError
                 (format "Unknown operation *"
                    "* in MultipleSerialPDEsCollective.allReduce" (lower op)))))
        (p0 :: ps).
Proof.
  unfold group_allReduce, float_payloads.
  rewrite List.length_map, map_map. cbn [fst snd].
  rewrite (launch_allreduce_double _ p0 ps (fun p => [snd p])
             (fun N p receive =>
                if String.eqb (lower op) "sum"
                then Ret (fst p, inr (VFloat (nth 0 receive 0%float)))
                else if String.eqb (lower op) "avg"
                then Ret (fst p, inr (VFloat (nth 0 receive 0%float / float_of_Z N)%float))
                else Ret (fst p, inl (NotImplementedError
                       (format "Unknown operation *"
                          "* in MultipleSerialPDEsCollective.allReduce" (lower op)))))
             (fun N p receive =>
                (fst p,
                 if String.eqb (lower op) "sum"
                 then inr (VFloat (nth 0 receive 0%float))
                 else if String.eqb (lower op) "avg"
                 then inr (VFloat (nth 0 receive 0%float / float_of_Z N)%float)
                 else inl (NotImplementedError
                        (format "Unknown operation *"
                           "* in MultipleSerialPDEsCollective.allReduce" (lower op)))))).
  2:{ intros p Hp c. reflexivity. }
  2:{ intros N p receive.
      destruct (String.eqb (lower op) "sum"); [reflexivity|].
      destruct (String.eqb (lower op) "avg"); reflexivity. }
  unfold Allreduce_SUM_DOUBLE.
  rewrite <- (map_map snd (fun x => [x])), (same_length_single (fun x => x)).
  rewrite summed_single. reflexivity.
Qed.

Lemma world_S (n : nat) : world (S n) = world n ++ [Z.of_nat n].
Proof. unfold world. rewrite seq_S, map_app. reflexivity. Qed.

Lemma Zsum_world (n : nat) : 2 * Zsum (world n) = Z.of_nat n * (Z.of_nat n - 1).
Proof.
  induction n as [|n IH]; [reflexivity|].
  rewrite world_S, Zsum_app. simpl Zsum. lia.
Qed.

Lemma Zsum_world_half (n : nat) : Zsum (world n) = Z.of_nat n * (Z.of_nat n - 1) / 2.
Proof. rewrite <- Zsum_world. rewrite Z.mul_comm, Z.div_mul by lia. reflexivity. Qed.

Lemma avg_of_ranks (n : Z) : 0 < n -> n * (n - 1) / 2 / n = (n - 1) / 2.
Proof.
  intros Hn. rewrite Z.div_div by lia. rewrite (Z.mul_comm 2 n).
  rewrite <- Z.div_div by lia. rewrite (Z.mul_comm n (n - 1)), Z.div_mul by lia.
  reflexivity.
Qed.

(** Process [i] holds the integer [i]. *)
Lemma group_allReduce_int_ranks `{T : Transport} (ck : bool) (n : nat) (hs : Z -> heap) (op : string) :
  (0 < n)%nat -> Z.of_nat n * (Z.of_nat n - 1) / 2 < 2 ^ 31 ->
  group_allReduce ck op (int_payloads (map (fun i => (hs i, i)) (world n)))
  = map (fun i => Some (hs i,
          if String.eqb (lower op) "sum"
          then inr (VInt (Z.of_nat n * (Z.of_nat n - 1) / 2))
          else if String.eqb (lower op) "avg"
          then inr (VInt ((Z.of_nat n - 1) / 2))
          else inl (NotImplementedError
                 (format "Unknown operation *"
                    "* in MultipleSerialPDEsCollective.allReduce" (lower op)))))
        (world n).
Proof.
  intros Hn Hsum.
  assert (Hb : Z.of_nat n < 2 ^ 17).
  { destruct (Z.lt_ge_cases (Z.of_nat n) (2 ^ 17)) as [|Hge]; [assumption|].
    exfalso.
    assert (Hle : 2 ^ 17 * (2 ^ 17 - 1) <= Z.of_nat n * (Z.of_nat n - 1)) by nia.
    apply (Z.div_le_mono _ _ 2) in Hle; [|lia].
    change (2 ^ 17 * (2 ^ 17 - 1) / 2) with 8589869056 in Hle. lia. }
  assert (Hlow : 0 <= Z.of_nat n * (Z.of_nat n - 1) / 2).
  { apply Z.div_pos; [nia | lia]. }
  assert (Hw : exists q qs, map (fun i => (hs i, i)) (world n) = q :: qs).
  { destruct n as [|n]; [lia|]. eexists _, _. reflexivity. }
  destruct Hw as (q & qs & Hw). rewrite Hw.
  rewrite group_allReduce_int.
  2:{ rewrite <- Hw. apply Forall_forall. intros p Hp.
      apply list_elem_of_In, in_map_iff in Hp. destruct Hp as (i & <- & Hi).
      apply in_world in Hi. unfold in_c_long. cbn [snd].
      change (2 ^ 63) with 9223372036854775808.
      change (2 ^ 17) with 131072 in Hb. lia. }
  rewrite <- Hw. rewrite !map_map. cbn [fst snd]. rewrite map_id.
  rewrite List.length_map, length_world.
  rewrite Zsum_world_half, wrap32_small, avg_of_ranks by (unfold in_int32; lia).
  reflexivity.
Qed.

(** Process [i] holds the real [float(i)]: every partial sum of the
    ranks is an integer below [2^53], so the order is of no account. *)
Lemma group_allReduce_float_ranks `{T : Transport} (ck : bool) (n : nat) (hs : Z -> heap)
  (op : string) :
  (0 < n)%nat -> Z.of_nat n * (Z.of_nat n - 1) / 2 < 2 ^ 53 ->
  group_allReduce ck op (float_payloads (map (fun i => (hs i, float_of_Z i)) (world n)))
  = map (fun i => Some (hs i,
          if String.eqb (lower op) "sum"
          then inr (VFloat (float_of_Z (Z.of_nat n * (Z.of_nat n - 1) / 2)))
          else if String.eqb (lower op) "avg"
          then inr (VFloat (float_of_Z (Z.of_nat n - 1) / 2)%float)
          else inl (NotImplementedError
                 (format "Unknown operation *"
                    "* in MultipleSerialPDEsCollective.allReduce" (lower op)))))
        (world n).
Proof.
  intros Hn Hsum.
  assert (Hw : exists q qs, map (fun i => (hs i, float_of_Z i)) (world n) = q :: qs).
  { destruct n as [|n]; [lia|]. eexists _, _. reflexivity. }
  destruct Hw as (q & qs & Hw). rewrite Hw.
  rewrite group_allReduce_float.
  rewrite <- Hw. rewrite !map_map. cbn [fst snd].
  rewrite List.length_map, length_world.
  rewrite <- (map_map (fun i => i) float_of_Z), map_id.
  rewrite real_sum_integers.
  - rewrite Zsum_world_half, avg_exact by lia. reflexivity.
  - rewrite length_world. exact Hn.
  - apply List.Forall_forall. intros i Hi. apply in_world in Hi. lia.
  - rewrite Zsum_world_half. exact Hsum.
Qed.

(** C2 (as the code has it): on a collective group of [N] processes,
    [allReduce] of integer scalars, each within a C long (64 bits),
    returns on every process, under "sum", the sum of the [N] values
    wrapped to 32 bits, which is the exact sum whenever the exact sum is
    a 32-bit integer, and under "avg" that value floor-divided by [N]; of
    real scalars it returns the binary64 sum of the [N] values, each
    added once, in the order the transport adds them, and under "avg"
    that sum divided by [float(N)]. With the value [i] on process [i],
    "sum" gives [N*(N-1)/2] and "avg" gives [(N-1)//2] on every process
    as long as [N*(N-1)/2 < 2^31]; with [float(i)] on process [i], "sum"
    gives [float(N*(N-1)/2)] and "avg" gives [float(N-1)/2] on every
    process, whatever the order, as long as [N*(N-1)/2 < 2^53]. The heap
    of no process changes, and the operation name is read without regard
    to case. *)
Theorem allReduce_scalar `{T : Transport} (is_serial_check : bool) (op : string) :
  (forall (p0 : heap * Z) (ps : list (heap * Z)),
     Forall (fun p => in_c_long (snd p)) (p0 :: ps) ->
     let N := Z.of_nat (length (p0 :: ps)) in
     let exact := Zsum (map snd (p0 :: ps)) in
     (lower op = "sum"%string ->
      group_allReduce is_serial_check op (int_payloads (p0 :: ps))
      = map (fun p => Some (fst p, inr (VInt (wrap32 exact)))) (p0 :: ps))
     /\ (lower op = "avg"%string ->
         group_allReduce is_serial_check op (int_payloads (p0 :: ps))
         = map (fun p => Some (fst p, inr (VInt (wrap32 exact / N)))) (p0 :: ps))
     /\ (in_int32 exact -> wrap32 exact = exact))
  /\ (forall (p0 : heap * float) (ps : list (heap * float)),
        let N := Z.of_nat (length (p0 :: ps)) in
        let values := map snd (p0 :: ps) in
        let order := sum_order (length values) 1 0 in
        let total := plan_sum order values in
        ranks_of order ≡ₚ seq 0 (length values)
        /\ (lower op = "sum"%string ->
            group_allReduce is_serial_check op (float_payloads (p0 :: ps))
            = map (fun p => Some (fst p, inr (VFloat total))) (p0 :: ps))
        /\ (lower op = "avg"%string ->
            group_allReduce is_serial_check op (float_payloads (p0 :: ps))
            = map (fun p => Some (fst p, inr (VFloat (total / float_of_Z N)%float)))
                  (p0 :: ps)))
  /\ (forall (n : nat) (hs : Z -> heap),
        (0 < n)%nat -> Z.of_nat n * (Z.of_nat n - 1) / 2 < 2 ^ 31 ->
        let N := Z.of_nat n in
        let ps := int_payloads (map (fun i => (hs i, i)) (world n)) in
        (lower op = "sum"%string ->
         group_allReduce is_serial_check op ps
         = map (fun i => Some (hs i, inr (VInt (N * (N - 1) / 2)))) (world n))
        /\ (lower op = "avg"%string ->
            group_allReduce is_serial_check op ps
            = map (fun i => Some (hs i, inr (VInt ((N - 1) / 2)))) (world n)))
  /\ (forall (n : nat) (hs : Z -> heap),
        (0 < n)%nat -> Z.of_nat n * (Z.of_nat n - 1) / 2 < 2 ^ 53 ->
        let N := Z.of_nat n in
        let ps := float_payloads (map (fun i => (hs i, float_of_Z i)) (world n)) in
        (lower op = "sum"%string ->
         group_allReduce is_serial_check op ps
         = map (fun i => Some (hs i, inr (VFloat (float_of_Z (N * (N - 1) / 2)))))
               (world n))
        /\ (lower op = "avg"%string ->
            group_allReduce is_serial_check op ps
            = map (fun i => Some (hs i, inr (VFloat (float_of_Z (N - 1) / 2)%float)))
                  (world n))).
Proof.
  split; [|split; [|split]].
  - intros p0 ps Hrange N exact. split; [|split].
    + intros Hop. rewrite group_allReduce_int, Hop by exact Hrange. reflexivity.
    + intros Hop. rewrite group_allReduce_int, Hop by exact Hrange. reflexivity.
    + apply wrap32_small.
  - intros p0 ps N values order total. split; [|split].
    + apply sum_order_ranks. unfold values. simpl. lia.
    + intros Hop. rewrite group_allReduce_float, Hop. reflexivity.
    + intros Hop. rewrite group_allReduce_float, Hop. reflexivity.
  - intros n hs Hn Hsum N ps. split.
    + intros Hop. unfold ps. rewrite group_allReduce_int_ranks, Hop by assumption.
      reflexivity.
    + intros Hop. unfold ps. rewrite group_allReduce_int_ranks, Hop by assumption.
      reflexivity.
  - intros n hs Hn Hsum N ps. split.
    + intros Hop. unfold ps. rewrite group_allReduce_float_ranks, Hop by assumption.
      reflexivity.
    + intros Hop. unfold ps. rewrite group_allReduce_float_ranks, Hop by assumption.
      reflexivity.
Qed.

(** Four processes holding 0, 1, 2 and 3, under "Avg", on a transport
    that adds the two halves of the group first; and the three values
    0.1, 0.2 and 0.3 under "sum" on a transport that adds in rank order. *)
Lemma allReduce_scalar_witness :
  let T := pairwise in
  group_allReduce false "Avg"
    (int_payloads (map (fun i => (empty_heap, i)) (world 4)))
  = map (fun i => Some (empty_heap, inr (VInt 1))) (world 4)
  /\ group_allReduce false "Avg"
       (float_payloads (map (fun i => (empty_heap, float_of_Z i)) (world 4)))
     = map (fun i => Some (empty_heap, inr (VFloat 1.5))) (world 4)
  /\ group_allReduce (T := rank_order) false "sum"
       (float_payloads (map (fun x => (empty_heap, x)) [0.1; 0.2; 0.3]%float))
     = map (fun _ => Some (empty_heap, inr (VFloat (0.1 + 0.2 + 0.3)))) [0; 1; 2].
Proof.
  intros T.
  destruct (allReduce_scalar false "Avg") as (_ & _ & Hint & Hfloat).
  split; [|split].
  - apply (Hint 4%nat (fun _ => empty_heap)); [lia | vm_compute; reflexivity | reflexivity].
  - apply (Hfloat 4%nat (fun _ => empty_heap)); [lia | vm_compute; reflexivity | reflexivity].
  - destruct (allReduce_scalar (T := rank_order) false "sum") as (_ & Hreal & _).
    destruct (Hreal (empty_heap, 0.1%float)
                (map (fun x => (empty_heap, x)) [0.2; 0.3]%float)) as (_ & Hsum & _).
    apply Hsum. reflexivity.
Defined.

(** C2 as the spec words it fails for integers and for reals. Two
    processes that each hold [2^30] do not get the exact sum [2^31],
    which no 32-bit integer holds; they get [-2^31]. Four processes that
    hold [1e16], [0.0], [1.0] and [1.0], whose exact sum is [1e16 + 2], get
    [1e16] from a transport that adds in rank order and [1e16 + 2] from
    one that adds the two halves of the group first. And binary64 holds
    every integer only up to [2^53]: two processes that hold [2^53] and
    [1.0] get [2^53], as [2^53 + 1] is no binary64 number. *)
Lemma allReduce_exact_sum_counterexample :
  let ints := [(empty_heap, VInt (2 ^ 30)); (empty_heap, VInt (2 ^ 30))] in
  let reals := float_payloads (map (fun x => (empty_heap, x))
                 [10000000000000000%float; 0%float; 1%float; 1%float]) in
  let large := float_payloads (map (fun z => (empty_heap, float_of_Z z)) [2 ^ 53; 1]) in
  group_allReduce (T := rank_order) false "sum" ints
  = [Some (empty_heap, inr (VInt (- 2 ^ 31))); Some (empty_heap, inr (VInt (- 2 ^ 31)))]
  /\ group_allReduce (T := rank_order) false "sum" ints
     <> [Some (empty_heap, inr (VInt (2 ^ 30 + 2 ^ 30)));
         Some (empty_heap, inr (VInt (2 ^ 30 + 2 ^ 30)))]
  /\ group_allReduce (T := rank_order) false "sum" reals
     = map (fun _ => Some (empty_heap, inr (VFloat 10000000000000000))) reals
  /\ group_allReduce (T := pairwise) false "sum" reals
     = map (fun _ => Some (empty_heap, inr (VFloat 10000000000000002))) reals
  /\ 10000000000000000%float <> 10000000000000002%float
  /\ group_allReduce (T := rank_order) false "sum" large
     = map (fun _ => Some (empty_heap, inr (VFloat (float_of_Z (2 ^ 53))))) large
  /\ float_of_Z (2 ^ 53 + 1) = float_of_Z (2 ^ 53).
Proof.
  intros ints reals large.
  assert (E : group_allReduce (T := rank_order) false "sum" ints
              = [Some (empty_heap, inr (VInt (- 2 ^ 31)));
                 Some (empty_heap, inr (VInt (- 2 ^ 31)))]).
  { vm_compute. reflexivity. }
  split; [exact E|]. split.
  { rewrite E. intros H. vm_compute in H. discriminate H. }
  split; [vm_compute; reflexivity|]. split; [vm_compute; reflexivity|].
  split; [intros H; discriminate H|].
  split; vm_compute; reflexivity.
Qed.

(** ** allReduce on arrays and vectors *)

Lemma same_length_spec {A : Type} (x : list A) (rest : list (list A)) :
  same_length x rest = true <-> Forall (fun y => length y = length x) rest.
Proof.
  unfold same_length. rewrite forallb_forall, Forall_forall.
  split; intros H y Hy.
  - apply Nat.eqb_eq, H, list_elem_of_In, Hy.
  - apply Nat.eqb_eq, H, list_elem_of_In, Hy.
Qed.

Lemma length_summed `{T : Transport} (b0 : list float) (bs : list (list float)) :
  length (summed (b0 :: bs)) = length b0.
Proof. unfold summed. rewrite List.length_map, length_seq. reflexivity. Qed.

(** Position [j] of the reduced buffer is the sum of position [j] of the
    buffers of the ranks, each added once, in the order the transport
    adds that position. *)
Lemma summed_lookup `{T : Transport} (b0 : list float) (bs : list (list float)) (j : nat) :
  (j < length b0)%nat ->
  let order := sum_order (length (b0 :: bs)) (length b0) j in
  ranks_of order ≡ₚ seq 0 (length (b0 :: bs))
  /\ summed (b0 :: bs) !! j = Some (plan_sum order (position 0%float j (b0 :: bs))).
Proof.
  intros Hj order. split.
  - apply sum_order_ranks. simpl. lia.
  - unfold summed. cbn [hd].
    change (map ?f ?l) with (f <$> l) at 1.
    rewrite list_lookup_fmap, lookup_seq_lt by exact Hj. reflexivity.
Qed.

Lemma group_allReduce_ndarray `{T : Transport} (ck : bool) (op : string)
  (p0 : heap * positive) (ps : list (heap * positive)) :
  group_allReduce ck op (array_payloads (p0 :: ps))
  = match Allreduce_SUM_DOUBLE (buffer_of p0) (map buffer_of ps) with
    | Some receive =>
        map (fun p => Some (
          if String.eqb (lower op) "sum"
          then (set_array (fst p) (snd p) receive, inr (VArray (snd p)))
          else if String.eqb (lower op) "avg"
          then (fst p, inr (VArray (snd p)))
          else (fst p, inl (NotImplementedError
                 (format "Unknown operation *"
                    "* in MultipleSerialPDEsCollective.allReduce" (lower op))))))
          (p0 :: ps)
    | None => map (fun _ => None) (p0 :: ps)
    end.
Proof.
  unfold group_allReduce, array_payloads.
  rewrite List.length_map, map_map. cbn [fst snd].
  rewrite (launch_allreduce_double _ p0 ps buffer_of
           (fun N p receive =>
              if String.eqb (lower op) "sum"
              then Ret (set_array (fst p) (snd p) receive, inr (VArray (snd p)))
              else if String.eqb (lower op) "avg"
              then Ret (fst p, inr (VArray (snd p)))
              else Ret (fst p, inl (NotImplementedError
                     (format "Unknown operation *"
                        "* in MultipleSerialPDEsCollective.allReduce" (lower op)))))
           (fun N p receive =>
              if String.eqb (lower op) "sum"
              then (set_array (fst p) (snd p) receive, inr (VArray (snd p)))
              else if String.eqb (lower op) "avg"
              then (fst p, inr (VArray (snd p)))
              else (fst p, inl (NotImplementedError
                     (format "Unknown operation *"
                        "* in MultipleSerialPDEsCollective.allReduce" (lower op)))))).
  - reflexivity.
  - intros p Hp c. reflexivity.
  - intros N p receive.
    destruct (String.eqb (lower op) "sum"); [reflexivity|].
    destruct (String.eqb (lower op) "avg"); reflexivity.
Qed.

(** C3 (what the code does): under "avg" the array branch compares [v[:]]
    with the scaled sum instead of assigning it, so on every process the
    buffer passed in is handed back with its contents as they were; it
    does not hold the sum divided by [N]. *)
Theorem allReduce_ndarray_avg_keeps_buffer `{T : Transport} (is_serial_check : bool) (op : string)
  (p0 : heap * positive) (ps : list (heap * positive)) :
  lower op = "avg"%string ->
  Forall (fun p => length (buffer_of p) = length (buffer_of p0)) ps ->
  group_allReduce is_serial_check op (array_payloads (p0 :: ps))
  = map (fun p => Some (fst p, inr (VArray (snd p)))) (p0 :: ps).
Proof.
  intros Hop Hlen. rewrite group_allReduce_ndarray. unfold Allreduce_SUM_DOUBLE.
  replace (same_length (buffer_of p0) (map buffer_of ps)) with true.
  2:{ symmetry. apply same_length_spec. apply Forall_fmap. exact Hlen. }
  rewrite Hop. reflexivity.
Qed.

(** Two processes whose arrays hold [1.0] and [3.0]: after "avg" they
    still hold [1.0] and [3.0], not the average [2.0]. *)
Lemma allReduce_ndarray_avg_keeps_buffer_witness :
  let T := rank_order in
  let h1 := set_array empty_heap 1 [1%float] in
  let h2 := set_array empty_heap 1 [3%float] in
  group_allReduce false "avg" (array_payloads [(h1, 1%positive); (h2, 1%positive)])
  = [Some (h1, inr (VArray 1)); Some (h2, inr (VArray 1))]
  /\ get_array h1 1 = [1%float] /\ get_array h2 1 = [3%float]
  /\ map (fun r => (r / float_of_Z 2)%float) (vsum [1%float] [[3%float]]) = [2%float].
Proof.
  intros T.
  intros h1 h2. split.
  - apply (allReduce_ndarray_avg_keeps_buffer false "avg" (h1, 1%positive) [(h2, 1%positive)]).
    + reflexivity.
    + repeat constructor.
  - repeat split; reflexivity.
Defined.

Lemma serial_check_passes (ck : bool) (p : heap * positive) :
  passes_serial_check ck p ->
  (ck && negb (Z.eqb (owner_size (get_vector (fst p) (snd p))) 1))%bool = false.
Proof.
  intros [-> | ->]; [reflexivity|]. apply andb_false_r.
Qed.

Lemma group_allReduce_vector `{T : Transport} (ck : bool) (op : string)
  (p0 : heap * positive) (ps : list (heap * positive)) :
  Forall (passes_serial_check ck) (p0 :: ps) ->
  group_allReduce ck op (vector_payloads (p0 :: ps))
  = match Allreduce_SUM_DOUBLE (segment_of p0) (map segment_of ps) with
    | Some receive =>
        map (fun p => Some (
          let x := get_vector (fst p) (snd p) in
          let scaled :=
            if String.eqb (lower op) "sum" then inr receive
            else if String.eqb (lower op) "avg" then
              inr (map (fun r => (r * (1 / float_of_Z (Z.of_nat (length (p0 :: ps)))))%float)
                       receive)
            else inl (NotImplementedError
                   (format "Unknown operation *"
                      "* in MultipleSerialPDEsCollective.allReduce" (lower op))) in
          match scaled with
          | inl e => (fst p, inl e)
          | inr values =>
              match set_local x values with
              | inl e => (fst p, inl e)
              | inr x' => (put_vector (fst p) (snd p) (apply x'), inr (VVector (snd p)))
              end
          end))
          (p0 :: ps)
    | None => map (fun _ => None) (p0 :: ps)
    end.
Proof.
  intros Hcheck. unfold group_allReduce, vector_payloads.
  rewrite List.length_map, map_map. cbn [fst snd].
  rewrite (launch_allreduce_double _ p0 ps segment_of
           (fun N p receive =>
              let x := get_vector (fst p) (snd p) in
              let scaled :=
                if String.eqb (lower op) "sum" then inr receive
                else if String.eqb (lower op) "avg" then
                  inr (map (fun r => (r * (1 / float_of_Z N))%float) receive)
                else inl (NotImplementedError
                       (format "Unknown operation *"
                          "* in MultipleSerialPDEsCollective.allReduce" (lower op))) in
              match scaled with
              | inl e => Ret (fst p, inl e)
              | inr values =>
                  match set_local x values with
                  | inl e => Ret (fst p, inl e)
                  | inr x' => Ret (put_vector (fst p) (snd p) (apply x'), inr (VVector (snd p)))
                  end
              end)
           (fun N p receive =>
              let x := get_vector (fst p) (snd p) in
              let scaled :=
                if String.eqb (lower op) "sum" then inr receive
                else if String.eqb (lower op) "avg" then
                  inr (map (fun r => (r * (1 / float_of_Z N))%float) receive)
                else inl (NotImplementedError
                       (format "Unknown operation *"
                          "* in MultipleSerialPDEsCollective.allReduce" (lower op))) in
              match scaled with
              | inl e => (fst p, inl e)
              | inr values =>
                  match set_local x values with
                  | inl e => (fst p, inl e)
                  | inr x' => (put_vector (fst p) (snd p) (apply x'), inr (VVector (snd p)))
                  end
              end)).
  - reflexivity.
  - intros p Hp c. cbn [Grid.allReduce Grid.is_serial_check].
    rewrite serial_check_passes; [reflexivity|].
    rewrite Forall_forall in Hcheck. apply Hcheck, list_elem_of_In, Hp.
  - intros N p receive. cbv zeta.
    destruct (String.eqb (lower op) "sum").
    + destruct (set_local _ _); reflexivity.
    + destruct (String.eqb (lower op) "avg"); [|reflexivity].
      destruct (set_local _ _); reflexivity.
Qed.

Lemma set_local_ok (x : Vector) (values : list float) :
  length values = length (local x) ->
  set_local x values = inr (mkVector values (owner_size x) (applied x)).
Proof.
  intros H. unfold set_local. rewrite H, Nat.eqb_refl. reflexivity.
Qed.

Lemma length_reduced_segment `{T : Transport} (op : string) (N : Z)
  (b0 : list float) (bs : list (list float)) :
  length (reduced_segment op N b0 bs) = length b0.
Proof.
  unfold reduced_segment.
  destruct (String.eqb (lower op) "sum"); [|rewrite List.length_map]; apply length_summed.
Qed.

Lemma group_allReduce_vector_ok `{T : Transport} (ck : bool) (op : string)
  (p0 : heap * positive) (ps : list (heap * positive)) :
  lower op = "sum"%string \/ lower op = "avg"%string ->
  Forall (passes_serial_check ck) (p0 :: ps) ->
  aligned (p0 :: ps) ->
  group_allReduce ck op (vector_payloads (p0 :: ps))
  = map (fun p => Some (written_back p (reduced_values op (p0 :: ps)), inr (VVector (snd p))))
        (p0 :: ps).
Proof.
  intros Hop Hcheck Hlen. cbn [aligned] in Hlen.
  assert (Hlen' : Forall (fun y => length y = length (segment_of p0)) (map segment_of ps))
    by (apply Forall_fmap; exact Hlen).
  rewrite group_allReduce_vector by exact Hcheck.
  unfold Allreduce_SUM_DOUBLE.
  replace (same_length (segment_of p0) (map segment_of ps)) with true
    by (symmetry; apply same_length_spec; exact Hlen').
  apply map_ext_in. intros p Hp. f_equal. cbv zeta.
  assert (Hp' : length (segment_of p) = length (segment_of p0)).
  { destruct Hp as [<-|Hp]; [reflexivity|].
    rewrite Forall_forall in Hlen. apply Hlen, list_elem_of_In, Hp. }
  set (N := Z.of_nat (length (p0 :: ps))).
  assert (E : (if String.eqb (lower op) "sum"
               then inr (summed (segment_of p0 :: map segment_of ps))
               else if String.eqb (lower op) "avg"
               then inr (map (fun r => (r * (1 / float_of_Z N))%float)
                           (summed (segment_of p0 :: map segment_of ps)))
               else inl (NotImplementedError
                      (format "Unknown operation *"
                         "* in MultipleSerialPDEsCollective.allReduce" (lower op))))
              = (inr (reduced_values op (p0 :: ps)) : result (list float))).
  { unfold reduced_values, reduced_segment. fold N.
    destruct Hop as [-> | ->]; reflexivity. }
  rewrite E.
  rewrite set_local_ok.
  2:{ unfold reduced_values. rewrite length_reduced_segment.
      symmetry. exact Hp'. }
  reflexivity.
Qed.

Lemma written_back_vector (p : heap * positive) (values : list float) :
  get_vector (written_back p values) (snd p)
  = mkVector values (owner_size (get_vector (fst p) (snd p)))
             (S (applied (get_vector (fst p) (snd p)))).
Proof.
  unfold written_back, get_vector, put_vector. cbn [vectors].
  rewrite lookup_insert_eq. reflexivity.
Qed.

Lemma written_back_other (p : heap * positive) (values : list float) (a : positive) :
  a <> snd p -> vectors (written_back p values) !! a = vectors (fst p) !! a.
Proof.
  intros Ha. unfold written_back, put_vector. cbn [vectors].
  rewrite lookup_insert_ne by congruence. reflexivity.
Qed.

(** C4 (as the code has it): for vectors that pass the optional serial
    check (the check is off, or the vector's own communicator has one
    process) and whose local segments have one length over the group,
    [allReduce] with "sum" or "avg" replaces the local segment of each
    process by the elementwise sum of the segments of the group,
    multiplied by [1/N] under "avg", calls [apply] once on the vector, and
    returns the same vector; position [j] of the sum is the binary64 sum
    of position [j] of the segments of the ranks, each added once, in the
    order the transport adds them. *)
Theorem allReduce_vector `{T : Transport} (is_serial_check : bool) (op : string)
  (p0 : heap * positive) (ps : list (heap * positive)) :
  lower op = "sum"%string \/ lower op = "avg"%string ->
  Forall (passes_serial_check is_serial_check) (p0 :: ps) ->
  Forall (fun p => length (segment_of p) = length (segment_of p0)) ps ->
  let N := Z.of_nat (length (p0 :: ps)) in
  let values := reduced_segment op N (segment_of p0) (map segment_of ps) in
  group_allReduce is_serial_check op (vector_payloads (p0 :: ps))
  = map (fun p => Some (written_back p values, inr (VVector (snd p)))) (p0 :: ps)
  /\ (forall p, In p (p0 :: ps) ->
        let h' := written_back p values in
        local (get_vector h' (snd p)) = values
        /\ applied (get_vector h' (snd p)) = S (applied (get_vector (fst p) (snd p)))
        /\ owner_size (get_vector h' (snd p)) = owner_size (get_vector (fst p) (snd p))
        /\ arrays h' = arrays (fst p)
        /\ forall a, a <> snd p -> vectors h' !! a = vectors (fst p) !! a)
  /\ (forall j, (j < length (segment_of p0))%nat ->
        let order := sum_order (length (p0 :: ps)) (length (segment_of p0)) j in
        ranks_of order ≡ₚ seq 0 (length (p0 :: ps))
        /\ summed (map segment_of (p0 :: ps)) !! j
           = Some (plan_sum order (map (fun p => nth j (segment_of p) 0%float) (p0 :: ps)))).
Proof.
  intros Hop Hcheck Hlen N values.
  split; [|split].
  - apply (group_allReduce_vector_ok _ _ _ _ Hop Hcheck Hlen).
  - intros p Hp h'. unfold h'. rewrite written_back_vector.
    cbn [local applied owner_size].
    repeat split; try reflexivity.
    intros a Ha. apply written_back_other, Ha.
  - intros j Hj.
    pose proof (summed_lookup (segment_of p0) (map segment_of ps) j Hj) as H.
    cbv zeta in H. unfold position in H. cbn [length] in H |- *.
    rewrite List.length_map in H.
    change (segment_of p0 :: map segment_of ps) with (map segment_of (p0 :: ps)) in H.
    rewrite map_map in H. exact H.
Qed.

(** Two processes with the segments [1.0; 2.0] and [3.0; 6.0], under
    "avg". *)
Lemma allReduce_vector_witness :
  let T := rank_order in
  let p0 := (put_vector empty_heap 1 (mkVector [1%float; 2%float] 1 0), 1%positive) in
  let p1 := (put_vector empty_heap 1 (mkVector [3%float; 6%float] 1 0), 1%positive) in
  group_allReduce true "avg" (vector_payloads [p0; p1])
  = [Some (put_vector empty_heap 1 (mkVector [2%float; 4%float] 1 1), inr (VVector 1));
     Some (put_vector empty_heap 1 (mkVector [2%float; 4%float] 1 1), inr (VVector 1))].
Proof.
  intros T p0 p1.
  destruct (allReduce_vector true "avg" p0 [p1]) as [E _].
  - right. reflexivity.
  - repeat constructor; right; reflexivity.
  - repeat constructor.
  - rewrite E. vm_compute. reflexivity.
Defined.

(** C4 as the spec words it fails when the serial check is on and the
    vector is itself partitioned over two processes: the call ends in the
    [AssertionError] of the check and the vector is left as it was. *)
Lemma allReduce_vector_serial_check_counterexample :
  let T := rank_order in
  let h := put_vector empty_heap 1 (mkVector [1%float] 2 0) in
  group_allReduce true "sum" [(h, VVector 1)] = [Some (h, inl AssertionError)]
  /\ ~ (exists h', group_allReduce true "sum" [(h, VVector 1)]
                   = [Some (h', inr (VVector 1))]).
Proof.
  intros T.
  intros h.
  assert (E : group_allReduce true "sum" [(h, VVector 1)] = [Some (h, inl AssertionError)])
    by (vm_compute; reflexivity).
  split; [exact E|]. intros [h' H]. rewrite E in H. discriminate H.
Qed.

(** ** Errors of allReduce and bcast *)

Lemma pyval_nested_ind (P : pyval -> Prop) :
  (forall x, P (VFloat x)) -> (forall z, P (VInt z)) ->
  (forall a, P (VArray a)) -> (forall a, P (VVector a)) ->
  (forall es, Forall P es -> P (VMulti es)) ->
  (forall ty, P (VOther ty)) ->
  forall v, P v.
Proof.
  intros Hf Hi Ha Hv Hm Ho. fix IH 1. intros [x|z|a|a|es|ty].
  - apply Hf.
  - apply Hi.
  - apply Ha.
  - apply Hv.
  - apply Hm. induction es as [|e es IHes]; constructor; [apply IH | apply IHes].
  - apply Ho.
Qed.

Lemma lower_ascii_idem (c : ascii) : lower_ascii (lower_ascii c) = lower_ascii c.
Proof.
  destruct c as [[] [] [] [] [] [] [] []]; reflexivity.
Qed.

Lemma lower_idem (s : string) : lower (lower s) = lower s.
Proof.
  induction s as [|c s IH]; simpl; [reflexivity|].
  rewrite lower_ascii_idem, IH. reflexivity.
Qed.

Lemma allReduce_multi (self : Grid.t) (es : list pyval) (op : string) (h : heap) :
  Grid.allReduce self (VMulti es) op h
  = allReduce_entries self (lower op) (VMulti es) es h.
Proof.
  reflexivity.
Qed.

Lemma allReduce_entries_cons (self : Grid.t) (op : string) (v e : pyval)
  (es : list pyval) (h : heap) :
  allReduce_entries self op v (e :: es) h
  = bind (Grid.allReduce self e op h) (Grid.next_entry (allReduce_entries self op v es)).
Proof. reflexivity. Qed.

Lemma may_return_Ret {A : Type} (a b : A) : may_return (Ret a) b -> b = a.
Proof. intros H. inversion H. reflexivity. Qed.

Lemma may_return_Call {A : Type} (e : event) (k : response -> prog A) (b : A) :
  may_return (Call e k) b -> exists r, may_return (k r) b.
Proof. intros H. inversion H; subst. eauto. Qed.

Lemma may_return_bind {A B : Type} (p : prog A) (f : A -> prog B) (b : B) :
  may_return (bind p f) b -> exists a, may_return p a /\ may_return (f a) b.
Proof.
  induction p as [a|e k IH]; simpl; intros H.
  - exists a. split; [constructor | exact H].
  - apply may_return_Call in H. destruct H as [r H].
    destruct (IH r H) as (a & Ha & Hb). exists a. split; [|exact Hb].
    econstructor. exact Ha.
Qed.

Lemma may_return_AllreduceDouble {A : Type} s (k : list float -> prog A) (b : A) :
  may_return (AllreduceDouble s k) b -> exists receive, may_return (k receive) b.
Proof. intros H. apply may_return_Call in H. destruct H as [r H]. eauto. Qed.

Lemma may_return_AllreduceInt {A : Type} s (k : list Z -> prog A) (b : A) :
  may_return (AllreduceInt s k) b -> exists receive, may_return (k receive) b.
Proof. intros H. apply may_return_Call in H. destruct H as [r H]. eauto. Qed.

Lemma may_return_Bcast {A : Type} o root (k : wire -> prog A) (b : A) :
  may_return (Bcast o root k) b -> exists w, may_return (k w) b.
Proof. intros H. apply may_return_Call in H. destruct H as [r H]. eauto. Qed.






Lemma str_in_sum_avg (s : string) :
  str_in s ["sum"; "avg"]%string = (String.eqb s "sum" || String.eqb s "avg")%bool.
Proof. unfold str_in. simpl. rewrite orb_false_r. reflexivity. Qed.




(** C8 (what the code does): for a payload of no supported kind, both
    [allReduce] and [bcast] of the Grid variant reach
    [if is_serial_check:], where the name [is_serial_check] (written
    without [self.]) is bound nowhere; the call ends in a [NameError]
    about that name, for every type of payload alike, and the
    [NotImplementedError] that names the type is never built. *)
Theorem unsupported_payload_raises_NameError
  (self : Grid.t) (type_name op : string) (root : Z) (h : heap) :
  Grid.allReduce self (VOther type_name) op h
  = Ret (h, inl (NameError "name 'is_serial_check' is not defined"))
  /\ Grid.bcast self (VOther type_name) root h
     = Ret (h, inl (NameError "name 'is_serial_check' is not defined"))
  /\ (forall o msg, may_return (Grid.allReduce self (VOther type_name) op h) o ->
                    snd o <> inl (NotImplementedError msg))
  /\ (forall o msg, may_return (Grid.bcast self (VOther type_name) root h) o ->
                    snd o <> inl (NotImplementedError msg)).
Proof.
  split; [reflexivity|]. split; [reflexivity|]. split.
  - intros o msg Hret. cbn in Hret. apply may_return_Ret in Hret. subst o. discriminate.
  - intros o msg Hret. cbn in Hret. apply may_return_Ret in Hret. subst o. discriminate.
Qed.

(** ** bcast on scalars and arrays *)

Lemma unpickle_extends (h : heap) (w : wire) :
  extends h (fst (Grid.unpickle h w)) /\
  holds_value h (fst (Grid.unpickle h w)) (snd (Grid.unpickle h w)) w.
Proof.
  destruct w as [x|z|xs]; cbn [Grid.unpickle fst snd holds_value].
  - split; [split; [reflexivity | tauto] | reflexivity].
  - split; [split; [reflexivity | tauto] | reflexivity].
  - pose proof (is_fresh (dom (arrays h))) as Hfresh.
    split; [split; [reflexivity|] |].
    + intros a ys Ha. cbn [set_array arrays].
      rewrite lookup_insert_ne; [exact Ha|].
      intros <-. apply Hfresh. apply elem_of_dom. eauto.
    + exists (fresh (dom (arrays h))). split; [reflexivity|]. split.
      * apply not_elem_of_dom. exact Hfresh.
      * unfold get_array, set_array. cbn [arrays]. rewrite lookup_insert_eq. reflexivity.
Qed.

Lemma bcast_scalar_or_buffer_body (self : Grid.t) (p : heap * pyval) (root : Z) :
  scalar_or_buffer (snd p) ->
  Grid.bcast self (snd p) root (fst p)
  = comm_bcast (Grid.comm self) (pickle p) root (fun e => Ret (fst p, inl e))
      (fun w => Ret (Grid.unpickle (fst p) w)).
Proof. destruct p as [h [x|z|a|a|es|ty]]; simpl; intros H; try contradiction; reflexivity. Qed.

(** C10: [bcast] of a scalar or an array never writes into what the
    caller holds. Whatever the transport delivers to a process, the heap
    it is left with holds every array and vector it held, unchanged, and
    the value returned is the delivered one, an array being a new object.
    In a group whose processes all pass scalars or arrays and the same
    root, a rank of the group, every process returns the value the root
    passed. *)
Theorem bcast_scalar_or_buffer_frame `{T : Transport} (is_serial_check : bool) (root : Z)
  (p0 : heap * pyval) (ps : list (heap * pyval)) (w : wire) :
  Forall (fun p => scalar_or_buffer (snd p)) (p0 :: ps) ->
  0 <= root ->
  map pickle (p0 :: ps) !! Z.to_nat root = Some w ->
  group_bcast is_serial_check root (p0 :: ps)
  = map (fun p => Some (Grid.unpickle (fst p) w)) (p0 :: ps)
  /\ (forall p, In p (p0 :: ps) ->
        extends (fst p) (fst (Grid.unpickle (fst p) w))
        /\ holds_value (fst p) (fst (Grid.unpickle (fst p) w))
                       (snd (Grid.unpickle (fst p) w)) w)
  /\ (forall self p o,
        scalar_or_buffer (snd p) ->
        may_return (Grid.bcast self (snd p) root (fst p)) o ->
        extends (fst p) (fst o)).
Proof.
  intros Hkind Hroot Hw. split; [|split].
  - unfold group_bcast.
    apply (launch_bcast _ p0 ps pickle root
             (fun p e => Ret (fst p, inl e))
             (fun p w => Ret (Grid.unpickle (fst p) w))
             (fun p w => Grid.unpickle (fst p) w) w).
    + intros p Hp c. apply bcast_scalar_or_buffer_body.
      rewrite Forall_forall in Hkind. apply Hkind, list_elem_of_In, Hp.
    + reflexivity.
    + exact Hroot.
    + exact Hw.
  - intros p _. apply unpickle_extends.
  - intros self p o Hp Hret. rewrite bcast_scalar_or_buffer_body in Hret by exact Hp.
    apply may_return_comm_bcast in Hret. destruct Hret as [[e Hret] | [w' Hret]];
      apply may_return_Ret in Hret; subst o; [|apply unpickle_extends].
    split; [reflexivity | tauto].
Qed.

(** Two processes with the arrays [1.0] and [3.0], root 1: both return a
    new array holding [3.0], and their own arrays are as they were. *)
Lemma bcast_scalar_or_buffer_frame_witness :
  let T := rank_order in
  let h0 := set_array empty_heap 1 [1%float] in
  let h1 := set_array empty_heap 1 [3%float] in
  group_bcast false 1 [(h0, VArray 1); (h1, VArray 1)]
  = [Some (set_array h0 2 [3%float], inr (VArray 2));
     Some (set_array h1 2 [3%float], inr (VArray 2))]
  /\ get_array (set_array h0 2 [3%float]) 1 = [1%float]
  /\ get_array (set_array h1 2 [3%float]) 1 = [3%float].
Proof.
  intros T.
  intros h0 h1.
  destruct (bcast_scalar_or_buffer_frame false 1 (h0, VArray 1) [(h1, VArray 1)]
              (WArray [3%float])) as (E & _ & _).
  - repeat constructor.
  - lia.
  - reflexivity.
  - split; [|split; reflexivity]. rewrite E. vm_compute. reflexivity.
Defined.

(** ** The consistency checker *)

Section ConsistencyCheckerProperties.

Variables Mesh FunctionSpace Function : Type.
Variable FunctionSpace_ : Mesh -> string -> Z -> FunctionSpace.
Variable interpolate_Constant : float -> FunctionSpace -> Function.
Variable collective_bcast : collective_obj -> Function -> Z -> prog (result Function).
Variable diff_norm_l2 : Function -> Function -> result float.
Variable comm_world_attrs : list string.
Variable comm_world_allReduce : bool -> bool -> prog (result unit).

Local Abbreviation check_space :=
  (checkFunctionSpaceConsistentPartitioning FunctionSpace Function
     interpolate_Constant collective_bcast diff_norm_l2
     comm_world_attrs comm_world_allReduce).

Local Abbreviation check_mesh :=
  (checkMeshConsistentPartitioning Mesh FunctionSpace Function FunctionSpace_
     interpolate_Constant collective_bcast diff_norm_l2
     comm_world_attrs comm_world_allReduce).

Lemma check_space_collective (Vh : FunctionSpace) (collective : collective_obj) :
  collective = ONull \/ (exists self, collective = OGrid self) ->
  check_space Vh collective
  = Ret (inl (TypeError "float() argument must be a string or a number, not 'method'")).
Proof. intros [-> | [self ->]]; reflexivity. Qed.

Lemma check_space_root (Vh : FunctionSpace) (c : Comm) :
  Get_rank c = 0 ->
  check_space Vh (OComm c) = Ret (inl (NameError "name 'mesh' is not defined")).
Proof.
  intros Hrank. unfold checkFunctionSpaceConsistentPartitioning.
  cbn [getattr_rank py_float eq_zero]. rewrite Hrank. reflexivity.
Qed.

Lemma check_space_result (Vh : FunctionSpace) (collective : collective_obj)
  (o : result bool) :
  may_return (check_space Vh collective) o ->
  o <> inr true
  /\ (str_in "allReduce" comm_world_attrs = false -> forall b, o <> inr b).
Proof.
  unfold checkFunctionSpaceConsistentPartitioning. intros H.
  destruct (py_float (getattr_rank collective)) as [e|r].
  { apply may_return_Ret in H. subst o. split; [|intros _ b]; discriminate. }
  destruct (if eq_zero (getattr_rank collective) then _ else _) as [e|root_v].
  { apply may_return_Ret in H. subst o. split; [|intros _ b]; discriminate. }
  apply may_return_bind in H. destruct H as (sent & _ & H).
  destruct sent as [e|root_v'].
  { apply may_return_Ret in H. subst o. split; [|intros _ b]; discriminate. }
  destruct (diff_norm_l2 _ _) as [e|norm].
  { apply may_return_Ret in H. subst o. split; [|intros _ b]; discriminate. }
  destruct (str_in "allReduce" comm_world_attrs).
  - cbn [negb] in H. apply may_return_bind in H. destruct H as (called & _ & H).
    destruct called as [e|[]]; apply may_return_Ret in H; subst o;
      (split; [discriminate | intros E; discriminate E]).
  - cbn [negb] in H. apply may_return_Ret in H. subst o.
    split; [|intros _ b]; discriminate.
Qed.

(** C9 (what the code does): the checker cannot return [true]. Passed one
    of the two collectives, it fails on its first line, since [rank] is a
    method of theirs and [float] of a method is a [TypeError]; passed a
    bare communicator, the process of rank 0 fails on the unbound name
    [mesh]; a process that gets further finds no [allReduce] on an
    [mpi4py] communicator, and were there one, the function would return
    the local [tests_passed_everywhere], which is bound to [False] and
    never bound again. The same holds for the mesh checker built on it. *)
Theorem checker_never_returns_true (Vh : FunctionSpace) (mesh : Mesh)
  (collective : collective_obj) :
  (forall o, may_return (check_space Vh collective) o -> o <> inr true)
  /\ (forall o, may_return (check_mesh mesh collective) o -> o <> inr true)
  /\ (str_in "allReduce" comm_world_attrs = false ->
      forall o b, may_return (check_space Vh collective) o -> o <> inr b)
  /\ (collective = ONull \/ (exists self, collective = OGrid self) ->
      check_space Vh collective
      = Ret (inl (TypeError "float() argument must be a string or a number, not 'method'"))
      /\ check_mesh mesh collective
         = Ret (inl (TypeError "float() argument must be a string or a number, not 'method'")))
  /\ (forall c, collective = OComm c -> Get_rank c = 0 ->
      check_space Vh collective = Ret (inl (NameError "name 'mesh' is not defined"))
      /\ check_mesh mesh collective = Ret (inl (NameError "name 'mesh' is not defined"))).
Proof.
  split; [|split; [|split; [|split]]].
  - intros o H. destruct (check_space_result _ _ _ H) as [H1 _]. exact H1.
  - intros o H. unfold checkMeshConsistentPartitioning in H.
    apply may_return_bind in H. destruct H as (t1 & H1 & H).
    apply check_space_result in H1. destruct H1 as [H1 _].
    destruct t1 as [e|t1]; [apply may_return_Ret in H; subst o; discriminate|].
    destruct t1; [congruence|].
    apply may_return_bind in H. destruct H as (t2 & _ & H).
    destruct t2 as [e|t2]; apply may_return_Ret in H; subst o; discriminate.
  - intros Hattr o b H. destruct (check_space_result _ _ _ H) as [_ H2].
    apply H2. exact Hattr.
  - intros Hc. split; [apply check_space_collective; exact Hc|].
    unfold checkMeshConsistentPartitioning.
    rewrite check_space_collective by exact Hc. reflexivity.
  - intros c -> Hrank. split; [apply check_space_root; exact Hrank|].
    unfold checkMeshConsistentPartitioning.
    rewrite check_space_root by exact Hrank. reflexivity.
Qed.

End ConsistencyCheckerProperties.

(** A single process that passes [NullCollective()]: the checker raises
    a [TypeError]; and no [mpi4py] communicator has an [allReduce]. *)
Lemma checker_never_returns_true_witness :
  let check :=
    checkFunctionSpaceConsistentPartitioning unit unit
      (fun _ _ => tt) (fun _ f _ => Ret (inr f)) (fun _ _ => inr 0%float)
      mpi4py_comm_attrs (fun _ _ => Ret (inr tt)) in
  check tt ONull
  = Ret (inl (TypeError "float() argument must be a string or a number, not 'method'"))
  /\ str_in "allReduce" mpi4py_comm_attrs = false
  /\ (forall o b, may_return (check tt (OComm (mkComm [0; 1] 1))) o -> o <> inr b).
Proof.
  intros check.
  destruct (checker_never_returns_true unit unit unit (fun _ _ _ => tt)
              (fun _ _ => tt) (fun _ f _ => Ret (inr f)) (fun _ _ => inr 0%float)
              mpi4py_comm_attrs (fun _ _ => Ret (inr tt)) tt tt ONull)
    as (_ & _ & _ & Hnull & _).
  destruct (checker_never_returns_true unit unit unit (fun _ _ _ => tt)
              (fun _ _ => tt) (fun _ f _ => Ret (inr f)) (fun _ _ => inr 0%float)
              mpi4py_comm_attrs (fun _ _ => Ret (inr tt)) tt tt (OComm (mkComm [0; 1] 1)))
    as (_ & _ & Hcomm & _).
  split; [apply Hnull; left; reflexivity|].
  split; [reflexivity|]. apply Hcomm. reflexivity.
Defined.

(** ** allReduce on multi-vectors *)

Lemma segment_of_vec (q : heap * positive) : segment_of q = local (vec_of q).
Proof. reflexivity. Qed.

Lemma reduced_values_vec `{T : Transport} (op : string) (qs qs' : list (heap * positive)) :
  map vec_of qs = map vec_of qs' -> reduced_values op qs = reduced_values op qs'.
Proof.
  intros H. destruct qs as [|q qs], qs' as [|q' qs']; try discriminate; [reflexivity|].
  cbn [map] in H. injection H as Hq Hqs. unfold reduced_values.
  assert (Hlen : length (q :: qs) = length (q' :: qs')).
  { simpl. f_equal. rewrite <- (List.length_map vec_of qs), Hqs. apply List.length_map. }
  rewrite Hlen, !segment_of_vec, Hq. f_equal.
  rewrite <- !(map_map vec_of local). rewrite Hqs. reflexivity.
Qed.

Lemma aligned_vec (qs qs' : list (heap * positive)) :
  map vec_of qs = map vec_of qs' -> aligned qs -> aligned qs'.
Proof.
  intros H. destruct qs as [|q qs], qs' as [|q' qs']; try discriminate; [tauto|].
  cbn [map] in H. injection H as Hq Hqs. unfold aligned.
  rewrite !segment_of_vec, Hq. intros Hal.
  apply (List.Forall_map vec_of (fun v => length (local v) = length (local (vec_of q')))).
  rewrite <- Hqs. apply List.Forall_map. exact Hal.
Qed.

Lemma passes_vec (ck : bool) (qs qs' : list (heap * positive)) :
  map vec_of qs = map vec_of qs' ->
  Forall (passes_serial_check ck) qs -> Forall (passes_serial_check ck) qs'.
Proof.
  intros H Hp.
  apply (List.Forall_map vec_of (fun v => ck = false \/ owner_size v = 1)).
  rewrite <- H. apply List.Forall_map. exact Hp.
Qed.

Lemma vec_of_written_back_other (h : heap) (a a' : positive) (values : list float) :
  a' <> a -> vec_of (written_back (h, a) values, a') = vec_of (h, a').
Proof.
  intros Ha. unfold vec_of, get_vector. cbn [fst snd].
  rewrite (written_back_other (h, a) values a') by exact Ha. reflexivity.
Qed.

Lemma nth_tl_NoDup (l : list positive) (j : nat) :
  NoDup l -> (S j < length l)%nat -> nth j (tl l) 1%positive <> nth 0 l 1%positive.
Proof.
  intros Hnd Hj. destruct l as [|a l]; [simpl in Hj; lia|].
  cbn [tl nth]. apply NoDup_cons in Hnd. destruct Hnd as [Ha _].
  intros E. apply Ha. rewrite <- E. apply list_elem_of_In, nth_In. simpl in Hj. lia.
Qed.

(** Once entry 0 is reduced, entry [j] of what is left is entry [j + 1]
    as it was before. *)
Lemma column_after_entry (values : list float) (m : nat)
  (xs : list (pyval * (heap * list positive))) (j : nat) :
  Forall (fun p => length (snd p) = S m /\ NoDup (snd p)) (map snd xs) ->
  (j < m)%nat ->
  map vec_of (column j (map snd (map (after_entry values) xs)))
  = map vec_of (column (S j) (map snd xs)).
Proof.
  intros Hall Hj. unfold column. rewrite !map_map. apply map_ext_in.
  intros x Hx. cbn [after_entry fst snd].
  rewrite Forall_forall in Hall.
  destruct (Hall (snd x)) as [Hlen Hnd].
  { apply list_elem_of_In, in_map, Hx. }
  rewrite vec_of_written_back_other.
  - destruct (snd (snd x)) as [|a l]; [discriminate|]. reflexivity.
  - apply nth_tl_NoDup; [exact Hnd | lia].
Qed.

Lemma reducible_after_entry (ck : bool) (values : list float) (m : nat)
  (xs : list (pyval * (heap * list positive))) :
  reducible ck (S m) (map snd xs) ->
  reducible ck m (map snd (map (after_entry values) xs)).
Proof.
  intros [Hall Hcols]. split.
  - rewrite !map_map. apply List.Forall_map. apply List.Forall_map in Hall.
    eapply Forall_impl; [exact Hall|]. intros x [Hlen Hnd]. cbn [after_entry fst snd] in *.
    destruct (snd (snd x)) as [|a l]; [discriminate|]. cbn [tl].
    split; [simpl in Hlen; lia|]. apply NoDup_cons in Hnd. tauto.
  - intros j Hj. destruct (Hcols (S j)) as [Hp Hal]; [lia|].
    pose proof (column_after_entry values m xs j Hall Hj) as E. symmetry in E.
    split; [exact (passes_vec _ _ _ E Hp) | exact (aligned_vec _ _ E Hal)].
Qed.

Lemma reduced_values_lower `{T : Transport} (op : string) (qs : list (heap * positive)) :
  reduced_values (lower op) qs = reduced_values op qs.
Proof.
  destruct qs as [|q qs]; [reflexivity|].
  unfold reduced_values, reduced_segment. rewrite lower_idem. reflexivity.
Qed.

Lemma write_entries_cons (h : heap) (a : positive) (locs : list positive)
  (v : list float) (vals : list (list float)) :
  write_entries h (a :: locs) (v :: vals)
  = write_entries (written_back (h, a) v) locs vals.
Proof. reflexivity. Qed.

(** The first entries of a group that can be reduced, by themselves. *)
Lemma launch_first_entry `{T : Transport} (ck : bool) (op : string) (m : nat)
  (xs : list (pyval * (heap * list positive))) :
  lower op = "sum"%string \/ lower op = "avg"%string ->
  reducible ck (S m) (map snd xs) ->
  launch (world (length xs))
    (map (fun x c => Grid.allReduce (Grid.mk c ck)
                       (VVector (nth 0 (snd (snd x)) 1%positive)) (lower op)
                       (fst (snd x))) xs)
  = map (fun x => Some
           (written_back (fst (snd x), nth 0 (snd (snd x)) 1%positive)
              (entry_values op (map snd xs) 0),
            inr (VVector (nth 0 (snd (snd x)) 1%positive)))) xs.
Proof.
  intros Hop [_ Hcols]. destruct (Hcols 0%nat) as [Hp Hal]; [lia|].
  destruct xs as [|x0 l]; [reflexivity|].
  unfold entry_values. rewrite <- reduced_values_lower.
  assert (Hop' : lower (lower op) = "sum"%string \/ lower (lower op) = "avg"%string)
    by (rewrite lower_idem; exact Hop).
  pose proof (group_allReduce_vector_ok ck (lower op)
                (fst (snd x0), nth 0 (snd (snd x0)) 1%positive)
                (column 0 (map snd l)) Hop' Hp Hal) as H.
  unfold group_allReduce, vector_payloads in H.
  change ((fst (snd x0), nth 0 (snd (snd x0)) 1%positive) :: column 0 (map snd l))
    with (column 0 (map snd (x0 :: l))) in H.
  unfold column in H. rewrite !List.length_map, !map_map in H. cbn [fst snd] in H.
  unfold column. rewrite !map_map. cbn [fst snd]. exact H.
Qed.

Lemma launch_entries_vectors `{T : Transport} (ck : bool) (op : string) :
  lower op = "sum"%string \/ lower op = "avg"%string ->
  forall (m : nat) (xs : list (pyval * (heap * list positive))),
  reducible ck m (map snd xs) ->
  launch (world (length xs)) (map (entries_body ck op) xs)
  = map (fun x => Some
           (write_entries (fst (snd x)) (snd (snd x))
              (map (entry_values op (map snd xs)) (seq 0 m)),
            inr (fst x))) xs.
Proof.
  intros Hop. induction m as [|m IH]; intros xs Hred.
  - destruct Hred as [Hall _]. apply List.Forall_map in Hall.
    rewrite Forall_forall in Hall.
    rewrite (launch_ext _ _ (fun x _ => @Ret outcome (fst (snd x), inr (fst x)))).
    2:{ intros x Hx c. destruct (Hall x) as [Hlen _]; [apply list_elem_of_In, Hx|].
        unfold entries_body. destruct (snd (snd x)); [reflexivity | discriminate]. }
    rewrite (launch_ret _ (fun x => (fst (snd x), inr (fst x)) : outcome))
      by apply length_world.
    apply map_ext_in. intros x Hx.
    destruct (Hall x) as [Hlen _]; [apply list_elem_of_In, Hx|].
    destruct (snd (snd x)); [reflexivity | discriminate].
  - pose proof Hred as [Hall Hcols]. pose proof Hall as Hall'.
    apply List.Forall_map in Hall'. rewrite Forall_forall in Hall'.
    set (v0 := entry_values op (map snd xs) 0).
    rewrite (launch_ext _ _
      (fun x c =>
         bind (Grid.allReduce (Grid.mk c ck)
                 (VVector (nth 0 (snd (snd x)) 1%positive)) (lower op) (fst (snd x)))
              (Grid.next_entry
                 (allReduce_entries (Grid.mk c ck) (lower op) (fst x)
                    (map VVector (tl (snd (snd x)))))))).
    2:{ intros x Hx c. destruct (Hall' x) as [Hlen _]; [apply list_elem_of_In, Hx|].
        unfold entries_body. destruct (snd (snd x)); [discriminate | reflexivity]. }
    rewrite (launch_bind _ _
      (fun x c => Grid.next_entry
                    (allReduce_entries (Grid.mk c ck) (lower op) (fst x)
                       (map VVector (tl (snd (snd x))))))
      (fun x => (written_back (fst (snd x), nth 0 (snd (snd x)) 1%positive) v0,
                 inr (VVector (nth 0 (snd (snd x)) 1%positive))))).
    2:{ apply length_world. }
    2:{ apply (launch_first_entry ck op m xs Hop Hred). }
    change (launch (world (length xs))
              (map (fun x c => entries_body ck op (after_entry v0 x) c) xs)
            = map (fun x => Some
                (write_entries (fst (snd x)) (snd (snd x))
                   (map (entry_values op (map snd xs)) (seq 0 (S m))),
                 inr (fst x))) xs).
    rewrite <- (map_map (after_entry v0) (fun x c => entries_body ck op x c)).
    rewrite <- (List.length_map (after_entry v0) xs).
    rewrite (launch_ext _ _ (entries_body ck op)) by reflexivity.
    rewrite IH by (apply reducible_after_entry; exact Hred).
    rewrite map_map. apply map_ext_in. intros x Hx.
    destruct (Hall' x) as [Hlen Hnd]; [apply list_elem_of_In, Hx|].
    cbn [after_entry fst snd]. f_equal. f_equal.
    destruct (snd (snd x)) as [|a locs] eqn:E; [discriminate|].
    cbn [seq map nth tl]. rewrite write_entries_cons. fold v0. f_equal.
    rewrite <- seq_shift, (map_map S (entry_values op (map snd xs))).
    apply map_ext_in. intros j Hj.
    apply in_seq in Hj. unfold entry_values. apply reduced_values_vec.
    apply (column_after_entry v0 m xs j Hall). lia.
Qed.

Lemma vec_of_written_back_same (h : heap) (a : positive) (values : list float) :
  vec_of (written_back (h, a) values, a)
  = mkVector values (owner_size (vec_of (h, a))) (S (applied (vec_of (h, a)))).
Proof. apply (written_back_vector (h, a)). Qed.

Lemma write_entries_other (a : positive) (locs : list positive) :
  forall (h : heap) (vals : list (list float)),
  ~ In a locs -> vec_of (write_entries h locs vals, a) = vec_of (h, a).
Proof.
  induction locs as [|b locs IH]; intros h vals Ha; [reflexivity|].
  destruct vals as [|v vals]; [reflexivity|].
  rewrite write_entries_cons, IH by (simpl in Ha; tauto).
  apply vec_of_written_back_other. simpl in Ha. intros ->. tauto.
Qed.

(** After the entries are written, entry [j] holds the values written
    for it, and has been synchronised once. *)
Lemma write_entries_entry (locs : list positive) :
  forall (h : heap) (vals : list (list float)) (j : nat),
  NoDup locs -> length vals = length locs -> (j < length locs)%nat ->
  vec_of (write_entries h locs vals, nth j locs 1%positive)
  = vec_of (written_back (h, nth j locs 1%positive) (nth j vals []),
            nth j locs 1%positive).
Proof.
  induction locs as [|a locs IH]; intros h vals j Hnd Hlen Hj; [simpl in Hj; lia|].
  destruct vals as [|v vals]; [discriminate|].
  apply NoDup_cons in Hnd. destruct Hnd as [Ha Hnd].
  rewrite list_elem_of_In in Ha.
  rewrite write_entries_cons. destruct j as [|j]; cbn [nth].
  - apply write_entries_other, Ha.
  - simpl in Hlen, Hj. rewrite IH by (try assumption; lia).
    assert (Hne : nth j locs 1%positive <> a).
    { intros E. apply Ha. rewrite <- E. apply nth_In. lia. }
    rewrite !vec_of_written_back_same.
    rewrite vec_of_written_back_other by exact Hne. reflexivity.
Qed.

Lemma allReduce_entries_returns (self : Grid.t) (op : string) (v : pyval)
  (es : list pyval) :
  forall (h h' : heap) (r : pyval),
  may_return (allReduce_entries self op v es h) (h', inr r) -> r = v.
Proof.
  induction es as [|e es IH]; intros h h' r H.
  - apply may_return_Ret in H. congruence.
  - rewrite allReduce_entries_cons in H. apply may_return_bind in H.
    destruct H as ([h1 [ex|r1]] & _ & H); unfold Grid.next_entry in H; cbn [fst snd] in H.
    + apply may_return_Ret in H. discriminate.
    + apply (IH _ _ _ H).
Qed.

(** C5 (as the code has it): on a multi-vector, [allReduce] calls itself
    on every entry in turn with the same operation, drops what each call
    returns, and returns the same container. For multi-vectors of [m]
    vectors, all different objects, that pass the serial check and agree
    in length entry by entry over the group, every process gets its
    container back with every entry written in place, and entry [j]
    then holds what the reduction of entry [j] alone writes into it: the
    elementwise binary64 sum of the entries [j] of the group, each added
    once, in the order the transport adds them, multiplied by [1/N]
    under "avg". A scalar entry is not an object that can be written:
    two processes that each reduce the sequence [1, 2, 3] under "sum"
    get [1, 2, 3] back. *)
Theorem allReduce_multi_vector `{T : Transport} (is_serial_check : bool) (op : string) (m : nat)
  (ps : list (heap * list positive)) :
  lower op = "sum"%string \/ lower op = "avg"%string ->
  reducible is_serial_check m ps ->
  let vals := map (entry_values op ps) (seq 0 m) in
  group_allReduce is_serial_check op (multi_payloads ps)
  = map (fun p => Some (write_entries (fst p) (snd p) vals,
                        inr (VMulti (map VVector (snd p))))) ps
  /\ (forall p j, In p ps -> (j < m)%nat ->
        vec_of (write_entries (fst p) (snd p) vals, nth j (snd p) 1%positive)
        = vec_of (written_back (fst p, nth j (snd p) 1%positive) (entry_values op ps j),
                  nth j (snd p) 1%positive))
  /\ (forall j, (j < m)%nat ->
        group_allReduce is_serial_check op (vector_payloads (column j ps))
        = map (fun q => Some (written_back q (entry_values op ps j), inr (VVector (snd q))))
              (column j ps))
  /\ (forall j q0 qs, (j < m)%nat -> column j ps = q0 :: qs ->
        let total := summed (map segment_of (q0 :: qs)) in
        entry_values op ps j
        = (if String.eqb (lower op) "sum" then total
           else map (fun r => (r * (1 / float_of_Z (Z.of_nat (length ps))))%float) total)
        /\ forall i, (i < length (segment_of q0))%nat ->
             let order := sum_order (length ps) (length (segment_of q0)) i in
             ranks_of order ≡ₚ seq 0 (length ps)
             /\ total !! i
                = Some (plan_sum order
                          (map (fun q => nth i (segment_of q) 0%float) (q0 :: qs))))
  /\ (forall self es h h' r,
        may_return (Grid.allReduce self (VMulti es) op h) (h', inr r) -> r = VMulti es)
  /\ group_allReduce is_serial_check "sum"
       [(empty_heap, VMulti [VInt 1; VInt 2; VInt 3]);
        (empty_heap, VMulti [VInt 1; VInt 2; VInt 3])]
     = [Some (empty_heap, inr (VMulti [VInt 1; VInt 2; VInt 3]));
        Some (empty_heap, inr (VMulti [VInt 1; VInt 2; VInt 3]))].
Proof.
  intros Hop Hred vals. split; [|split; [|split; [|split; [|split]]]].
  - pose proof (launch_entries_vectors is_serial_check op Hop m
                  (map (fun p => (VMulti (map VVector (snd p)), p)) ps)) as H.
    rewrite !map_map in H. cbn [fst snd] in H. rewrite map_id in H.
    rewrite List.length_map in H. specialize (H Hred).
    unfold group_allReduce, multi_payloads. rewrite List.length_map, map_map.
    exact H.
  - intros p j Hp Hj. destruct Hred as [Hall _]. rewrite Forall_forall in Hall.
    destruct (Hall p) as [Hlen Hnd]; [apply list_elem_of_In, Hp|].
    rewrite write_entries_entry.
    + unfold vals. f_equal. f_equal.
      rewrite (nth_indep _ [] (entry_values op ps 0))
        by (rewrite List.length_map, length_seq; exact Hj).
      rewrite (map_nth (entry_values op ps) (seq 0 m) 0%nat j), seq_nth by exact Hj.
      reflexivity.
    + exact Hnd.
    + unfold vals. rewrite List.length_map, length_seq. symmetry. exact Hlen.
    + rewrite Hlen. exact Hj.
  - intros j Hj. destruct Hred as [_ Hcols]. destruct (Hcols j Hj) as [Hp Hal].
    unfold entry_values. destruct (column j ps) as [|q0 qs] eqn:E; [reflexivity|].
    apply (group_allReduce_vector_ok _ _ _ _ Hop Hp Hal).
  - intros j q0 qs Hj E total.
    assert (Hlen : length ps = length (q0 :: qs)).
    { rewrite <- E. unfold column. rewrite List.length_map. reflexivity. }
    split.
    + unfold entry_values, reduced_values, reduced_segment. rewrite E, Hlen.
      reflexivity.
    + intros i Hi.
      pose proof (summed_lookup (segment_of q0) (map segment_of qs) i Hi) as H.
      cbv zeta in H. unfold position in H. cbn [length] in H.
      rewrite List.length_map in H.
      change (segment_of q0 :: map segment_of qs) with (map segment_of (q0 :: qs)) in H.
      rewrite map_map in H. rewrite Hlen. exact H.
  - intros self es h h' r H. rewrite allReduce_multi in H.
    apply (allReduce_entries_returns _ _ _ _ _ _ _ H).
  - destruct is_serial_check; vm_compute; reflexivity.
Qed.

(** Two processes, each with a multi-vector of two vectors, under "sum". *)
Lemma allReduce_multi_vector_witness :
  let T := rank_order in
  let h0 := put_vector (put_vector empty_heap 1 (mkVector [1%float] 1 0))
                       2 (mkVector [10%float; 20%float] 1 0) in
  let h1 := put_vector (put_vector empty_heap 1 (mkVector [2%float] 1 0))
                       2 (mkVector [30%float; 40%float] 1 0) in
  let h' := put_vector (put_vector empty_heap 1 (mkVector [3%float] 1 1))
                       2 (mkVector [40%float; 60%float] 1 1) in
  group_allReduce true "sum" (multi_payloads [(h0, [1; 2]%positive); (h1, [1; 2]%positive)])
  = [Some (h', inr (VMulti [VVector 1; VVector 2]));
     Some (h', inr (VMulti [VVector 1; VVector 2]))].
Proof.
  intros T.
  intros h0 h1 h'.
  destruct (allReduce_multi_vector true "sum" 2
              [(h0, [1; 2]%positive); (h1, [1; 2]%positive)]) as [E _].
  - left. reflexivity.
  - split.
    + assert (Hnd : NoDup [1; 2]%positive).
      { apply NoDup_cons. split; [|apply NoDup_singleton].
        apply not_elem_of_cons. split; [discriminate | apply not_elem_of_nil]. }
      constructor; [split; [reflexivity | exact Hnd]|].
      constructor; [split; [reflexivity | exact Hnd]|]. constructor.
    + intros j Hj. destruct j as [|[|j]]; [| |lia];
        (split; [repeat constructor; right; reflexivity | repeat constructor]).
  - rewrite E. vm_compute. reflexivity.
Defined.

(** C5 as the spec words it fails on its own example: two processes that
    each reduce the sequence of scalars [1, 2, 3] under "sum" get back
    [1, 2, 3], not the entrywise sums [2, 4, 6]. *)
Lemma allReduce_multi_scalars_counterexample :
  let T := rank_order in
  group_allReduce false "sum"
    [(empty_heap, VMulti [VInt 1; VInt 2; VInt 3]);
     (empty_heap, VMulti [VInt 1; VInt 2; VInt 3])]
  <> [Some (empty_heap, inr (VMulti [VInt 2; VInt 4; VInt 6]));
      Some (empty_heap, inr (VMulti [VInt 2; VInt 4; VInt 6]))]
  /\ group_allReduce false "sum" [(empty_heap, VInt 1); (empty_heap, VInt 1)]
     = [Some (empty_heap, inr (VInt 2)); Some (empty_heap, inr (VInt 2))].
Proof.
  intros T.
  split; [|vm_compute; reflexivity].
  intros H. vm_compute in H. discriminate H.
Qed.

(** * Further properties of the collectives *)

(** ** allReduce on arrays, "sum" *)

Lemma set_array_lookup (h : heap) (a : positive) (xs : list float) :
  get_array (set_array h a xs) a = xs
  /\ vectors (set_array h a xs) = vectors h
  /\ forall a', a' <> a -> arrays (set_array h a xs) !! a' = arrays h !! a'.
Proof.
  unfold get_array, set_array. cbn [arrays vectors].
  rewrite lookup_insert_eq. split; [reflexivity|]. split; [reflexivity|].
  intros a' Ha. rewrite lookup_insert_ne by congruence. reflexivity.
Qed.

(** X1: under "sum", [allReduce] of arrays of one length over the group
    overwrites the array of every process with the elementwise sum of
    the arrays of the group and returns the same array object; position
    [j] of the sum is the binary64 sum of position [j] of the arrays of
    the ranks, each added once, in the order the transport adds them,
    and no other array and no vector of the process changes. *)
Theorem allReduce_ndarray_sum_in_place `{T : Transport} (is_serial_check : bool)
  (op : string) (p0 : heap * positive) (ps : list (heap * positive)) :
  lower op = "sum"%string ->
  Forall (fun p => length (buffer_of p) = length (buffer_of p0)) ps ->
  let total := summed (map buffer_of (p0 :: ps)) in
  group_allReduce is_serial_check op (array_payloads (p0 :: ps))
  = map (fun p => Some (set_array (fst p) (snd p) total, inr (VArray (snd p)))) (p0 :: ps)
  /\ (forall p, In p (p0 :: ps) ->
        let h' := set_array (fst p) (snd p) total in
        get_array h' (snd p) = total
        /\ vectors h' = vectors (fst p)
        /\ forall a, a <> snd p -> arrays h' !! a = arrays (fst p) !! a)
  /\ length total = length (buffer_of p0)
  /\ (forall j, (j < length (buffer_of p0))%nat ->
        let order := sum_order (length (p0 :: ps)) (length (buffer_of p0)) j in
        ranks_of order ≡ₚ seq 0 (length (p0 :: ps))
        /\ total !! j
           = Some (plan_sum order (map (fun p => nth j (buffer_of p) 0%float) (p0 :: ps)))).
Proof.
  intros Hop Hlen total.
  assert (Hlen' : Forall (fun y => length y = length (buffer_of p0)) (map buffer_of ps))
    by (apply List.Forall_map; exact Hlen).
  split; [|split; [|split]].
  - rewrite group_allReduce_ndarray. unfold Allreduce_SUM_DOUBLE.
    replace (same_length (buffer_of p0) (map buffer_of ps)) with true
      by (symmetry; apply same_length_spec; exact Hlen').
    rewrite Hop. reflexivity.
  - intros p _ h'. apply set_array_lookup.
  - apply (length_summed (buffer_of p0) (map buffer_of ps)).
  - intros j Hj.
    pose proof (summed_lookup (buffer_of p0) (map buffer_of ps) j Hj) as H.
    cbv zeta in H. unfold position in H. cbn [length] in H |- *.
    rewrite List.length_map in H.
    change (buffer_of p0 :: map buffer_of ps) with (map buffer_of (p0 :: ps)) in H.
    rewrite map_map in H. exact H.
Qed.

(** Two processes with the arrays [1.0; 2.0] and [3.0; 6.0], under
    "Sum". *)
Lemma allReduce_ndarray_sum_in_place_witness :
  let T := rank_order in
  let h0 := set_array empty_heap 1 [1%float; 2%float] in
  let h1 := set_array empty_heap 1 [3%float; 6%float] in
  group_allReduce false "Sum" (array_payloads [(h0, 1%positive); (h1, 1%positive)])
  = [Some (set_array h0 1 [4%float; 8%float], inr (VArray 1));
     Some (set_array h1 1 [4%float; 8%float], inr (VArray 1))].
Proof.
  intros T h0 h1.
  destruct (allReduce_ndarray_sum_in_place false "Sum" (h0, 1%positive) [(h1, 1%positive)])
    as [E _].
  - reflexivity.
  - repeat constructor.
  - rewrite E. reflexivity.
Defined.

(** ** What allReduce and bcast leave alone *)

Lemma array_locs_multi (e : pyval) (es : list pyval) :
  array_locs (VMulti (e :: es)) = array_locs e ++ array_locs (VMulti es).
Proof. reflexivity. Qed.

Lemma vector_locs_multi (e : pyval) (es : list pyval) :
  vector_locs (VMulti (e :: es)) = vector_locs e ++ vector_locs (VMulti es).
Proof. reflexivity. Qed.

Lemma put_vector_lookup (h : heap) (a : positive) (x : Vector) :
  arrays (put_vector h a x) = arrays h
  /\ forall a', a' <> a -> vectors (put_vector h a x) !! a' = vectors h !! a'.
Proof.
  unfold put_vector. cbn [arrays vectors]. split; [reflexivity|].
  intros a' Ha. rewrite lookup_insert_ne by congruence. reflexivity.
Qed.

Lemma same_but_refl (la lv : list positive) (h : heap) : same_but la lv h h.
Proof. split; reflexivity. Qed.

Lemma same_but_trans (la1 lv1 la2 lv2 : list positive) (h1 h2 h3 : heap) :
  same_but la1 lv1 h1 h2 -> same_but la2 lv2 h2 h3 ->
  same_but (la1 ++ la2) (lv1 ++ lv2) h1 h3.
Proof.
  intros [A1 V1] [A2 V2]. split; intros a Ha; rewrite in_app_iff in Ha.
  - rewrite A2, A1 by tauto. reflexivity.
  - rewrite V2, V1 by tauto. reflexivity.
Qed.

Lemma allReduce_same_but (self : Grid.t) (v : pyval) :
  forall (op : string) (h : heap) (o : outcome),
  may_return (Grid.allReduce self v op h) o ->
  same_but (array_locs v) (vector_locs v) h (fst o)
  /\ forall r, snd o = inr r -> is_object v -> r = v.
Proof.
  induction v as [x|z|a|a|es IH|ty] using pyval_nested_ind; intros op h o H.
  - cbn [Grid.allReduce] in H. apply may_return_AllreduceDouble in H.
    destruct H as [rc H].
    destruct (String.eqb _ "sum"); [|destruct (String.eqb _ "avg")];
      apply may_return_Ret in H; subst o; (split; [apply same_but_refl|]);
      intros r _ [].
  - cbn [Grid.allReduce] in H. destruct (to_int32 z) as [e|z32].
    + apply may_return_Ret in H. subst o. split; [apply same_but_refl|]. intros r _ [].
    + apply may_return_AllreduceInt in H. destruct H as [rc H].
      destruct (String.eqb _ "sum"); [|destruct (String.eqb _ "avg")];
        apply may_return_Ret in H; subst o; (split; [apply same_but_refl|]);
        intros r _ [].
  - cbn [Grid.allReduce] in H. apply may_return_AllreduceDouble in H.
    destruct H as [rc H].
    destruct (String.eqb _ "sum"); [|destruct (String.eqb _ "avg")];
      apply may_return_Ret in H; subst o; cbn [fst snd].
    + split; [|intros r E _; congruence]. split; [|reflexivity].
      intros a' Ha'. apply set_array_lookup. intros E. apply Ha'. left. congruence.
    + split; [apply same_but_refl | intros r E _; congruence].
    + split; [apply same_but_refl | intros r E _; congruence].
  - cbn [Grid.allReduce] in H.
    destruct (_ && _)%bool.
    { apply may_return_Ret in H. subst o.
      split; [apply same_but_refl | intros r E _; discriminate]. }
    apply may_return_AllreduceDouble in H. destruct H as [rc H].
    assert (G : forall rc',
      may_return
        match set_local (get_vector h a) rc' with
        | inl e => Ret (h, inl e)
        | inr x' => Ret (put_vector h a (apply x'), inr (VVector a))
        end o ->
      same_but [] [a] h (fst o) /\ forall r, snd o = inr r -> True -> r = VVector a).
    { intros rc' H'. destruct (set_local _ rc') as [e|x'];
        apply may_return_Ret in H'; subst o; cbn [fst snd].
      - split; [apply same_but_refl | intros r E _; discriminate].
      - split; [|intros r E _; congruence]. split; [reflexivity|].
        intros a' Ha'. apply put_vector_lookup. intros E. apply Ha'. left. congruence. }
    destruct (String.eqb _ "sum"); [|destruct (String.eqb _ "avg")].
    + apply (G _ H).
    + apply (G _ H).
    + apply may_return_Ret in H. subst o.
      split; [apply same_but_refl | intros r E _; discriminate].
  - rewrite allReduce_multi in H. split.
    2:{ intros r E _. destruct o as [h' r']. cbn [snd] in E. subst r'.
        apply (allReduce_entries_returns _ _ _ _ _ _ _ H). }
    revert h H. generalize (VMulti es) at 1 as v. intros v.
    induction IH as [|e es He _ IHes]; intros h H.
    + apply may_return_Ret in H. subst o. apply same_but_refl.
    + rewrite allReduce_entries_cons in H. apply may_return_bind in H.
      destruct H as ([h1 r1] & H1 & H2).
      destruct (He _ _ _ H1) as [S1 _]. cbn [fst] in S1.
      rewrite array_locs_multi, vector_locs_multi.
      unfold Grid.next_entry in H2. cbn [fst snd] in H2. destruct r1 as [ex|r1].
      * apply may_return_Ret in H2. subst o. cbn [fst].
        apply (same_but_trans _ _ _ _ _ _ _ S1). apply same_but_refl.
      * apply (same_but_trans _ _ _ _ _ _ _ S1). apply (IHes _ H2).
  - cbn [Grid.allReduce] in H.
    destruct (load_global _ _) as [e|[|]]; apply may_return_Ret in H; subst o;
      (split; [apply same_but_refl | intros r E _; discriminate]).
Qed.

(** X2: whatever the transport answers, [allReduce] writes into no array
    and no vector of the caller other than the payload itself and, for a
    multi-vector, its entries; and when it returns for a payload that is
    an object (not a Python scalar), it returns that same object. *)
Theorem allReduce_writes_only_payload (self : Grid.t) (v : pyval) (op : string)
  (h : heap) (o : outcome) :
  may_return (Grid.allReduce self v op h) o ->
  (forall a, ~ In a (array_locs v) -> arrays (fst o) !! a = arrays h !! a)
  /\ (forall a, ~ In a (vector_locs v) -> vectors (fst o) !! a = vectors h !! a)
  /\ (forall r, snd o = inr r -> is_object v -> r = v).
Proof.
  intros H. destruct (allReduce_same_but self v op h o H) as [[A V] R].
  split; [exact A | split; [exact V | exact R]].
Qed.

(** A process of a group of two reduces a multi-vector of the array 1
    and the vector 2 and is answered [4.0] and then [5.0]; it also holds
    the array 3 and the vector 4. *)
Lemma allReduce_writes_only_payload_witness :
  let self := Grid.mk (mkComm [0; 1] 0) false in
  let h := put_vector (put_vector (set_array (set_array empty_heap 1 [1%float]) 3 [7%float])
                         2 (mkVector [2%float] 1 0)) 4 (mkVector [9%float] 1 0) in
  let v := VMulti [VArray 1; VVector 2] in
  let h' := put_vector (set_array h 1 [4%float]) 2 (mkVector [5%float] 1 1) in
  may_return (Grid.allReduce self v "sum" h) (h', inr v)
  /\ arrays h' !! 3%positive = arrays h !! 3%positive
  /\ vectors h' !! 4%positive = vectors h !! 4%positive.
Proof.
  intros self h v h'.
  assert (H : may_return (Grid.allReduce self v "sum" h) (h', inr v)).
  { apply (may_call _ _ (RDouble [4%float])). apply (may_call _ _ (RDouble [5%float])).
    apply may_ret. }
  split; [exact H|].
  destruct (allReduce_writes_only_payload self v "sum" h (h', inr v) H) as (A & V & _).
  split; [apply A | apply V]; vm_compute; intuition discriminate.
Defined.

(** ** What bcast leaves alone *)

Lemma bcast_multi (self : Grid.t) (es : list pyval) (root : Z) (h : heap) :
  Grid.bcast self (VMulti es) root h = bcast_entries self root (VMulti es) es h.
Proof. reflexivity. Qed.

Lemma bcast_entries_cons (self : Grid.t) (root : Z) (v e : pyval)
  (es : list pyval) (h : heap) :
  bcast_entries self root v (e :: es) h
  = bind (Grid.bcast self e root h) (Grid.next_entry (bcast_entries self root v es)).
Proof. reflexivity. Qed.

Lemma bcast_entries_returns (self : Grid.t) (root : Z) (v : pyval) (es : list pyval) :
  forall (h h' : heap) (r : pyval),
  may_return (bcast_entries self root v es h) (h', inr r) -> r = v.
Proof.
  induction es as [|e es IH]; intros h h' r H.
  - apply may_return_Ret in H. congruence.
  - rewrite bcast_entries_cons in H. apply may_return_bind in H.
    destruct H as ([h1 [ex|r1]] & _ & H); unfold Grid.next_entry in H; cbn [fst snd] in H.
    + apply may_return_Ret in H. discriminate.
    + apply (IH _ _ _ H).
Qed.

Lemma keeps_but_refl (lv : list positive) (h : heap) : keeps_but lv h h.
Proof. split; [tauto | reflexivity]. Qed.

Lemma keeps_but_trans (lv1 lv2 : list positive) (h1 h2 h3 : heap) :
  keeps_but lv1 h1 h2 -> keeps_but lv2 h2 h3 -> keeps_but (lv1 ++ lv2) h1 h3.
Proof.
  intros [A1 V1] [A2 V2]. split.
  - intros a xs Ha. apply A2, A1, Ha.
  - intros a Ha. rewrite in_app_iff in Ha. rewrite V2, V1 by tauto. reflexivity.
Qed.

Lemma unpickle_keeps (h : heap) (w : wire) (lv : list positive) :
  keeps_but lv h (fst (Grid.unpickle h w)).
Proof.
  destruct (unpickle_extends h w) as [[V A] _]. split; [exact A|].
  intros a _. rewrite V. reflexivity.
Qed.

Lemma bcast_keeps_but (self : Grid.t) (v : pyval) :
  forall (root : Z) (h : heap) (o : outcome),
  may_return (Grid.bcast self v root h) o ->
  keeps_but (vector_locs v) h (fst o)
  /\ forall r, snd o = inr r -> filled_in_place v -> r = v.
Proof.
  induction v as [x|z|a|a|es IH|ty] using pyval_nested_ind; intros root h o H.
  - cbn [Grid.bcast] in H. apply may_return_comm_bcast in H.
    destruct H as [[e H] | [w H]]; apply may_return_Ret in H; subst o;
      (split; [first [apply keeps_but_refl | apply unpickle_keeps] | intros r _ []]).
  - cbn [Grid.bcast] in H. apply may_return_comm_bcast in H.
    destruct H as [[e H] | [w H]]; apply may_return_Ret in H; subst o;
      (split; [first [apply keeps_but_refl | apply unpickle_keeps] | intros r _ []]).
  - cbn [Grid.bcast] in H. apply may_return_comm_bcast in H.
    destruct H as [[e H] | [w H]]; apply may_return_Ret in H; subst o;
      (split; [first [apply keeps_but_refl | apply unpickle_keeps] | intros r _ []]).
  - cbn [Grid.bcast] in H.
    destruct (_ && _)%bool.
    { apply may_return_Ret in H. subst o.
      split; [apply keeps_but_refl | intros r E _; discriminate]. }
    apply may_return_comm_bcast in H. destruct H as [[e H] | [w H]].
    { apply may_return_Ret in H. subst o.
      split; [apply keeps_but_refl | intros r E _; discriminate]. }
    destruct w as [x|z|xs]; [| |destruct (set_local _ xs) as [e|x']];
      apply may_return_Ret in H; subst o; cbn [fst snd];
      try (split; [apply keeps_but_refl | intros r E _; discriminate]).
    split; [|intros r E _; congruence]. split.
    + intros a' ys Ha'. exact Ha'.
    + intros a' Ha'. apply put_vector_lookup. intros E. apply Ha'. left. congruence.
  - rewrite bcast_multi in H. split.
    2:{ intros r E _. destruct o as [h' r']. cbn [snd] in E. subst r'.
        apply (bcast_entries_returns _ _ _ _ _ _ _ H). }
    revert h H. generalize (VMulti es) at 1 as v. intros v.
    induction IH as [|e es He _ IHes]; intros h H.
    + apply may_return_Ret in H. subst o. apply keeps_but_refl.
    + rewrite bcast_entries_cons in H. apply may_return_bind in H.
      destruct H as ([h1 r1] & H1 & H2).
      destruct (He _ _ _ H1) as [S1 _]. cbn [fst] in S1.
      rewrite vector_locs_multi.
      unfold Grid.next_entry in H2. cbn [fst snd] in H2. destruct r1 as [ex|r1].
      * apply may_return_Ret in H2. subst o. cbn [fst].
        apply (keeps_but_trans _ _ _ _ _ S1). apply keeps_but_refl.
      * apply (keeps_but_trans _ _ _ _ _ S1). apply (IHes _ H2).
  - cbn [Grid.bcast] in H.
    destruct (load_global _ _) as [e|[|]]; apply may_return_Ret in H; subst o;
      (split; [apply keeps_but_refl | intros r E _; discriminate]).
Qed.

(** X3: whatever the transport answers, [bcast] changes no array the
    caller holds, whatever the payload, and no vector other than the
    payload itself and, for a multi-vector, its entries; and when it
    returns for a vector or a multi-vector, it returns that same
    object. *)
Theorem bcast_writes_only_vectors (self : Grid.t) (v : pyval) (root : Z)
  (h : heap) (o : outcome) :
  may_return (Grid.bcast self v root h) o ->
  (forall a xs, arrays h !! a = Some xs -> arrays (fst o) !! a = Some xs)
  /\ (forall a, ~ In a (vector_locs v) -> vectors (fst o) !! a = vectors h !! a)
  /\ (forall r, snd o = inr r -> filled_in_place v -> r = v).
Proof.
  intros H. destruct (bcast_keeps_but self v root h o H) as [[A V] R].
  split; [exact A | split; [exact V | exact R]].
Qed.

(** A process of a group of two broadcasts a multi-vector of the
    vectors 2 and 4 and is answered [5.0] and then [6.0]; it also holds
    the array 1 and the vector 7. *)
Lemma bcast_writes_only_vectors_witness :
  let self := Grid.mk (mkComm [0; 1] 1) false in
  let h := put_vector (put_vector (put_vector (set_array empty_heap 1 [1%float])
                         2 (mkVector [2%float] 1 0)) 4 (mkVector [9%float] 1 0))
                      7 (mkVector [3%float] 1 0) in
  let v := VMulti [VVector 2; VVector 4] in
  let h' := put_vector (put_vector h 2 (mkVector [5%float] 1 1)) 4 (mkVector [6%float] 1 1) in
  may_return (Grid.bcast self v 0 h) (h', inr v)
  /\ arrays h' !! 1%positive = Some [1%float]
  /\ vectors h' !! 7%positive = vectors h !! 7%positive.
Proof.
  intros self h v h'.
  assert (H : may_return (Grid.bcast self v 0 h) (h', inr v)).
  { apply (may_call _ _ (RWire (WArray [5%float]))).
    apply (may_call _ _ (RWire (WArray [6%float]))). apply may_ret. }
  split; [exact H|].
  destruct (bcast_writes_only_vectors self v 0 h (h', inr v) H) as (A & V & _).
  split; [apply A; reflexivity | apply V].
  vm_compute. intuition discriminate.
Defined.

(** ** bcast on vectors *)

Lemma set_local_cases (p : heap * positive) (values : list float) :
  match set_local (get_vector (fst p) (snd p)) values with
  | inl e => (fst p, inl e)
  | inr x' => (put_vector (fst p) (snd p) (apply x'), inr (VVector (snd p)))
  end
  = if Nat.eqb (length values) (length (segment_of p))
    then (written_back p values, inr (VVector (snd p)))
    else (fst p,
          inl (RuntimeError "Size of values array is not equal to local vector size")).
Proof.
  unfold set_local, segment_of, written_back.
  destruct (Nat.eqb _ _); reflexivity.
Qed.

Lemma group_bcast_vector `{T : Transport} (ck : bool) (root : Z)
  (p0 : heap * positive) (ps : list (heap * positive)) (q : heap * positive) :
  Forall (passes_serial_check ck) (p0 :: ps) ->
  0 <= root ->
  (p0 :: ps) !! Z.to_nat root = Some q ->
  group_bcast ck root (vector_payloads (p0 :: ps))
  = map (fun p => Some (
      if Nat.eqb (length (segment_of q)) (length (segment_of p))
      then (written_back p (segment_of q), inr (VVector (snd p)))
      else (fst p,
            inl (RuntimeError "Size of values array is not equal to local vector size"))))
      (p0 :: ps).
Proof.
  intros Hcheck Hroot Hq. unfold group_bcast, vector_payloads.
  rewrite List.length_map, map_map. cbn [fst snd].
  rewrite (launch_bcast _ p0 ps (fun p => WArray (segment_of p)) root
    (fun p e => Ret (fst p, inl e))
    (fun p w =>
       match w with
       | WArray v_local =>
           match set_local (get_vector (fst p) (snd p)) v_local with
           | inl e => Ret (fst p, inl e)
           | inr x' => Ret (put_vector (fst p) (snd p) (apply x'), inr (VVector (snd p)))
           end
       | _ => Ret (fst p, inl (TypeError "set_local: expected an array"))
       end)
    (fun p w =>
       match w with
       | WArray v_local =>
           match set_local (get_vector (fst p) (snd p)) v_local with
           | inl e => (fst p, inl e)
           | inr x' => (put_vector (fst p) (snd p) (apply x'), inr (VVector (snd p)))
           end
       | _ => (fst p, inl (TypeError "set_local: expected an array"))
       end)
    (WArray (segment_of q))).
  - apply map_ext. intros p. rewrite set_local_cases. reflexivity.
  - intros p Hp c. cbn [Grid.bcast Grid.is_serial_check].
    rewrite serial_check_passes; [reflexivity|].
    rewrite Forall_forall in Hcheck. apply Hcheck, list_elem_of_In, Hp.
  - intros p [x|z|xs]; try reflexivity. destruct (set_local _ _); reflexivity.
  - exact Hroot.
  - change (map ?f ?l) with (f <$> l). rewrite list_lookup_fmap, Hq. reflexivity.
Qed.



(** ** Groups in which a process returns before the others *)

Lemma mapM_at_call_returned {A : Type} (ps : list (prog A)) :
  Exists (fun o => o <> None) (map finish ps) -> mapM at_call ps = None.
Proof.
  induction ps as [|p ps IH]; intros H; [inversion H|].
  destruct p as [a|e k]; [reflexivity|].
  inversion H as [? ? H0|? ? H0]; subst; [contradiction H0; reflexivity|].
  simpl in IH |- *. rewrite (IH H0). reflexivity.
Qed.

(** A collective call in which a peer does not take part gives no
    result: the processes that have returned keep theirs, those that
    made the call get none. *)
Lemma run_group_some_returned `{T : Transport} {A : Type} (ps : list (prog A)) :
  Exists (fun o => o <> None) (map finish ps) -> run_group ps = map finish ps.
Proof.
  destruct ps as [|[a|e k] rest]; intros H; [reflexivity | reflexivity |].
  cbn [run_group run map finish].
  inversion H as [? ? H0|? ? H0]; subst; [contradiction H0; reflexivity|].
  rewrite (mapM_at_call_returned _ H0). reflexivity.
Qed.

Lemma launch_some_returned `{T : Transport} {X A : Type} (ms : list Z) (body : X -> Comm -> prog A)
  (res : X -> option A) (xs : list X) :
  length ms = length xs ->
  (forall x, In x xs -> forall c, finish (body x c) = res x) ->
  Exists (fun x => res x <> None) xs ->
  launch ms (map body xs) = map res xs.
Proof.
  intros Hlen Hres Hex. rewrite launch_map.
  assert (E : map finish (map (fun mx => body (snd mx) (mkComm ms (fst mx))) (zip ms xs))
              = map res xs).
  { rewrite map_map. rewrite <- (map_snd_zip res ms xs Hlen).
    apply map_ext_in. intros [m x] Hin. apply in_zip_snd in Hin. apply (Hres _ Hin). }
  rewrite run_group_some_returned; [exact E|].
  rewrite E. apply List.Exists_map. exact Hex.
Qed.

(** X5: with the serial check on, when the vector of some process of the
    group lives on a communicator of more than one process, [allReduce]
    stops that process at the assertion before it enters the reduction,
    its vector untouched; the processes whose vector passes the check
    enter a reduction that their peers never join, and get no result
    from it. *)
Theorem serial_check_failure `{T : Transport} (op : string)
  (p0 : heap * positive) (ps : list (heap * positive)) :
  Exists (fun p => owner_size (vec_of p) <> 1) (p0 :: ps) ->
  group_allReduce true op (vector_payloads (p0 :: ps))
  = stopped_by_serial_check (p0 :: ps).
Proof.
  intros Hex.
  assert (Hex' : Exists (fun p : heap * positive =>
                   (if Z.eqb (owner_size (vec_of p)) 1 then None
                    else Some (fst p, @inl exn pyval AssertionError)) <> None) (p0 :: ps)).
  { eapply Exists_impl; [exact Hex|]. intros p Hp. cbv beta.
    destruct (Z.eqb_spec (owner_size (vec_of p)) 1); [contradiction | discriminate]. }
  unfold group_allReduce, vector_payloads, stopped_by_serial_check.
  rewrite !List.length_map, !map_map. cbn [fst snd].
  apply (launch_some_returned _
           (fun p c => Grid.allReduce (Grid.mk c true) (VVector (snd p)) op (fst p))
           (fun p => if Z.eqb (owner_size (vec_of p)) 1 then None
                     else Some (fst p, inl AssertionError))).
  - apply length_world.
  - intros p _ c. cbn [Grid.allReduce Grid.is_serial_check andb]. unfold vec_of.
    destruct (Z.eqb _ 1); reflexivity.
  - exact Hex'.
Qed.

(** Two processes, the vector of the second spread over two processes. *)
Lemma serial_check_failure_witness :
  let T := rank_order in
  let p0 := (put_vector empty_heap 1 (mkVector [1%float] 1 0), 1%positive) in
  let p1 := (put_vector empty_heap 1 (mkVector [3%float] 2 0), 1%positive) in
  group_allReduce true "sum" (vector_payloads [p0; p1])
  = [None; Some (fst p1, inl AssertionError)].
Proof.
  intros T p0 p1.
  apply (serial_check_failure "sum" p0 [p1]).
  apply Exists_cons_tl, Exists_cons_hd. vm_compute. discriminate.
Defined.

(** ** bcast on multi-vectors *)

Lemma root_segment_vec (root : Z) (qs qs' : list (heap * positive)) :
  map vec_of qs = map vec_of qs' -> root_segment root qs = root_segment root qs'.
Proof.
  intros H. unfold root_segment.
  assert (E : vec_of <$> (qs !! Z.to_nat root) = vec_of <$> (qs' !! Z.to_nat root)).
  { rewrite <- !list_lookup_fmap. change (vec_of <$> qs) with (map vec_of qs).
    change (vec_of <$> qs') with (map vec_of qs'). rewrite H. reflexivity. }
  destruct (qs !! Z.to_nat root) as [q|], (qs' !! Z.to_nat root) as [q'|];
    try discriminate; [|reflexivity].
  injection E as E. rewrite !segment_of_vec, E. reflexivity.
Qed.

Lemma lengths_vec (n : nat) (qs qs' : list (heap * positive)) :
  map vec_of qs = map vec_of qs' ->
  Forall (fun q => length (segment_of q) = n) qs ->
  Forall (fun q => length (segment_of q) = n) qs'.
Proof.
  intros H Hp.
  apply (List.Forall_map vec_of (fun v => length (local v) = n)).
  rewrite <- H. apply List.Forall_map. exact Hp.
Qed.

Lemma fillable_after_entry (ck : bool) (root : Z) (values : list float) (m : nat)
  (xs : list (pyval * (heap * list positive))) :
  fillable ck root (S m) (map snd xs) ->
  fillable ck root m (map snd (map (after_entry values) xs)).
Proof.
  intros [Hall Hcols]. split.
  - rewrite !map_map. apply List.Forall_map. apply List.Forall_map in Hall.
    eapply Forall_impl; [exact Hall|]. intros x [Hlen Hnd]. cbn [after_entry fst snd] in *.
    destruct (snd (snd x)) as [|a l]; [discriminate|]. cbn [tl].
    split; [simpl in Hlen; lia|]. apply NoDup_cons in Hnd. tauto.
  - intros j Hj. destruct (Hcols (S j)) as [Hp Hal]; [lia|].
    pose proof (column_after_entry values m xs j Hall Hj) as E. symmetry in E.
    split; [exact (passes_vec _ _ _ E Hp)|].
    unfold root_entry. rewrite <- (root_segment_vec root _ _ E).
    exact (lengths_vec _ _ _ E Hal).
Qed.

(** The first entries of a group that can be filled, by themselves. *)
Lemma launch_first_entry_bcast `{T : Transport} (ck : bool) (root : Z) (m : nat)
  (xs : list (pyval * (heap * list positive))) :
  0 <= root -> (Z.to_nat root < length xs)%nat ->
  fillable ck root (S m) (map snd xs) ->
  launch (world (length xs))
    (map (fun x c => Grid.bcast (Grid.mk c ck)
                       (VVector (nth 0 (snd (snd x)) 1%positive)) root
                       (fst (snd x))) xs)
  = map (fun x => Some
           (written_back (fst (snd x), nth 0 (snd (snd x)) 1%positive)
              (root_entry root (map snd xs) 0),
            inr (VVector (nth 0 (snd (snd x)) 1%positive)))) xs.
Proof.
  intros Hroot Hlt [_ Hcols]. destruct (Hcols 0%nat) as [Hp Hal]; [lia|].
  destruct xs as [|x0 l]; [reflexivity|].
  destruct (column 0 (map snd (x0 :: l)) !! Z.to_nat root) as [q|] eqn:Eq.
  2:{ apply lookup_ge_None in Eq. unfold column in Eq.
      rewrite !List.length_map in Eq. lia. }
  assert (Eseg : root_entry root (map snd (x0 :: l)) 0 = segment_of q).
  { unfold root_entry, root_segment. rewrite Eq. reflexivity. }
  rewrite Eseg in Hal |- *.
  pose proof (group_bcast_vector ck root
                (fst (snd x0), nth 0 (snd (snd x0)) 1%positive)
                (column 0 (map snd l)) q Hp Hroot Eq) as H.
  unfold group_bcast, vector_payloads in H.
  change ((fst (snd x0), nth 0 (snd (snd x0)) 1%positive) :: column 0 (map snd l))
    with (column 0 (map snd (x0 :: l))) in H.
  unfold column in H. rewrite !List.length_map, !map_map in H. cbn [fst snd] in H.
  rewrite H. apply map_ext_in. intros x Hx.
  rewrite Forall_forall in Hal.
  specialize (Hal (fst (snd x), nth 0 (snd (snd x)) 1%positive)).
  rewrite Hal; [rewrite Nat.eqb_refl; reflexivity|].
  apply list_elem_of_In. unfold column. rewrite map_map.
  apply (in_map (fun y => (fst (snd y), nth 0 (snd (snd y)) 1%positive)) _ _ Hx).
Qed.

Lemma launch_bcast_entries_vectors `{T : Transport} (ck : bool) (root : Z) :
  0 <= root ->
  forall (m : nat) (xs : list (pyval * (heap * list positive))),
  (Z.to_nat root < length xs)%nat ->
  fillable ck root m (map snd xs) ->
  launch (world (length xs)) (map (bcast_entries_body ck root) xs)
  = map (fun x => Some
           (write_entries (fst (snd x)) (snd (snd x))
              (map (root_entry root (map snd xs)) (seq 0 m)),
            inr (fst x))) xs.
Proof.
  intros Hroot. induction m as [|m IH]; intros xs Hlt Hfill.
  - destruct Hfill as [Hall _]. apply List.Forall_map in Hall.
    rewrite Forall_forall in Hall.
    rewrite (launch_ext _ _ (fun x _ => @Ret outcome (fst (snd x), inr (fst x)))).
    2:{ intros x Hx c. destruct (Hall x) as [Hlen _]; [apply list_elem_of_In, Hx|].
        unfold bcast_entries_body. destruct (snd (snd x)); [reflexivity | discriminate]. }
    rewrite (launch_ret _ (fun x => (fst (snd x), inr (fst x)) : outcome))
      by apply length_world.
    apply map_ext_in. intros x Hx.
    destruct (Hall x) as [Hlen _]; [apply list_elem_of_In, Hx|].
    destruct (snd (snd x)); [reflexivity | discriminate].
  - pose proof Hfill as [Hall Hcols]. pose proof Hall as Hall'.
    apply List.Forall_map in Hall'. rewrite Forall_forall in Hall'.
    set (v0 := root_entry root (map snd xs) 0).
    rewrite (launch_ext _ _
      (fun x c =>
         bind (Grid.bcast (Grid.mk c ck)
                 (VVector (nth 0 (snd (snd x)) 1%positive)) root (fst (snd x)))
              (Grid.next_entry
                 (bcast_entries (Grid.mk c ck) root (fst x)
                    (map VVector (tl (snd (snd x)))))))).
    2:{ intros x Hx c. destruct (Hall' x) as [Hlen _]; [apply list_elem_of_In, Hx|].
        unfold bcast_entries_body. destruct (snd (snd x)); [discriminate | reflexivity]. }
    rewrite (launch_bind _ _
      (fun x c => Grid.next_entry
                    (bcast_entries (Grid.mk c ck) root (fst x)
                       (map VVector (tl (snd (snd x))))))
      (fun x => (written_back (fst (snd x), nth 0 (snd (snd x)) 1%positive) v0,
                 inr (VVector (nth 0 (snd (snd x)) 1%positive))))).
    2:{ apply length_world. }
    2:{ apply (launch_first_entry_bcast ck root m xs Hroot Hlt Hfill). }
    change (launch (world (length xs))
              (map (fun x c => bcast_entries_body ck root (after_entry v0 x) c) xs)
            = map (fun x => Some
                (write_entries (fst (snd x)) (snd (snd x))
                   (map (root_entry root (map snd xs)) (seq 0 (S m))),
                 inr (fst x))) xs).
    rewrite <- (map_map (after_entry v0) (fun x c => bcast_entries_body ck root x c)).
    rewrite <- (List.length_map (after_entry v0) xs).
    rewrite (launch_ext _ _ (bcast_entries_body ck root)) by reflexivity.
    rewrite IH.
    2:{ rewrite List.length_map. exact Hlt. }
    2:{ apply fillable_after_entry. exact Hfill. }
    rewrite map_map. apply map_ext_in. intros x Hx.
    destruct (Hall' x) as [Hlen Hnd]; [apply list_elem_of_In, Hx|].
    cbn [after_entry fst snd]. f_equal. f_equal.
    destruct (snd (snd x)) as [|a locs] eqn:E; [discriminate|].
    cbn [seq map nth tl]. rewrite write_entries_cons. fold v0. f_equal.
    rewrite <- seq_shift, (map_map S (root_entry root (map snd xs))).
    apply map_ext_in. intros j Hj.
    apply in_seq in Hj. unfold root_entry. apply root_segment_vec.
    apply (column_after_entry v0 m xs j Hall). lia.
Qed.

(** X6: on a multi-vector, [bcast] calls itself on every entry in turn
    with the same root and returns the same container. For multi-vectors
    of [m] vectors, all different objects, that pass the serial check and
    have entry by entry the length they have at the root, a rank of the
    group, every process gets its container back with every entry filled
    in place: entry [j] then holds the segment entry [j] of the root held
    before the call, and has been synchronised once. *)
Theorem bcast_multi_vector `{T : Transport} (is_serial_check : bool) (root : Z) (m : nat)
  (ps : list (heap * list positive)) :
  0 <= root -> (Z.to_nat root < length ps)%nat ->
  fillable is_serial_check root m ps ->
  let vals := map (root_entry root ps) (seq 0 m) in
  group_bcast is_serial_check root (multi_payloads ps)
  = map (fun p => Some (write_entries (fst p) (snd p) vals,
                        inr (VMulti (map VVector (snd p))))) ps
  /\ (forall p j, In p ps -> (j < m)%nat ->
        vec_of (write_entries (fst p) (snd p) vals, nth j (snd p) 1%positive)
        = mkVector (root_entry root ps j)
            (owner_size (vec_of (fst p, nth j (snd p) 1%positive)))
            (S (applied (vec_of (fst p, nth j (snd p) 1%positive)))))
  /\ (forall p j, ps !! Z.to_nat root = Some p -> (j < m)%nat ->
        root_entry root ps j = local (vec_of (fst p, nth j (snd p) 1%positive))).
Proof.
  intros Hroot Hlt Hfill vals. split; [|split].
  - pose proof (launch_bcast_entries_vectors is_serial_check root Hroot m
                  (map (fun p => (VMulti (map VVector (snd p)), p)) ps)) as H.
    rewrite !map_map in H. cbn [fst snd] in H. rewrite map_id in H.
    rewrite List.length_map in H. specialize (H Hlt Hfill).
    unfold group_bcast, multi_payloads. rewrite List.length_map, map_map.
    exact H.
  - intros p j Hp Hj. destruct Hfill as [Hall _]. rewrite Forall_forall in Hall.
    destruct (Hall p) as [Hlen Hnd]; [apply list_elem_of_In, Hp|].
    rewrite write_entries_entry.
    + rewrite vec_of_written_back_same. unfold vals. f_equal.
      rewrite (nth_indep _ [] (root_entry root ps 0))
        by (rewrite List.length_map, length_seq; exact Hj).
      rewrite (map_nth (root_entry root ps) (seq 0 m) 0%nat j), seq_nth by exact Hj.
      reflexivity.
    + exact Hnd.
    + unfold vals. rewrite List.length_map, length_seq. symmetry. exact Hlen.
    + rewrite Hlen. exact Hj.
  - intros p j Hp Hj. unfold root_entry, root_segment, column.
    change (map ?f ps) with (f <$> ps). rewrite list_lookup_fmap, Hp. reflexivity.
Qed.

(** Two processes, each with a multi-vector of two vectors, root 1. *)
Lemma bcast_multi_vector_witness :
  let T := rank_order in
  let h0 := put_vector (put_vector empty_heap 1 (mkVector [1%float] 1 0))
                       2 (mkVector [10%float; 20%float] 1 0) in
  let h1 := put_vector (put_vector empty_heap 1 (mkVector [2%float] 1 0))
                       2 (mkVector [30%float; 40%float] 1 0) in
  let h' := put_vector (put_vector empty_heap 1 (mkVector [2%float] 1 1))
                       2 (mkVector [30%float; 40%float] 1 1) in
  group_bcast true 1 (multi_payloads [(h0, [1; 2]%positive); (h1, [1; 2]%positive)])
  = [Some (h', inr (VMulti [VVector 1; VVector 2]));
     Some (h', inr (VMulti [VVector 1; VVector 2]))].
Proof.
  intros T.
  intros h0 h1 h'.
  destruct (bcast_multi_vector true 1 2
              [(h0, [1; 2]%positive); (h1, [1; 2]%positive)]) as [E _].
  - lia.
  - simpl. lia.
  - split.
    + assert (Hnd : NoDup [1; 2]%positive).
      { apply NoDup_cons. split; [|apply NoDup_singleton].
        apply not_elem_of_cons. split; [discriminate | apply not_elem_of_nil]. }
      constructor; [split; [reflexivity | exact Hnd]|].
      constructor; [split; [reflexivity | exact Hnd]|]. constructor.
    + intros j Hj. destruct j as [|[|j]]; [| |lia];
        (split; [repeat constructor; right; reflexivity | repeat constructor]).
  - rewrite E. vm_compute. reflexivity.
Defined.

(** ** splitCommunicators: the grid of the groups *)




(** ** splitCommunicators: the ranks in the groups *)














(** ** A group of one process *)

Lemma NullCollective_allReduce_known (v : pyval) (op : string) :
  lower op = "sum"%string \/ lower op = "avg"%string ->
  NullCollective.allReduce v op = inr v.
Proof.
  intros Hop. unfold NullCollective.allReduce. rewrite str_in_sum_avg.
  destruct Hop as [-> | ->]; reflexivity.
Qed.

Lemma set_array_same (h : heap) (a : positive) (xs : list float) :
  arrays h !! a = Some xs -> set_array h a xs = h.
Proof.
  intros H. destruct h as [ar ve]. unfold set_array. cbn [arrays vectors] in *.
  rewrite insert_id by exact H. reflexivity.
Qed.

(** X9: a group of one process can stand in for [NullCollective]. With
    "sum" or "avg", its [allReduce] returns a 32-bit integer as it is and
    an array as the same object with its contents as they are, as
    [NullCollective.allReduce] does; with "sum" it returns a real number
    as it is; and its [bcast] with root 0 returns an integer or a real
    number as it is, as [NullCollective.bcast] does. Nothing the process
    holds changes. *)
Theorem single_process_as_NullCollective `{T : Transport} (is_serial_check : bool) (op : string) (h : heap) :
  lower op = "sum"%string \/ lower op = "avg"%string ->
  (forall z, in_int32 z ->
     group_allReduce is_serial_check op [(h, VInt z)]
     = [Some (h, NullCollective.allReduce (VInt z) op)])
  /\ (forall a xs, arrays h !! a = Some xs ->
        group_allReduce is_serial_check op [(h, VArray a)]
        = [Some (h, NullCollective.allReduce (VArray a) op)])
  /\ (forall x, lower op = "sum"%string ->
        group_allReduce is_serial_check op [(h, VFloat x)]
        = [Some (h, NullCollective.allReduce (VFloat x) op)])
  /\ (forall z, group_bcast is_serial_check 0 [(h, VInt z)]
                = [Some (h, inr (NullCollective.bcast (VInt z) 0))])
  /\ (forall x, group_bcast is_serial_check 0 [(h, VFloat x)]
                = [Some (h, inr (NullCollective.bcast (VFloat x) 0))]).
Proof.
  intros Hop. split; [|split; [|split; [|split]]].
  - intros z Hz. rewrite NullCollective_allReduce_known by exact Hop.
    pose proof (group_allReduce_int is_serial_check op (h, z) []) as E.
    cbn [int_payloads map fst snd] in E. rewrite E.
    2:{ constructor; [|constructor]. unfold in_c_long, in_int32 in *. cbn [snd]. lia. }
    cbn [Zsum fold_right length]. rewrite Z.add_0_r, wrap32_small by exact Hz.
    change (Z.of_nat 1) with 1. rewrite Z.div_1_r.
    destruct Hop as [-> | ->]; reflexivity.
  - intros a xs Ha. rewrite NullCollective_allReduce_known by exact Hop.
    pose proof (group_allReduce_ndarray is_serial_check op (h, a) []) as E.
    cbn [array_payloads map fst snd] in E. rewrite E.
    unfold Allreduce_SUM_DOUBLE. cbn [same_length forallb map fst snd].
    rewrite summed_one.
    unfold buffer_of, get_array. cbn [fst snd]. rewrite Ha.
    change (default [] (Some xs)) with xs.
    rewrite (set_array_same h a xs Ha).
    destruct Hop as [-> | ->]; reflexivity.
  - intros x Hsum. rewrite NullCollective_allReduce_known by exact Hop.
    pose proof (group_allReduce_float is_serial_check op (h, x) []) as E.
    cbn [float_payloads map fst snd] in E. rewrite E, Hsum.
    unfold real_sum. cbn [length]. rewrite sum_order_single. reflexivity.
  - intros z.
    apply (launch_bcast _ (h, VInt z) [] pickle 0
             (fun p e => Ret (fst p, inl e))
             (fun p w => Ret (Grid.unpickle (fst p) w))
             (fun p w => Grid.unpickle (fst p) w) (WInt z)).
    + intros p [<- | []] c. reflexivity.
    + reflexivity.
    + lia.
    + reflexivity.
  - intros x.
    apply (launch_bcast _ (h, VFloat x) [] pickle 0
             (fun p e => Ret (fst p, inl e))
             (fun p w => Ret (Grid.unpickle (fst p) w))
             (fun p w => Grid.unpickle (fst p) w) (WFloat x)).
    + intros p [<- | []] c. reflexivity.
    + reflexivity.
    + lia.
    + reflexivity.
Qed.

(** A single process reduces 7 and the array [1.0; 2.0] with "AVG". *)
Lemma single_process_as_NullCollective_witness :
  let T := rank_order in
  let h := set_array empty_heap 1 [1%float; 2%float] in
  group_allReduce false "AVG" [(h, VInt 7)] = [Some (h, inr (VInt 7))]
  /\ group_allReduce false "AVG" [(h, VArray 1)] = [Some (h, inr (VArray 1))].
Proof.
  intros T.
  intros h.
  destruct (single_process_as_NullCollective false "AVG" h) as (Hint & Harr & _).
  - right. reflexivity.
  - split.
    + rewrite (Hint 7); [reflexivity|]. unfold in_int32. lia.
    + rewrite (Harr 1%positive [1%float; 2%float]); reflexivity.
Defined.

(** ** The order of the ranks *)

(** X10: the integers [allReduce] returns do not depend on which process
    holds which value. Two groups that hold the same integers (each
    within a C long), in any order over the ranks, get the same result on
    every process, whatever the operation. *)
Theorem allReduce_int_any_order `{T : Transport} (is_serial_check : bool) (op : string)
  (p0 q0 : heap * Z) (ps qs : list (heap * Z)) :
  map snd (p0 :: ps) ≡ₚ map snd (q0 :: qs) ->
  Forall (fun p => in_c_long (snd p)) (p0 :: ps) ->
  exists r : result pyval,
    group_allReduce is_serial_check op (int_payloads (p0 :: ps))
    = map (fun p => Some (fst p, r)) (p0 :: ps)
    /\ group_allReduce is_serial_check op (int_payloads (q0 :: qs))
       = map (fun q => Some (fst q, r)) (q0 :: qs).
Proof.
  intros Hperm Hp.
  assert (Hq : Forall (fun q => in_c_long (snd q)) (q0 :: qs)).
  { apply (List.Forall_map snd in_c_long). apply (List.Forall_map snd in_c_long) in Hp.
    rewrite Forall_forall in Hp |- *. intros z Hz. apply Hp. rewrite Hperm. exact Hz. }
  rewrite (group_allReduce_int _ _ _ _ Hp), (group_allReduce_int _ _ _ _ Hq).
  rewrite (Zsum_perm _ _ Hperm).
  assert (Hlen : length (p0 :: ps) = length (q0 :: qs)).
  { rewrite <- (List.length_map snd (p0 :: ps)), <- (List.length_map snd (q0 :: qs)).
    apply Permutation_length, Hperm. }
  rewrite Hlen. eexists. split; reflexivity.
Qed.

(** The values 5, 7 and 2^31 - 1 on three processes, in two orders. *)
Lemma allReduce_int_any_order_witness :
  let T := rank_order in
  exists r : result pyval,
    group_allReduce false "sum"
      (int_payloads [(empty_heap, 5); (empty_heap, 7); (empty_heap, 2 ^ 31 - 1)])
    = map (fun p => Some (fst p, r))
        [(empty_heap, 5); (empty_heap, 7); (empty_heap, 2 ^ 31 - 1)]
    /\ group_allReduce false "sum"
         (int_payloads [(empty_heap, 2 ^ 31 - 1); (empty_heap, 5); (empty_heap, 7)])
       = map (fun q => Some (fst q, r))
           [(empty_heap, 2 ^ 31 - 1); (empty_heap, 5); (empty_heap, 7)].
Proof.
  intros T.
  apply (allReduce_int_any_order false "sum").
  - cbn [map snd]. etrans; [apply perm_skip, perm_swap | apply perm_swap].
  - repeat constructor; cbn [snd]; unfold in_c_long; lia.
Defined.

(** ** What a call preserves of the vectors *)

Lemma same_shape_refl (h : heap) : same_shape h h.
Proof. intros a. repeat split; lia. Qed.

Lemma same_shape_trans (h1 h2 h3 : heap) :
  same_shape h1 h2 -> same_shape h2 h3 -> same_shape h1 h3.
Proof.
  intros H12 H23 a. destruct (H12 a) as (L1 & O1 & A1), (H23 a) as (L2 & O2 & A2).
  repeat split; [congruence | congruence | lia].
Qed.

Lemma same_shape_vectors (h h' : heap) : vectors h' = vectors h -> same_shape h h'.
Proof.
  intros E a. unfold get_vector. rewrite E. repeat split; lia.
Qed.

Lemma same_shape_set_local (h : heap) (a : positive) (values : list float) (x' : Vector) :
  set_local (get_vector h a) values = inr x' ->
  same_shape h (put_vector h a (apply x')).
Proof.
  unfold set_local. destruct (Nat.eqb_spec (length values) (length (local (get_vector h a))))
    as [Hlen|]; [|discriminate].
  intros E. injection E as <-. intros a'.
  destruct (decide (a' = a)) as [->|Hne].
  - assert (E : forall x, get_vector (put_vector h a x) a = x).
    { intros x. unfold get_vector, put_vector. cbn [vectors].
      rewrite lookup_insert_eq. reflexivity. }
    rewrite E. cbn [apply local owner_size applied].
    split; [exact Hlen|]. split; [reflexivity | lia].
  - assert (E : forall x, get_vector (put_vector h a x) a' = get_vector h a').
    { intros x. unfold get_vector, put_vector. cbn [vectors].
      rewrite lookup_insert_ne by congruence. reflexivity. }
    rewrite E. split; [reflexivity|]. split; [reflexivity | lia].
Qed.

Lemma allReduce_same_shape (self : Grid.t) (v : pyval) :
  forall (op : string) (h : heap) (o : outcome),
  may_return (Grid.allReduce self v op h) o -> same_shape h (fst o).
Proof.
  induction v as [x|z|a|a|es IH|ty] using pyval_nested_ind; intros op h o H.
  - cbn [Grid.allReduce] in H. apply may_return_AllreduceDouble in H.
    destruct H as [rc H].
    destruct (String.eqb _ "sum"); [|destruct (String.eqb _ "avg")];
      apply may_return_Ret in H; subst o; apply same_shape_refl.
  - cbn [Grid.allReduce] in H. destruct (to_int32 z) as [e|z32].
    + apply may_return_Ret in H. subst o. apply same_shape_refl.
    + apply may_return_AllreduceInt in H. destruct H as [rc H].
      destruct (String.eqb _ "sum"); [|destruct (String.eqb _ "avg")];
        apply may_return_Ret in H; subst o; apply same_shape_refl.
  - cbn [Grid.allReduce] in H. apply may_return_AllreduceDouble in H.
    destruct H as [rc H].
    destruct (String.eqb _ "sum"); [|destruct (String.eqb _ "avg")];
      apply may_return_Ret in H; subst o; cbn [fst];
      apply same_shape_vectors; reflexivity.
  - cbn [Grid.allReduce] in H.
    destruct (_ && _)%bool.
    { apply may_return_Ret in H. subst o. apply same_shape_refl. }
    apply may_return_AllreduceDouble in H. destruct H as [rc H].
    assert (G : forall rc',
      may_return
        match set_local (get_vector h a) rc' with
        | inl e => Ret (h, inl e)
        | inr x' => Ret (put_vector h a (apply x'), inr (VVector a))
        end o ->
      same_shape h (fst o)).
    { intros rc' H'. destruct (set_local _ rc') as [e|x'] eqn:E;
        apply may_return_Ret in H'; subst o; cbn [fst].
      - apply same_shape_refl.
      - apply (same_shape_set_local _ _ _ _ E). }
    destruct (String.eqb _ "sum"); [|destruct (String.eqb _ "avg")].
    + apply (G _ H).
    + apply (G _ H).
    + apply may_return_Ret in H. subst o. apply same_shape_refl.
  - rewrite allReduce_multi in H.
    revert h H. generalize (VMulti es) at 1 as v. intros v.
    induction IH as [|e es He _ IHes]; intros h H.
    + apply may_return_Ret in H. subst o. apply same_shape_refl.
    + rewrite allReduce_entries_cons in H. apply may_return_bind in H.
      destruct H as ([h1 r1] & H1 & H2).
      pose proof (He _ _ _ H1) as S1. cbn [fst] in S1.
      unfold Grid.next_entry in H2. cbn [fst snd] in H2. destruct r1 as [ex|r1].
      * apply may_return_Ret in H2. subst o. exact S1.
      * apply (same_shape_trans _ _ _ S1). apply (IHes _ H2).
  - cbn [Grid.allReduce] in H.
    destruct (load_global _ _) as [e|[|]]; apply may_return_Ret in H; subst o;
      apply same_shape_refl.
Qed.

Lemma bcast_same_shape (self : Grid.t) (v : pyval) :
  forall (root : Z) (h : heap) (o : outcome),
  may_return (Grid.bcast self v root h) o -> same_shape h (fst o).
Proof.
  induction v as [x|z|a|a|es IH|ty] using pyval_nested_ind; intros root h o H.
  - cbn [Grid.bcast] in H. apply may_return_comm_bcast in H.
    destruct H as [[e H] | [w H]]; apply may_return_Ret in H; subst o;
      [apply same_shape_refl|].
    apply same_shape_vectors. apply (unpickle_extends h w).
  - cbn [Grid.bcast] in H. apply may_return_comm_bcast in H.
    destruct H as [[e H] | [w H]]; apply may_return_Ret in H; subst o;
      [apply same_shape_refl|].
    apply same_shape_vectors. apply (unpickle_extends h w).
  - cbn [Grid.bcast] in H. apply may_return_comm_bcast in H.
    destruct H as [[e H] | [w H]]; apply may_return_Ret in H; subst o;
      [apply same_shape_refl|].
    apply same_shape_vectors. apply (unpickle_extends h w).
  - cbn [Grid.bcast] in H.
    destruct (_ && _)%bool.
    { apply may_return_Ret in H. subst o. apply same_shape_refl. }
    apply may_return_comm_bcast in H. destruct H as [[e H] | [w H]].
    { apply may_return_Ret in H. subst o. apply same_shape_refl. }
    destruct w as [x|z|xs]; [| |destruct (set_local _ xs) as [e|x'] eqn:E];
      apply may_return_Ret in H; subst o; cbn [fst]; try apply same_shape_refl.
    apply (same_shape_set_local _ _ _ _ E).
  - rewrite bcast_multi in H.
    revert h H. generalize (VMulti es) at 1 as v. intros v.
    induction IH as [|e es He _ IHes]; intros h H.
    + apply may_return_Ret in H. subst o. apply same_shape_refl.
    + rewrite bcast_entries_cons in H. apply may_return_bind in H.
      destruct H as ([h1 r1] & H1 & H2).
      pose proof (He _ _ _ H1) as S1. cbn [fst] in S1.
      unfold Grid.next_entry in H2. cbn [fst snd] in H2. destruct r1 as [ex|r1].
      * apply may_return_Ret in H2. subst o. exact S1.
      * apply (same_shape_trans _ _ _ S1). apply (IHes _ H2).
  - cbn [Grid.bcast] in H.
    destruct (load_global _ _) as [e|[|]]; apply may_return_Ret in H; subst o;
      apply same_shape_refl.
Qed.

(** X11: whatever the payload and whatever the transport answers,
    [allReduce] and [bcast] leave every vector of the caller with the
    local size and the communicator it had, and never with a lower count
    of [apply] calls: a vector is only ever written through [set_local]
    with as many values as it holds. *)
Theorem calls_keep_vector_shape (self : Grid.t) (v : pyval) (h : heap) (o : outcome) :
  (forall op, may_return (Grid.allReduce self v op h) o -> same_shape h (fst o))
  /\ (forall root, may_return (Grid.bcast self v root h) o -> same_shape h (fst o)).
Proof.
  split.
  - intros op. apply allReduce_same_shape.
  - intros root. apply bcast_same_shape.
Qed.

(** A process of a group of two broadcasts the vector 2, of local size
    1 on a communicator of 3 processes, and is answered [5.0]. *)
Lemma calls_keep_vector_shape_witness :
  let self := Grid.mk (mkComm [0; 1] 1) false in
  let h := put_vector empty_heap 2 (mkVector [2%float] 3 0) in
  let o : outcome := (put_vector empty_heap 2 (mkVector [5%float] 3 1), inr (VVector 2)) in
  may_return (Grid.bcast self (VVector 2) 0 h) o
  /\ same_shape h (fst o).
Proof.
  intros self h o.
  assert (H : may_return (Grid.bcast self (VVector 2) 0 h) o).
  { apply (may_call _ _ (RWire (WArray [5%float]))). apply may_ret. }
  split; [exact H|].
  destruct (calls_keep_vector_shape self (VVector 2) h o) as [_ B].
  apply (B 0 H).
Defined.

(** ** Calls that raise *)

(** X12: on a payload that is not a container (a scalar, an array, a
    vector, an unsupported object), a call of [allReduce] or [bcast] that
    raises has changed nothing of what the caller holds, whatever the
    transport answered: each branch writes its result only after its
    last check. *)
Theorem failed_call_keeps_heap (self : Grid.t) (v : pyval) (h h' : heap) (e : exn) :
  is_leaf v ->
  (forall op, may_return (Grid.allReduce self v op h) (h', inl e) -> h' = h)
  /\ (forall root, may_return (Grid.bcast self v root h) (h', inl e) -> h' = h).
Proof.
  intros Hleaf. split.
  - intros op H. destruct v as [x|z|a|a|es|ty]; [| | | | contradiction |];
      cbn [Grid.allReduce] in H.
    + apply may_return_AllreduceDouble in H. destruct H as [rc H].
      destruct (String.eqb _ "sum"); [|destruct (String.eqb _ "avg")];
        apply may_return_Ret in H; congruence.
    + destruct (to_int32 z) as [ex|z32]; [apply may_return_Ret in H; congruence|].
      apply may_return_AllreduceInt in H. destruct H as [rc H].
      destruct (String.eqb _ "sum"); [|destruct (String.eqb _ "avg")];
        apply may_return_Ret in H; congruence.
    + apply may_return_AllreduceDouble in H. destruct H as [rc H].
      destruct (String.eqb _ "sum"); [|destruct (String.eqb _ "avg")];
        apply may_return_Ret in H; congruence.
    + destruct (_ && _)%bool; [apply may_return_Ret in H; congruence|].
      apply may_return_AllreduceDouble in H. destruct H as [rc H].
      destruct (String.eqb _ "sum"); [|destruct (String.eqb _ "avg")];
        try destruct (set_local _ _); apply may_return_Ret in H; congruence.
    + destruct (load_global _ _) as [ex|[|]]; apply may_return_Ret in H; congruence.
  - intros root H. destruct v as [x|z|a|a|es|ty]; [| | | | contradiction |];
      cbn [Grid.bcast] in H.
    + apply may_return_comm_bcast in H. destruct H as [[e0 H] | [w H]];
        apply may_return_Ret in H; [congruence | destruct w; discriminate].
    + apply may_return_comm_bcast in H. destruct H as [[e0 H] | [w H]];
        apply may_return_Ret in H; [congruence | destruct w; discriminate].
    + apply may_return_comm_bcast in H. destruct H as [[e0 H] | [w H]];
        apply may_return_Ret in H; [congruence | destruct w; discriminate].
    + destruct (_ && _)%bool; [apply may_return_Ret in H; congruence|].
      apply may_return_comm_bcast in H. destruct H as [[e0 H] | [w H]];
        [apply may_return_Ret in H; congruence|].
      destruct w as [x|z|xs]; [| |destruct (set_local _ xs)];
        apply may_return_Ret in H; congruence.
    + destruct (load_global _ _) as [ex|[|]]; apply may_return_Ret in H; congruence.
Qed.

(** A process of a group of two reduces the vector 2, of local size 1,
    and is answered two values: [set_local] raises, and the vector is as
    it was. *)
Lemma failed_call_keeps_heap_witness :
  let self := Grid.mk (mkComm [0; 1] 1) false in
  let h := put_vector empty_heap 2 (mkVector [2%float] 1 0) in
  let e := RuntimeError "Size of values array is not equal to local vector size" in
  may_return (Grid.allReduce self (VVector 2) "sum" h) (h, inl e)
  /\ (forall h', may_return (Grid.allReduce self (VVector 2) "sum" h) (h', inl e) -> h' = h).
Proof.
  intros self h e.
  split.
  - apply (may_call _ _ (RDouble [5%float; 6%float])). apply may_ret.
  - intros h' H.
    destruct (failed_call_keeps_heap self (VVector 2) h h' e) as [A _].
    + exact I.
    + apply (A "sum"%string H).
Defined.
